(** * llmrpg: world graph, session store, action executor and narrative engine

    A shallow embedding of the Go packages [world], [session], [llm] and
    [narrative], and the properties of the action-validation and
    session-mutation pipeline.

    Modelling conventions.
    - A Go [string] is a Rocq [string]; a Go [map[string]T] is a
      [gmap string T]; a slice is a [list].
    - A Go [error] value produced by [errors.New] or [fmt.Errorf] is modelled
      by its message (what [Error()] returns); a [nil] error is [None].
    - A [*GameSession] is modelled by the key under which the manager stores
      the object together with the pointee value.  A method that mutates
      through the pointer returns the new pointee, and the code that holds
      the pointer writes it back under that key.
    - [time.Now()] reads a [Clock]: an oracle of readings (Unix nanoseconds)
      and the number of readings taken so far.
    - A call that can panic is given a [completion]: it returns its result
      or it panics, and either way it leaves a state.
    - Console logging ([fmt.Printf], [log.Printf]) is not modelled. *)

From Stdlib Require Import ZArith String Ascii List DecimalString.
From stdpp Require Import base gmap strings list fin_maps.

Local Open Scope string_scope.
Local Open Scope list_scope.
Local Open Scope nat_scope.

(** ** The parts of the Go standard library the code calls *)

Module Go.

(** [strings.HasPrefix(s, p)]. *)
Fixpoint HasPrefix (s p : string) : bool :=
  match p, s with
  | EmptyString, _ => true
  | String _ _, EmptyString => false
  | String c p', String d s' => if decide (c = d) then HasPrefix s' p' else false
  end.

(** [strings.Contains(s, substr)]: [substr] starts at some position of [s]. *)
Fixpoint Contains (s substr : string) : bool :=
  if HasPrefix s substr then true
  else match s with
       | EmptyString => false
       | String _ s' => Contains s' substr
       end.

(** [strings.HasSuffix(s, suffix)], through the reversed strings. *)
Definition HasSuffix (s suffix : string) : bool :=
  HasPrefix (String.rev s) (String.rev suffix).

(** [strings.TrimSuffix(s, suffix)]: [s] without the trailing [suffix],
    or [s] itself when it does not end with [suffix]. *)
Definition TrimSuffix (s suffix : string) : string :=
  if HasSuffix s suffix
  then String.substring 0 (String.length s - String.length suffix) s
  else s.

(** Lower-casing of one byte.  [strings.ToLower] also maps letters outside
    ASCII; none of them maps to a byte of [".json"], the only suffix the
    lowered name is compared with, so those bytes are left as they are. *)
Definition lower_byte (c : ascii) : ascii :=
  let n := nat_of_ascii c in
  if decide (65 ≤ n ≤ 90)%nat then ascii_of_nat (n + 32) else c.

Fixpoint ToLower (s : string) : string :=
  match s with
  | EmptyString => EmptyString
  | String c s' => String (lower_byte c) (ToLower s')
  end.

(** [filepath.Ext(path)]: the suffix that starts at the last dot of the
    last path element, empty when that element has no dot.  The scan runs
    from the end of the string, so it is written over the reversed string;
    [acc] holds the bytes already passed, in their original order. *)
Fixpoint Ext_scan (rev_path : string) (acc : string) : string :=
  match rev_path with
  | EmptyString => ""
  | String c rest =>
      if decide (c = "/"%char) then ""
      else if decide (c = "."%char) then String c acc
      else Ext_scan rest (String c acc)
  end.

Definition Ext (path : string) : string := Ext_scan (String.rev path) "".

(** The verb [%d] on an [int] or [int64]. *)
Definition fmt_d (n : Z) : string := NilZero.string_of_int (Z.to_int n).

End Go.

(** An error is its message. *)
Definition error : Type := string.

(** The result of a Go function returning [(T, error)]: either the value
    with a [nil] error, or the error (the value is then the zero value and
    no caller in this code reads it). *)
Inductive result (A : Type) : Type :=
| Ok (a : A)
| Err (e : error).
Arguments Ok {A} a.
Arguments Err {A} e.

(** A value held in an [interface{}], as [encoding/json] produces it or as a
    caller builds it.  Only the dynamic type matters to this code. *)
#[warnings="-register-all"]
Inductive any : Type :=
| AnyNil
| AnyBool (b : bool)
| AnyNumber (n : Z)
| AnyString (s : string)
| AnyList (l : list any)
| AnyMap (kvs : list (string * any)).

(** The clock behind [time.Now()]. *)
Record Clock : Type := mkClock {
  readings : nat → Z;
  ticks : nat;
}.

Definition time_Now (c : Clock) : Z * Clock :=
  (readings c (ticks c), mkClock (readings c) (S (ticks c))).

(** ** Package character *)

Module Character.
Record t : Type := mk {
  ID : string;
  Name : string;
  Class : string;
  Origin : string;
  Level : Z;
}.
End Character.

Definition NewCharacter (id name class origin : string) : Character.t :=
  Character.mk id name class origin 1.

(** ** Package world *)

Module LocationNode.
Record t : Type := mk {
  ID : string;
  Name : string;
  Description : string;
  AdjacentIDs : list string;
  Tags : list string;
  ImageID : string;
  ThemeID : string;
  Attributes : gmap string any;
}.

Definition with_ID (id : string) (l : t) : t :=
  mk id (Name l) (Description l) (AdjacentIDs l) (Tags l) (ImageID l)
     (ThemeID l) (Attributes l).
End LocationNode.

Module ThemeDefinition.
Record t : Type := mk {
  ID : string;
  Name : string;
}.

Definition with_ID (id : string) (th : t) : t := mk id (Name th).
End ThemeDefinition.

Record InMemoryWorldSystem : Type := mkWorld {
  locations : gmap string LocationNode.t;
  themes : gmap string ThemeDefinition.t;
}.

Definition NewInMemoryWorldSystem : InMemoryWorldSystem := mkWorld ∅ ∅.

(** *** Queries of [InMemoryWorldSystem] *)

Definition GetLocation (ws : InMemoryWorldSystem) (locationID : string)
  : result LocationNode.t :=
  match locations ws !! locationID with
  | None => Err ("location with ID '" +:+ locationID +:+ "' not found")
  | Some loc => Ok loc
  end.

Definition GetTheme (ws : InMemoryWorldSystem) (themeID : string)
  : result ThemeDefinition.t :=
  match themes ws !! themeID with
  | None => Err ("theme definition with ID '" +:+ themeID +:+ "' not found")
  | Some theme => Ok theme
  end.

(** The loop [for _, adjID := range currentLoc.AdjacentIDs] of [IsAdjacent],
    returning at the first match. *)
Fixpoint IsAdjacent_scan (adjacentIDs : list string) (targetLocationID : string)
  : bool :=
  match adjacentIDs with
  | [] => false
  | adjID :: rest =>
      if decide (adjID = targetLocationID) then true
      else IsAdjacent_scan rest targetLocationID
  end.

Definition IsAdjacent (ws : InMemoryWorldSystem)
    (currentLocationID targetLocationID : string) : result bool :=
  match locations ws !! currentLocationID with
  | None =>
      Err ("current location with ID '" +:+ currentLocationID +:+ "' not found")
  | Some currentLoc =>
      match locations ws !! targetLocationID with
      | None =>
          Err ("target location with ID '" +:+ targetLocationID +:+ "' not found")
      | Some _ =>
          Ok (IsAdjacent_scan (LocationNode.AdjacentIDs currentLoc) targetLocationID)
      end
  end.

Definition ValidateThemeExists (ws : InMemoryWorldSystem) (themeID : string)
  : bool :=
  bool_decide (is_Some (themes ws !! themeID)).

(** [GetAdjacentLocations]: the adjacency ids that resolve, in stored order;
    an id that does not resolve is skipped (with a console warning). *)
Fixpoint GetAdjacentLocations_scan (ws : InMemoryWorldSystem)
    (adjacentIDs : list string) : list LocationNode.t :=
  match adjacentIDs with
  | [] => []
  | adjID :: rest =>
      match locations ws !! adjID with
      | Some loc => loc :: GetAdjacentLocations_scan ws rest
      | None => GetAdjacentLocations_scan ws rest
      end
  end.

Definition GetAdjacentLocations (ws : InMemoryWorldSystem) (locationID : string)
  : result (list LocationNode.t) :=
  match GetLocation ws locationID with
  | Err err => Err err
  | Ok currentLoc =>
      Ok (GetAdjacentLocations_scan ws (LocationNode.AdjacentIDs currentLoc))
  end.

(** *** Loading

    What [filepath.WalkDir], [os.ReadFile] and [json.Unmarshal] hand to the
    two callbacks of [LoadWorldData].  [WalkDir] first calls [os.Lstat] on
    the root.  When that fails it calls the callback once, with a [nil]
    [DirEntry] and the error.  Otherwise it calls the callback for the root
    and for everything below it, in lexical order; a directory that cannot
    be read is handed to the callback a second time, with the error, and
    the walk goes on with what was read of it.  Neither callback looks at
    the error it is passed, so what matters of a root that [os.Lstat]
    accepts is the sequence of calls made with a [DirEntry], each with what
    reading and parsing its file gives. *)

Inductive FileRead (A : Type) : Type :=
| ReadFailed (err : error)
| ParseFailed (err : error)
| Parsed (a : A).
Arguments ReadFailed {A} err.
Arguments ParseFailed {A} err.
Arguments Parsed {A} a.

Record DirEntry (A : Type) : Type := mkEntry {
  d_Name : string;
  d_IsDir : bool;
  d_file : FileRead A;
}.
Arguments mkEntry {A}.
Arguments d_Name {A}.
Arguments d_IsDir {A}.
Arguments d_file {A}.

Inductive Dir (A : Type) : Type :=
| Lstat_ok (path : string) (entries : list (DirEntry A))
| Lstat_failed (path : string) (err : error).
Arguments Lstat_ok {A} path entries.
Arguments Lstat_failed {A} path err.

Definition dir_path {A} (root : Dir A) : string :=
  match root with
  | Lstat_ok path _ => path
  | Lstat_failed path _ => path
  end.

(** The entries the walk hands to the callback; none under a root that
    [os.Lstat] refuses. *)
Definition dir_entries {A} (root : Dir A) : list (DirEntry A) :=
  match root with
  | Lstat_ok _ entries => entries
  | Lstat_failed _ _ => []
  end.

Definition dir_lstat_err {A} (root : Dir A) : option error :=
  match root with
  | Lstat_ok _ _ => None
  | Lstat_failed _ err => Some err
  end.

(** How a call ends: it returns, or it panics.  In [LoadWorldData] the
    panic is that of a method call on a [nil] [DirEntry]; nothing in this
    code recovers from a panic. *)
Inductive completion (A : Type) : Type :=
| Returns (a : A)
| Panics.
Arguments Returns {A} a.
Arguments Panics {A}.

(** [filepath.WalkDir(root, fn)], with the state that [fn] works on passed
    along.  The callback gets [None] for a [nil] [DirEntry].  The walk stops
    at the first call that does not return [nil] and ends as that call
    ended; [fs.SkipDir] and [fs.SkipAll], which no callback of this code
    returns, are left out. *)
Fixpoint walkDir {A S : Type}
    (fn : S → option (DirEntry A) → S * completion (option error))
    (entries : list (DirEntry A)) (st : S) : S * completion (option error) :=
  match entries with
  | [] => (st, Returns None)
  | d :: rest =>
      match fn st (Some d) with
      | (st, Returns None) => walkDir fn rest st
      | stopped => stopped
      end
  end.

Definition WalkDir {A S : Type} (root : Dir A)
    (fn : S → option (DirEntry A) → S * completion (option error))
    (st : S) : S * completion (option error) :=
  match root with
  | Lstat_failed _ _ => fn st None
  | Lstat_ok _ entries => walkDir fn entries st
  end.

(** The guard of both callbacks:
    [!d.IsDir() && strings.HasSuffix(strings.ToLower(d.Name()), ".json")]. *)
Definition is_json_file {A} (d : DirEntry A) : bool :=
  negb (d_IsDir d) && Go.HasSuffix (Go.ToLower (d_Name d)) ".json".

(** [strings.TrimSuffix(d.Name(), filepath.Ext(d.Name()))]. *)
Definition id_of_filename (name : string) : string :=
  Go.TrimSuffix name (Go.Ext name).

(** What the callback of the walk over the theme directory does with an
    entry; the state is [ws.themes] and [loadErrors].  Every path through it
    ends in [return nil]. *)
Definition load_theme_entry
    (st : gmap string ThemeDefinition.t * list error)
    (d : DirEntry ThemeDefinition.t)
  : gmap string ThemeDefinition.t * list error :=
  let '(ths, loadErrors) := st in
  if is_json_file d then
    match d_file d with
    | ReadFailed err =>
        (ths, loadErrors ++
           ["failed to read theme file " +:+ d_Name d +:+ ": " +:+ err])
    | ParseFailed err =>
        (ths, loadErrors ++
           ["failed to parse theme JSON " +:+ d_Name d +:+ ": " +:+ err])
    | Parsed theme0 =>
        let theme :=
          if decide (ThemeDefinition.ID theme0 = "")
          then ThemeDefinition.with_ID (id_of_filename (d_Name d)) theme0
          else theme0 in
        match ths !! ThemeDefinition.ID theme with
        | Some _ =>
            (ths, loadErrors ++
               ["duplicate theme ID '" +:+ ThemeDefinition.ID theme +:+
                "' found (from file " +:+ d_Name d +:+ ")"])
        | None => (<[ThemeDefinition.ID theme := theme]> ths, loadErrors)
        end
    end
  else st.

(** What the callback of the walk over the location directory does with an
    entry; the state is [ws.locations] and [loadErrors], and [ws.themes] is
    read.  Every path through it ends in [return nil]. *)
Definition load_location_entry (ths : gmap string ThemeDefinition.t)
    (st : gmap string LocationNode.t * list error)
    (d : DirEntry LocationNode.t)
  : gmap string LocationNode.t * list error :=
  let '(locs, loadErrors) := st in
  if is_json_file d then
    match d_file d with
    | ReadFailed err =>
        (locs, loadErrors ++
           ["failed to read location file " +:+ d_Name d +:+ ": " +:+ err])
    | ParseFailed err =>
        (locs, loadErrors ++
           ["failed to parse location JSON " +:+ d_Name d +:+ ": " +:+ err])
    | Parsed loc0 =>
        let loc :=
          if decide (LocationNode.ID loc0 = "")
          then LocationNode.with_ID (id_of_filename (d_Name d)) loc0
          else loc0 in
        match locs !! LocationNode.ID loc with
        | Some _ =>
            (locs, loadErrors ++
               ["duplicate location ID '" +:+ LocationNode.ID loc +:+
                "' found (from file " +:+ d_Name d +:+ ")"])
        | None =>
            if decide (LocationNode.ThemeID loc ≠ "") then
              match ths !! LocationNode.ThemeID loc with
              | None =>
                  (locs, loadErrors ++
                     ["location '" +:+ LocationNode.Name loc +:+ "' (" +:+
                      LocationNode.ID loc +:+
                      ") references non-existent theme ID '" +:+
                      LocationNode.ThemeID loc +:+ "'"])
              | Some _ => (<[LocationNode.ID loc := loc]> locs, loadErrors)
              end
            else (<[LocationNode.ID loc := loc]> locs, loadErrors)
        end
    end
  else st.

(** The two callbacks.  Each starts with [d.IsDir()], before it looks at
    anything else: with a [nil] entry that call panics. *)
Definition theme_callback
    (st : gmap string ThemeDefinition.t * list error)
    (d : option (DirEntry ThemeDefinition.t))
  : (gmap string ThemeDefinition.t * list error) * completion (option error) :=
  match d with
  | None => (st, Panics)
  | Some d => (load_theme_entry st d, Returns None)
  end.

Definition location_callback (ths : gmap string ThemeDefinition.t)
    (st : gmap string LocationNode.t * list error)
    (d : option (DirEntry LocationNode.t))
  : (gmap string LocationNode.t * list error) * completion (option error) :=
  match d with
  | None => (st, Panics)
  | Some d => (load_location_entry ths st d, Returns None)
  end.

(** The error added when [filepath.WalkDir] returns one. *)
Definition walk_error (what path : string) (walk_err : option error)
  : list error :=
  match walk_err with
  | Some err =>
      ["error walking " +:+ what +:+ " directory " +:+ path +:+ ": " +:+ err]
  | None => []
  end.

(** The inner loop of the post-load validation, over one location's
    adjacency ids. *)
Definition check_adjacency (locs : gmap string LocationNode.t)
    (loadErrors : list error) (loc : LocationNode.t) : list error :=
  fold_left
    (fun errs adjID =>
       match locs !! adjID with
       | Some _ => errs
       | None =>
           errs ++
             ["location '" +:+ LocationNode.Name loc +:+ "' (" +:+
              LocationNode.ID loc +:+
              ") references non-existent adjacent location ID '" +:+
              adjID +:+ "'"]
       end)
    (LocationNode.AdjacentIDs loc) loadErrors.

(** [LoadWorldData].  Both maps are replaced by fresh ones on entry, filled
    by the two walks and left as filled; the returned error only says
    whether [loadErrors] is empty.  A panic inside a walk leaves the maps as
    they are at that moment (the deferred unlock changes nothing else).  The
    order in which [for _, loc := range ws.locations] meets the locations
    only orders the messages inside [loadErrors]. *)
Definition LoadWorldData (ws : InMemoryWorldSystem)
    (locationDir : Dir LocationNode.t) (themeDir : Dir ThemeDefinition.t)
  : InMemoryWorldSystem * completion (option error) :=
  let ws0 := mkWorld ∅ ∅ in
  match WalkDir themeDir theme_callback (themes ws0, []) with
  | ((ths, _), Panics) => (mkWorld (locations ws0) ths, Panics)
  | ((ths, loadErrors), Returns err) =>
      let loadErrors :=
        loadErrors ++ walk_error "theme" (dir_path themeDir) err in
      match WalkDir locationDir (location_callback ths)
              (locations ws0, loadErrors) with
      | ((locs, _), Panics) => (mkWorld locs ths, Panics)
      | ((locs, loadErrors), Returns err) =>
          let loadErrors :=
            loadErrors ++ walk_error "location" (dir_path locationDir) err in
          let loadErrors :=
            fold_left (check_adjacency locs)
              (snd <$> (map_to_list locs : list (string * LocationNode.t)))
              loadErrors in
          (mkWorld locs ths,
           Returns (if decide (0 < length loadErrors)
                    then Some "errors during world data loading" else None))
      end
  end.

(** *** The interface [world.WorldSystem]

    The narrative package reaches the world only through this interface.  A
    method takes the implementation's state and returns it, so that an
    implementation which records its calls is an instance too.  Only the
    three methods the narrative package calls are listed.  The pointers of
    [GetAdjacentLocations] may be [nil], which the engine checks. *)

Class WorldSystem (W : Type) : Type := {
  WorldSystem_GetLocation : W → string → W * result LocationNode.t;
  WorldSystem_IsAdjacent : W → string → string → W * result bool;
  WorldSystem_GetAdjacentLocations :
    W → string → W * result (list (option LocationNode.t));
}.

(** [InMemoryWorldSystem] implements it; its queries only take the read
    lock and leave the maps as they are. *)
#[export] Instance InMemoryWorldSystem_WorldSystem
  : WorldSystem InMemoryWorldSystem := {
  WorldSystem_GetLocation ws id := (ws, GetLocation ws id);
  WorldSystem_IsAdjacent ws cur tgt := (ws, IsAdjacent ws cur tgt);
  WorldSystem_GetAdjacentLocations ws id :=
    (ws, match GetAdjacentLocations ws id with
         | Ok nodes => Ok (Some <$> nodes)
         | Err err => Err err
         end);
}.

(** ** Package session *)

Module GameSession.
Record t : Type := mk {
  ID : string;
  Player : Character.t;
  CurrentLocationID : string;
  CreatedAt : Z;
  LastActive : Z;
  RecentActions : list string;
}.

Definition with_CurrentLocationID (v : string) (s : t) : t :=
  mk (ID s) (Player s) v (CreatedAt s) (LastActive s) (RecentActions s).
Definition with_LastActive (v : Z) (s : t) : t :=
  mk (ID s) (Player s) (CurrentLocationID s) (CreatedAt s) v (RecentActions s).
Definition with_RecentActions (v : list string) (s : t) : t :=
  mk (ID s) (Player s) (CurrentLocationID s) (CreatedAt s) (LastActive s) v.
End GameSession.

Record InMemorySessionManager : Type := mkManager {
  sessions : gmap string GameSession.t;
}.

Definition NewInMemorySessionManager : InMemorySessionManager := mkManager ∅.

(** A write through a session pointer held under [key]. *)
Definition store_session (key : string) (sess : GameSession.t)
    (sm : InMemorySessionManager) : InMemorySessionManager :=
  mkManager (<[key := sess]> (sessions sm)).

(** [CreateNewSession]; [player] is [None] for a [nil] pointer.  The clock is
    read three times: for the identifier, [CreatedAt] and [LastActive]. *)
Definition CreateNewSession (sm : InMemorySessionManager) (clock : Clock)
    (player : option Character.t) (startLocationID : string)
  : result GameSession.t * InMemorySessionManager * Clock :=
  match player with
  | None => (Err "cannot create session with nil player", sm, clock)
  | Some p =>
      if decide (Character.ID p = "") then
        (Err "player must have an ID to create a session", sm, clock)
      else
        let '(unixNano, clock) := time_Now clock in
        let newID :=
          "session_" +:+ Character.ID p +:+ "_" +:+ Go.fmt_d unixNano in
        match sessions sm !! newID with
        | Some _ =>
            (Err "session ID collision detected (highly unlikely)", sm, clock)
        | None =>
            let '(createdAt, clock) := time_Now clock in
            let '(lastActive, clock) := time_Now clock in
            let sess :=
              GameSession.mk newID p startLocationID createdAt lastActive [] in
            (Ok sess, store_session newID sess sm, clock)
        end
  end.

(** [GetSession]: the stored object gets a new [LastActive] before the
    pointer to it is returned. *)
Definition GetSession (sm : InMemorySessionManager) (clock : Clock)
    (sessionID : string)
  : result GameSession.t * InMemorySessionManager * Clock :=
  match sessions sm !! sessionID with
  | None => (Err ("session not found: " +:+ sessionID), sm, clock)
  | Some sess =>
      let '(now, clock) := time_Now clock in
      let sess := GameSession.with_LastActive now sess in
      (Ok sess, store_session sessionID sess sm, clock)
  end.

(** [UpdateSession]: the map is only read; [LastActive] is set through the
    pointer passed in, so the new pointee is returned to the holder of the
    pointer. *)
Definition UpdateSession (sm : InMemorySessionManager) (clock : Clock)
    (session : option GameSession.t)
  : option error * option GameSession.t * Clock :=
  match session with
  | None => (Some "cannot update nil session", None, clock)
  | Some s =>
      match sessions sm !! GameSession.ID s with
      | None =>
          (Some ("session " +:+ GameSession.ID s +:+
                 " not managed by this manager"), Some s, clock)
      | Some _ =>
          let '(now, clock) := time_Now clock in
          (None, Some (GameSession.with_LastActive now s), clock)
      end
  end.

Definition maxRecentActions : nat := 5.

(** [AddRecentAction]: append, then keep the last [maxRecentActions]. *)
Definition AddRecentAction (sess : GameSession.t) (actionSummary : string)
  : GameSession.t :=
  let appended := GameSession.RecentActions sess ++ [actionSummary] in
  if decide (maxRecentActions < length appended) then
    GameSession.with_RecentActions
      (drop (length appended - maxRecentActions) appended) sess
  else GameSession.with_RecentActions appended sess.

(** ** Package llm *)

Module LLMAction.
Record t : Type := mk {
  Type_ : string;
  Data : gmap string any;
}.
End LLMAction.

Module LLMResponse.
Record t : Type := mk {
  Narrative : string;
  Suggestions : list string;
  Actions : list LLMAction.t;
}.
End LLMResponse.

Module PlayerContextData.
Record t : Type := mk {
  Name : string;
  Class : string;
  Origin : string;
  Level : Z;
}.
End PlayerContextData.

Module LocationContextData.
Record t : Type := mk {
  CurrentLocationName : string;
  CurrentLocationDesc : string;
  AdjacentLocationIDs : list string;
  AdjacentLocationNames : list string;
  CurrentThemeID : string;
}.
End LocationContextData.

(** [TimeElapsed] holds the rounded duration in nanoseconds; its rendering
    by [Duration.String] is left to the reader of the prompt. *)
Module SessionContextData.
Record t : Type := mk {
  TimeElapsed : Z;
  RecentActions : list string;
}.
End SessionContextData.

Module PromptData.
Record t : Type := mk {
  PlayerContext : PlayerContextData.t;
  LocationContext : LocationContextData.t;
  SessionContext : SessionContextData.t;
  PlayerInput : string;
}.

Definition with_PlayerInput (v : string) (p : t) : t :=
  mk (PlayerContext p) (LocationContext p) (SessionContext p) v.
End PromptData.

(** The interface [llm.Adapter]: what [GenerateResponse] answers to a system
    prompt and prompt data during the turn at hand. *)
Definition Adapter : Type := string → PromptData.t → result LLMResponse.t.

(** ** Package narrative *)

Definition UpdateLocation : string := "updateLocation".
Definition AddItem : string := "addItem".
Definition RemoveItem : string := "removeItem".
Definition ApplyEffect : string := "applyEffect".

(** An error of [ExecuteActions].  The error of a failed action is
    [fmt.Errorf("failed to execute action (type: %s, data: %v): %w", ...)];
    it is kept as the three values it is formatted from. *)
Inductive exec_error : Type :=
| NilSessionError (msg : error)
| ActionError (action_type : string) (action_data : gmap string any)
    (cause : error).

Section Executor.
Context {W : Type} `{!WorldSystem W}.

(** [handleUpdateLocation]: the state of the world system, the session as
    the handler leaves it, and the error returned. *)
Definition handleUpdateLocation (w : W) (action : LLMAction.t)
    (currentSession : GameSession.t) : W * GameSession.t * option error :=
  match LLMAction.Data action !! "locationId" with
  | None =>
      (w, currentSession,
       Some "action data missing required field 'locationId'")
  | Some (AnyString targetLocationID) =>
      if decide (targetLocationID = "") then
        (w, currentSession,
         Some "action data field 'locationId' cannot be empty")
      else
        let currentLocationID :=
          GameSession.CurrentLocationID currentSession in
        if decide (currentLocationID = targetLocationID) then
          (w, currentSession, None)
        else
          match WorldSystem_IsAdjacent w currentLocationID targetLocationID with
          | (w, Err err) =>
              if Go.Contains err "not found" then
                (w, currentSession,
                 Some ("validation failed - location does not exist: " +:+ err))
              else
                (w, currentSession,
                 Some ("error checking adjacency via WorldSystem: " +:+ err))
          | (w, Ok isAdj) =>
              if negb isAdj then
                (w, currentSession,
                 Some ("validation failed - target location '" +:+
                       targetLocationID +:+
                       "' is not adjacent to current location '" +:+
                       currentLocationID +:+ "'"))
              else
                (w,
                 GameSession.with_CurrentLocationID targetLocationID
                   currentSession,
                 None)
          end
  | Some _ =>
      (w, currentSession,
       Some "action data field 'locationId' must be a string")
  end.

(** The [switch] of [ExecuteActions]. *)
Definition dispatch_action (w : W) (action : LLMAction.t)
    (currentSession : GameSession.t) : W * GameSession.t * option error :=
  let actionType := LLMAction.Type_ action in
  if decide (actionType = UpdateLocation) then
    handleUpdateLocation w action currentSession
  else if decide (actionType = AddItem) then
    (w, currentSession,
     Some ("action type '" +:+ actionType +:+
           "' requires InventorySystem (not implemented yet)"))
  else if decide (actionType = RemoveItem) then
    (w, currentSession,
     Some ("action type '" +:+ actionType +:+
           "' requires InventorySystem (not implemented yet)"))
  else if decide (actionType = ApplyEffect) then
    (w, currentSession,
     Some ("action type '" +:+ actionType +:+
           "' requires Character/EffectSystem (not implemented yet)"))
  else
    (w, currentSession,
     Some ("unknown or unsupported action type received from LLM: '" +:+
           actionType +:+ "'")).

(** The body of the loop of [ExecuteActions]; the loop state is the world
    system, the session behind [currentSession] and [executionErrors]. *)
Definition execute_step (st : W * GameSession.t * list exec_error)
    (action : LLMAction.t) : W * GameSession.t * list exec_error :=
  let '(w, currentSession, executionErrors) := st in
  match dispatch_action w action currentSession with
  | (w, currentSession, Some err) =>
      (w, currentSession,
       executionErrors ++
         [ActionError (LLMAction.Type_ action) (LLMAction.Data action) err])
  | (w, currentSession, None) =>
      (w,
       AddRecentAction currentSession
         ("System executed: " +:+ LLMAction.Type_ action),
       executionErrors)
  end.

(** [ExecuteActions]; [currentSession] is [None] for a [nil] pointer. *)
Definition ExecuteActions (w : W) (actions : list LLMAction.t)
    (currentSession : option GameSession.t)
  : W * option GameSession.t * list exec_error :=
  match currentSession with
  | None =>
      (w, None, [NilSessionError "cannot execute actions on a nil session"])
  | Some sess =>
      let '(w, sess, executionErrors) :=
        fold_left execute_step actions (w, sess, []) in
      (w, Some sess, executionErrors)
  end.

End Executor.

(** [time.Duration] is an [int64] of nanoseconds. *)
Definition minDuration : Z := - 2 ^ 63.
Definition maxDuration : Z := 2 ^ 63 - 1.
Definition Second : Z := 1000000000.

(** [time.Since(t)]: the difference to now, saturated to a [Duration]. *)
Definition time_Since (clock : Clock) (t : Z) : Z * Clock :=
  let '(now, clock) := time_Now clock in
  (Z.max minDuration (Z.min maxDuration (now - t)), clock).

(** [Duration.Round(m)]: to the nearest multiple of [m], halves away from
    zero, saturated. *)
Definition Duration_Round (d m : Z) : Z :=
  if decide (m ≤ 0)%Z then d
  else
    let r := Z.rem d m in
    if decide (d < 0)%Z then
      let r := (- r)%Z in
      if decide (r + r < m)%Z then (d + r)%Z
      else
        let d1 := (d - m + r)%Z in
        if decide (minDuration ≤ d1)%Z then d1 else minDuration
    else
      if decide (r + r < m)%Z then (d - r)%Z
      else
        let d1 := (d + m - r)%Z in
        if decide (d1 ≤ maxDuration)%Z then d1 else maxDuration.

Section Engine.
Context {W : Type} `{!WorldSystem W}.

(** The two slices [buildPromptContext] fills from the adjacent nodes. *)
Fixpoint adjacent_ids (nodes : list (option LocationNode.t)) : list string :=
  match nodes with
  | [] => []
  | Some node :: rest => LocationNode.ID node :: adjacent_ids rest
  | None :: rest => adjacent_ids rest
  end.

Fixpoint adjacent_names (nodes : list (option LocationNode.t)) : list string :=
  match nodes with
  | [] => []
  | Some node :: rest =>
      (LocationNode.ID node +:+ " (" +:+ LocationNode.Name node +:+ ")")
        :: adjacent_names rest
  | None :: rest => adjacent_names rest
  end.

(** [buildPromptContext]: reads the session, the world system and the
    clock. *)
Definition buildPromptContext (w : W) (clock : Clock)
    (currentSession : GameSession.t) : W * Clock * result PromptData.t :=
  let player := GameSession.Player currentSession in
  let playerCtx :=
    PlayerContextData.mk (Character.Name player) (Character.Class player)
      (Character.Origin player) (Character.Level player) in
  let cur := GameSession.CurrentLocationID currentSession in
  match WorldSystem_GetLocation w cur with
  | (w, Err err) =>
      (w, clock,
       Err ("could not get current location details for ID '" +:+ cur +:+
            "': " +:+ err))
  | (w, Ok currentLoc) =>
      let '(w, adjacentLocNodes) :=
        match WorldSystem_GetAdjacentLocations w cur with
        | (w, Err _) => (w, [])
        | (w, Ok nodes) => (w, nodes)
        end in
      let locCtx :=
        LocationContextData.mk
          (LocationNode.ID currentLoc +:+ " (" +:+
           LocationNode.Name currentLoc +:+ ")")
          (LocationNode.Description currentLoc)
          (adjacent_ids adjacentLocNodes)
          (adjacent_names adjacentLocNodes)
          (LocationNode.ThemeID currentLoc) in
      let '(elapsed, clock) :=
        time_Since clock (GameSession.CreatedAt currentSession) in
      let sessionCtx :=
        SessionContextData.mk (Duration_Round elapsed Second)
          (GameSession.RecentActions currentSession) in
      (w, clock, Ok (PromptData.mk playerCtx locCtx sessionCtx ""))
  end.

(** What one turn runs on: the world system shared by the engine and its
    executor, the session manager and the clock. *)
Record System : Type := mkSystem {
  sys_world : W;
  sys_manager : InMemorySessionManager;
  sys_clock : Clock;
}.

(** The annotation put before the narrative when actions failed. *)
Definition errorNarrative (n : nat) : string :=
  "[System Error processing actions: " +:+ Go.fmt_d (Z.of_nat n) +:+
  " error(s) occurred. The story continues...]" +:+
  String "010" (String "010" "").

(** [ProcessPlayerInput] up to and including the call of the adapter
    (lines 47-70): fetch the session, log the player's input, build the
    prompt, call [GenerateResponse].  [currentSession] points into the
    manager's map under [sessionID]: each change made through it is
    written back under that key.  On success the session behind
    [currentSession] and the adapter's response go on to the second
    half. *)
Definition turn_before_execution (adapter : Adapter) (systemPrompt : string)
    (st : System) (sessionID playerInput : string)
  : result (GameSession.t * LLMResponse.t) * System :=
  match GetSession (sys_manager st) (sys_clock st) sessionID with
  | (Err err, sm, clock) =>
      (Err ("failed to retrieve session '" +:+ sessionID +:+ "': " +:+ err),
       mkSystem (sys_world st) sm clock)
  | (Ok currentSession, sm, clock) =>
      let currentSession :=
        AddRecentAction currentSession ("Player: " +:+ playerInput) in
      let sm := store_session sessionID currentSession sm in
      match buildPromptContext (sys_world st) clock currentSession with
      | (w, clock, Err err) =>
          (Err ("failed to build prompt context for session '" +:+
                sessionID +:+ "': " +:+ err),
           mkSystem w sm clock)
      | (w, clock, Ok promptData) =>
          let promptData := PromptData.with_PlayerInput playerInput promptData in
          match adapter systemPrompt promptData with
          | Err err =>
              (Err ("LLM adapter failed for session '" +:+ sessionID +:+
                    "': " +:+ err),
               mkSystem w sm clock)
          | Ok llmResponse =>
              (Ok (currentSession, llmResponse), mkSystem w sm clock)
          end
      end
  end.

(** The rest of [ProcessPlayerInput] (lines 74-106): execute the actions,
    annotate the narrative, update the session, return the response. *)
Definition turn_execution (st : System) (sessionID : string)
    (currentSession : GameSession.t) (llmResponse : LLMResponse.t)
  : LLMResponse.t * System :=
  let '(w, currentSession, finalResponse) :=
    if decide (0 < length (LLMResponse.Actions llmResponse)) then
      match ExecuteActions (sys_world st) (LLMResponse.Actions llmResponse)
              (Some currentSession) with
      | (w, executed, executionErrors) =>
          (w, default currentSession executed,
           if decide (0 < length executionErrors) then
             LLMResponse.mk
               (errorNarrative (length executionErrors) +:+
                LLMResponse.Narrative llmResponse)
               (LLMResponse.Suggestions llmResponse)
               (LLMResponse.Actions llmResponse)
           else llmResponse)
      end
    else (sys_world st, currentSession, llmResponse) in
  let sm := store_session sessionID currentSession (sys_manager st) in
  let '(_, updated, clock) :=
    UpdateSession sm (sys_clock st) (Some currentSession) in
  let sm := store_session sessionID (default currentSession updated) sm in
  (finalResponse, mkSystem w sm clock).

(** [ProcessPlayerInput], with the engine's [ActionExecutor] the
    [SimpleActionExecutor] over the same world system and its
    [SessionManager] the [InMemorySessionManager], as [main] wires them. *)
Definition ProcessPlayerInput (adapter : Adapter) (systemPrompt : string)
    (st : System) (sessionID playerInput : string)
  : result LLMResponse.t * System :=
  match turn_before_execution adapter systemPrompt st sessionID playerInput with
  | (Err err, st) => (Err err, st)
  | (Ok (currentSession, llmResponse), st) =>
      let '(finalResponse, st) :=
        turn_execution st sessionID currentSession llmResponse in
      (Ok finalResponse, st)
  end.

End Engine.

(** ** Vocabulary of the statements *)

(** The last [n] elements of a list, in order. *)
Definition keep_last {A} (n : nat) (l : list A) : list A :=
  drop (length l - n) l.

(** The session as the first half of a turn leaves it: fetched at time
    [now], then the player's input logged. *)
Definition logged_session (now : Z) (sess : GameSession.t)
    (playerInput : string) : GameSession.t :=
  AddRecentAction (GameSession.with_LastActive now sess)
    ("Player: " +:+ playerInput).

(** The outcome slots of a batch, one per action and in input order: [None]
    for an action that succeeded, its error for one that failed, each action
    being run on the session left by the actions before it. *)
Fixpoint outcome_slots {W : Type} `{!WorldSystem W} (w : W)
    (actions : list LLMAction.t) (sess : GameSession.t)
  : list (option exec_error) :=
  match actions with
  | [] => []
  | action :: rest =>
      match dispatch_action w action sess with
      | (w, sess, Some err) =>
          Some (ActionError (LLMAction.Type_ action) (LLMAction.Data action) err)
            :: outcome_slots w rest sess
      | (w, sess, None) =>
          None :: outcome_slots w rest
                    (AddRecentAction sess
                       ("System executed: " +:+ LLMAction.Type_ action))
      end
  end.

(** A world system that counts the calls made to it, over the in-memory
    one. *)
Record CountingWorld : Type := mkCounting {
  cw_calls : nat;
  cw_world : InMemoryWorldSystem;
}.

#[export] Instance CountingWorld_WorldSystem : WorldSystem CountingWorld := {
  WorldSystem_GetLocation cw id :=
    (mkCounting (S (cw_calls cw)) (cw_world cw), GetLocation (cw_world cw) id);
  WorldSystem_IsAdjacent cw cur tgt :=
    (mkCounting (S (cw_calls cw)) (cw_world cw), IsAdjacent (cw_world cw) cur tgt);
  WorldSystem_GetAdjacentLocations cw id :=
    (mkCounting (S (cw_calls cw)) (cw_world cw),
     match GetAdjacentLocations (cw_world cw) id with
     | Ok nodes => Ok (Some <$> nodes)
     | Err err => Err err
     end);
}.

(** ** Sample data: gate, village and tower *)

Definition ex_location (id : string) (adjacent : list string) (theme : string)
  : LocationNode.t :=
  LocationNode.mk id id "" adjacent [] "" theme ∅.

(** gate leads to village and tower, village leads back to gate, tower
    leads nowhere. *)
Definition ex_world : InMemoryWorldSystem :=
  mkWorld
    (<["gate" := ex_location "gate" ["village"; "tower"] ""]>
       (<["village" := ex_location "village" ["gate"] ""]>
          (<["tower" := ex_location "tower" [] ""]> ∅)))
    ∅.

Definition ex_player : Character.t := NewCharacter "hero" "Ash" "" "".

Definition ex_session_at (locationID : string) : GameSession.t :=
  GameSession.mk "session_hero_42" ex_player locationID 0 0 [].

Definition ex_move (target : string) : LLMAction.t :=
  LLMAction.mk UpdateLocation (<["locationId" := AnyString target]> ∅).

Definition ex_clock : Clock := mkClock (fun _ => 42%Z) 0.

Definition ex_system : System :=
  mkSystem ex_world
    (mkManager (<["session_hero_42" := ex_session_at "gate"]> ∅)) ex_clock.

(** A batch of three: an unsupported action, a move to the village, and a
    move to the tower, which is adjacent to the gate but not to the
    village. *)
Definition ex_batch : list LLMAction.t :=
  [LLMAction.mk AddItem ∅; ex_move "village"; ex_move "tower"].

(** An adapter whose call fails, as on a transport error. *)
Definition ex_failing_adapter : Adapter := fun _ _ => Err "transport error".

(** An adapter that answers with the sample batch. *)
Definition ex_batch_adapter : Adapter :=
  fun _ _ => Ok (LLMResponse.mk "You walk on." ["Look around"] ex_batch).

(** *** What a load contains *)

(** The record a directory entry contributes, under the identifier it is
    loaded with: the one parsed from a JSON file, its empty [id] replaced
    by the file name without extension. *)
Definition entry_record {A} (get_id : A → string) (set_id : string → A → A)
    (d : DirEntry A) : option A :=
  if is_json_file d then
    match d_file d with
    | Parsed a =>
        Some (if decide (get_id a = "")
              then set_id (id_of_filename (d_Name d)) a else a)
    | _ => None
    end
  else None.

Definition parsed_themes (themeDir : Dir ThemeDefinition.t)
  : list ThemeDefinition.t :=
  omap (entry_record ThemeDefinition.ID ThemeDefinition.with_ID)
    (dir_entries themeDir).

Definition parsed_locations (locationDir : Dir LocationNode.t)
  : list LocationNode.t :=
  omap (entry_record LocationNode.ID LocationNode.with_ID)
    (dir_entries locationDir).

(** The check a location passes before it is stored, against the themes
    stored so far. *)
Definition location_theme_ok (ths : gmap string ThemeDefinition.t)
    (loc : LocationNode.t) : bool :=
  bool_decide (LocationNode.ThemeID loc = "" ∨
               is_Some (ths !! LocationNode.ThemeID loc)).

(** The theme reference of a location is empty or names a theme of the
    load. *)
Definition theme_resolves (themeDir : Dir ThemeDefinition.t)
    (loc : LocationNode.t) : Prop :=
  LocationNode.ThemeID loc = "" ∨
  LocationNode.ThemeID loc ∈ ThemeDefinition.ID <$> parsed_themes themeDir.

Definition dangling_theme_reference (locationDir : Dir LocationNode.t)
    (themeDir : Dir ThemeDefinition.t) : Prop :=
  ∃ loc, loc ∈ parsed_locations locationDir ∧ ¬ theme_resolves themeDir loc.

Definition dangling_adjacency_reference (locationDir : Dir LocationNode.t)
  : Prop :=
  ∃ loc adjID,
    loc ∈ parsed_locations locationDir ∧
    adjID ∈ LocationNode.AdjacentIDs loc ∧
    adjID ∉ LocationNode.ID <$> parsed_locations locationDir.

Definition duplicate_identifier (locationDir : Dir LocationNode.t)
    (themeDir : Dir ThemeDefinition.t) : Prop :=
  ¬ NoDup (ThemeDefinition.ID <$> parsed_themes themeDir) ∨
  ¬ NoDup (LocationNode.ID <$> parsed_locations locationDir).



(** A load in which every reference resolves: two themes, and the three
    locations of the sample world, one of them named by its file. *)
Definition ex_good_theme_dir : Dir ThemeDefinition.t :=
  Lstat_ok "data/themes"
    [mkEntry "stone.json" false (Parsed (ThemeDefinition.mk "stone" "Stone"));
     mkEntry "README.md" false (ReadFailed "not read");
     mkEntry "moss.json" false (Parsed (ThemeDefinition.mk "" "Moss"))].

Definition ex_good_location_dir : Dir LocationNode.t :=
  Lstat_ok "data/locations"
    [mkEntry "gate.json" false
       (Parsed (ex_location "gate" ["Village"; "tower"] "stone"));
     mkEntry "sub" true (ReadFailed "is a directory");
     mkEntry "Village.JSON" false
       (Parsed (LocationNode.mk "" "Village" "" ["gate"] [] "" "moss" ∅));
     mkEntry "tower.json" false (Parsed (ex_location "tower" [] ""))].

(** A load whose theme directory holds two files with one identifier, and
    whose location directory does not exist. *)
Definition ex_twin_theme_dir : Dir ThemeDefinition.t :=
  Lstat_ok "data/themes"
    [mkEntry "stone.json" false (Parsed (ThemeDefinition.mk "stone" "Stone"));
     mkEntry "rock.json" false (Parsed (ThemeDefinition.mk "stone" "Rock"))].

Definition ex_missing_location_dir : Dir LocationNode.t :=
  Lstat_failed "data/locations"
    "lstat data/locations: no such file or directory".

(** ** Further functions and vocabulary *)

(** [GetAllLocationIDs] and [GetAllThemeIDs] collect the keys while ranging
    over the map.  Go leaves the order of that iteration unspecified;
    [map_to_list] stands for it, and no statement depends on the order. *)
Definition GetAllLocationIDs (ws : InMemoryWorldSystem) : list string :=
  (map_to_list (locations ws)).*1.

Definition GetAllThemeIDs (ws : InMemoryWorldSystem) : list string :=
  (map_to_list (themes ws)).*1.

(** A JSON file of the directory that cannot be read or parsed. *)
Definition entry_fails {A} (d : DirEntry A) : Prop :=
  is_json_file d = true ∧
  ∃ err, d_file d = ReadFailed err ∨ d_file d = ParseFailed err.

(** A load in which nothing goes wrong: [os.Lstat] accepts both roots, no
    JSON file fails to be read or parsed, and no reference or identifier is
    at fault. *)
Definition load_is_clean (locationDir : Dir LocationNode.t)
    (themeDir : Dir ThemeDefinition.t) : Prop :=
  dir_lstat_err themeDir = None ∧
  dir_lstat_err locationDir = None ∧
  (∀ d, d ∈ dir_entries themeDir → ¬ entry_fails d) ∧
  (∀ d, d ∈ dir_entries locationDir → ¬ entry_fails d) ∧
  ¬ dangling_theme_reference locationDir themeDir ∧
  ¬ dangling_adjacency_reference locationDir ∧
  ¬ duplicate_identifier locationDir themeDir.

(** Every location and theme is stored under its own identifier. *)
Definition keys_are_ids (ws : InMemoryWorldSystem) : Prop :=
  (∀ k loc, locations ws !! k = Some loc → LocationNode.ID loc = k) ∧
  (∀ k theme, themes ws !! k = Some theme → ThemeDefinition.ID theme = k).

(** Every stored location names no theme or a stored one. *)
Definition themes_resolve (ws : InMemoryWorldSystem) : Prop :=
  ∀ k loc, locations ws !! k = Some loc →
    LocationNode.ThemeID loc = "" ∨
    is_Some (themes ws !! LocationNode.ThemeID loc).

(** Every adjacency identifier of a stored location is stored. *)
Definition adjacency_closed (ws : InMemoryWorldSystem) : Prop :=
  ∀ k loc adjID, locations ws !! k = Some loc →
    adjID ∈ LocationNode.AdjacentIDs loc → is_Some (locations ws !! adjID).

(** [GetAllSessionIDs]: the keys of the session map, in the order of the
    map's iteration ([map_to_list] standing for Go's unspecified order). *)
Definition GetAllSessionIDs (sm : InMemorySessionManager) : list string :=
  (map_to_list (sessions sm)).*1.

(** Every session is stored under its own identifier. *)
Definition sessions_keyed_by_id (sm : InMemorySessionManager) : Prop :=
  ∀ k sess, sessions sm !! k = Some sess → GameSession.ID sess = k.

(** The sample system with a second session in its store, held by another
    player at the tower. *)
Definition ex_other_session : GameSession.t :=
  GameSession.mk "session_other_7" (NewCharacter "other" "Bryn" "" "")
    "tower" 7 7 ["Player: wait"].

Definition ex_system_two : System :=
  mkSystem ex_world
    (mkManager (<["session_other_7" := ex_other_session]>
                  (sessions (sys_manager ex_system))))
    ex_clock.

(** An adapter whose response carries no action. *)
Definition ex_quiet_adapter : Adapter :=
  fun _ _ => Ok (LLMResponse.mk "All is calm." ["Wait"] []).

(** An adapter that proposes the move to the village. *)
Definition ex_move_adapter : Adapter :=
  fun _ _ => Ok (LLMResponse.mk "You reach the village." [] [ex_move "village"]).

(** ** Package main *)

(** [createDefaultSession], over the in-memory world and session manager
    that [main] creates: nothing when a session exists or no location is
    loaded; otherwise a session for the default character at
    "oakhaven_gate", or at the first identifier [GetAllLocationIDs] returns
    when that location is not loaded.  The outcome of [CreateNewSession] is
    only logged. *)
Definition createDefaultSession (ws : InMemoryWorldSystem)
    (sm : InMemorySessionManager) (clock : Clock)
  : InMemorySessionManager * Clock :=
  if decide (0 < length (GetAllSessionIDs sm)) then (sm, clock)
  else
    let player :=
      NewCharacter "player_default" "Ash" "Wasteland-Born" "Courier" in
    let startLocationID := "oakhaven_gate" in
    if decide (0 < length (GetAllLocationIDs ws)) then
      let startLocationID :=
        match GetLocation ws startLocationID with
        | Err _ => default "" (head (GetAllLocationIDs ws))
        | Ok _ => startLocationID
        end in
      match CreateNewSession sm clock (Some player) startLocationID with
      | (_, sm, clock) => (sm, clock)
      end
    else (sm, clock).

(** ** Package llm: the Gemini adapter *)

Module GoStrings.

(** [strings.Join(elems, sep)]. *)
Fixpoint Join (elems : list string) (sep : string) : string :=
  match elems with
  | [] => ""
  | [x] => x
  | x :: rest => x +:+ sep +:+ Join rest sep
  end.

(** A line feed. *)
Definition nl : string := String "010" "".

End GoStrings.

Module geminiPart.
Record t : Type := mk { Text : string }.
End geminiPart.

Module geminiContent.
Record t : Type := mk { Parts : list geminiPart.t; Role : string }.
End geminiContent.

Module geminiSafetyRating.
Record t : Type := mk {
  Category : string;
  Probability : string;
  Blocked : bool;
}.
End geminiSafetyRating.

Module geminiCandidate.
Record t : Type := mk {
  Content : geminiContent.t;
  FinishReason : string;
  Index : Z;
  SafetyRatings : list geminiSafetyRating.t;
  TokenCount : Z;
}.
End geminiCandidate.

Module geminiPromptFeedback.
Record t : Type := mk {
  SafetyRatings : list geminiSafetyRating.t;
  BlockReason : string;
}.
End geminiPromptFeedback.

Module geminiUsageMetadata.
Record t : Type := mk {
  PromptTokenCount : Z;
  CandidatesTokenCount : Z;
  TotalTokenCount : Z;
}.
End geminiUsageMetadata.

Module geminiResponse.
Record t : Type := mk {
  Candidates : list geminiCandidate.t;
  PromptFeedback : option geminiPromptFeedback.t;
  UsageMetadata : option geminiUsageMetadata.t;
}.
End geminiResponse.

(** The error body the API sends with a status other than 200. *)
Module apiError.
Record t : Type := mk { Code : Z; Message : string; Status : string }.
End apiError.

Module httpResponse.
Record t : Type := mk {
  StatusCode : Z;
  Status : string;
  Body : result string;
}.
End httpResponse.

Module GeminiAdapter.
Record t : Type := mk { modelName : string; apiEndpoint : string }.
End GeminiAdapter.

Definition NewGeminiAdapter (modelName : string) : GeminiAdapter.t :=
  GeminiAdapter.mk
    (if decide (modelName = "") then "gemini-1.5-flash-latest" else modelName)
    "https://generativelanguage.googleapis.com/v1beta/models".

(** What [GenerateResponse] obtains from outside during one call: the
    environment variable, the encoding of the request whose text part is
    the prompt, the creation and the execution of the HTTP request for a
    URL and a body ([Body] being what [io.ReadAll] gives), the decodings
    of [encoding/json] into the three shapes the function asks for ([None]
    or [Err] when [json.Unmarshal] fails), and the rendering of safety
    ratings by the verb [%+v]. *)
Record GeminiEnv : Type := mkGeminiEnv {
  Getenv_GEMINI_API_KEY : string;
  json_Marshal_request : string → result string;
  http_NewRequest : string → string → option error;
  httpClient_Do : string → string → result httpResponse.t;
  json_Unmarshal_apiError : string → option apiError.t;
  json_Unmarshal_geminiResponse : string → result geminiResponse.t;
  json_Unmarshal_output : string → result LLMResponse.t;
  fmt_ratings : list geminiSafetyRating.t → string;
}.

(** The prompt that [GenerateResponse] builds (lines 179-195). *)
Definition finalPrompt (systemPrompt : string) (promptData : PromptData.t)
  : string :=
  let loc := PromptData.LocationContext promptData in
  let names := LocationContextData.AdjacentLocationNames loc in
  let recent :=
    SessionContextData.RecentActions (PromptData.SessionContext promptData) in
  let player := PromptData.PlayerContext promptData in
  (if decide (systemPrompt ≠ "") then
     systemPrompt +:+ GoStrings.nl +:+ GoStrings.nl +:+
     "Respond ONLY with a valid JSON object containing 'narrative' (string), 'suggestions' (array of strings, optional), and 'actions' (array of action objects, optional) fields." +:+
     " The 'narrative' should describe the current scene and outcome. Only include 'actions' if the player's input implies a specific game action like moving location." +:+
     GoStrings.nl +:+ GoStrings.nl +:+ "---" +:+ GoStrings.nl +:+ GoStrings.nl
   else "") +:+
  ("Current Location: " +:+ LocationContextData.CurrentLocationName loc +:+
   " (" +:+ LocationContextData.CurrentLocationDesc loc +:+ ")" +:+
   GoStrings.nl) +:+
  (if decide (0 < length names) then
     "Nearby: " +:+ GoStrings.Join names ", " +:+ GoStrings.nl
   else "") +:+
  (if decide (0 < length recent) then
     "Recent Events: " +:+ GoStrings.Join recent "; " +:+ GoStrings.nl
   else "") +:+
  (GoStrings.nl +:+ "Player (" +:+ PlayerContextData.Name player +:+ " - " +:+
   PlayerContextData.Class player +:+ "): " +:+
   PromptData.PlayerInput promptData).

(** The reading of a decoded API response (lines 279-304). *)
Definition read_geminiResponse (env : GeminiEnv)
    (apiResponse : geminiResponse.t) : result LLMResponse.t :=
  let blocked :=
    match geminiResponse.PromptFeedback apiResponse with
    | Some feedback =>
        if decide (geminiPromptFeedback.BlockReason feedback ≠ "")
        then Some feedback else None
    | None => None
    end in
  match blocked with
  | Some feedback =>
      Err ("prompt blocked by API: " +:+
           geminiPromptFeedback.BlockReason feedback +:+
           " (Safety Ratings: " +:+
           fmt_ratings env (geminiPromptFeedback.SafetyRatings feedback) +:+ ")")
  | None =>
      match geminiResponse.Candidates apiResponse with
      | [] => Err "gemini response missing expected content"
      | candidate :: _ =>
          match geminiContent.Parts (geminiCandidate.Content candidate) with
          | [] =>
              if decide (geminiCandidate.FinishReason candidate = "SAFETY") then
                Err ("content generation stopped due to safety settings: " +:+
                     fmt_ratings env (geminiCandidate.SafetyRatings candidate))
              else Err "gemini response missing expected content"
          | part :: _ =>
              let llmOutputJsonString := geminiPart.Text part in
              match json_Unmarshal_output env llmOutputJsonString with
              | Err err =>
                  Err ("failed to parse LLM's JSON output: " +:+ err +:+
                       ". Raw output: " +:+ llmOutputJsonString)
              | Ok parsedOutput =>
                  Ok (LLMResponse.mk (LLMResponse.Narrative parsedOutput)
                        (LLMResponse.Suggestions parsedOutput)
                        (LLMResponse.Actions parsedOutput))
              end
          end
      end
  end.

(** [GenerateResponse] of the Gemini adapter. *)
Definition GenerateResponse (g : GeminiAdapter.t) (env : GeminiEnv)
    (systemPrompt : string) (promptData : PromptData.t)
  : result LLMResponse.t :=
  let apiKey := Getenv_GEMINI_API_KEY env in
  if decide (apiKey = "") then
    Err "GEMINI_API_KEY environment variable not set"
  else
    match json_Marshal_request env (finalPrompt systemPrompt promptData) with
    | Err err => Err ("failed to marshal request body: " +:+ err)
    | Ok reqBody =>
        let url :=
          GeminiAdapter.apiEndpoint g +:+ "/" +:+ GeminiAdapter.modelName g +:+
          ":generateContent?key=" +:+ apiKey in
        match http_NewRequest env url reqBody with
        | Some err => Err ("failed to create HTTP request: " +:+ err)
        | None =>
            match httpClient_Do env url reqBody with
            | Err err => Err ("failed to execute HTTP request: " +:+ err)
            | Ok httpResp =>
                match httpResponse.Body httpResp with
                | Err err => Err ("failed to read response body: " +:+ err)
                | Ok respBody =>
                    if decide (httpResponse.StatusCode httpResp ≠ 200%Z) then
                      match json_Unmarshal_apiError env respBody with
                      | Some apiErr =>
                          if decide (apiError.Message apiErr ≠ "") then
                            Err ("gemini API request failed: status " +:+
                                 Go.fmt_d (httpResponse.StatusCode httpResp) +:+
                                 ", code " +:+ Go.fmt_d (apiError.Code apiErr) +:+
                                 ", message: " +:+ apiError.Message apiErr)
                          else
                            Err ("gemini API request failed: status " +:+
                                 httpResponse.Status httpResp +:+ ", body: " +:+
                                 respBody)
                      | None =>
                          Err ("gemini API request failed: status " +:+
                               httpResponse.Status httpResp +:+ ", body: " +:+
                               respBody)
                      end
                    else
                      match json_Unmarshal_geminiResponse env respBody with
                      | Err err =>
                          Err ("failed to unmarshal Gemini API response wrapper: "
                               +:+ err)
                      | Ok apiResponse => read_geminiResponse env apiResponse
                      end
                end
            end
        end
    end.

(** The one way in which a call of [GenerateResponse] succeeds. *)
Definition exchange_succeeds (g : GeminiAdapter.t) (env : GeminiEnv)
    (systemPrompt : string) (promptData : PromptData.t)
    (response : LLMResponse.t) : Prop :=
  Getenv_GEMINI_API_KEY env ≠ "" ∧
  ∃ reqBody httpResp respBody apiResponse candidate candidates part parts,
    let url :=
      GeminiAdapter.apiEndpoint g +:+ "/" +:+ GeminiAdapter.modelName g +:+
      ":generateContent?key=" +:+ Getenv_GEMINI_API_KEY env in
    json_Marshal_request env (finalPrompt systemPrompt promptData) = Ok reqBody ∧
    http_NewRequest env url reqBody = None ∧
    httpClient_Do env url reqBody = Ok httpResp ∧
    httpResponse.Body httpResp = Ok respBody ∧
    httpResponse.StatusCode httpResp = 200%Z ∧
    json_Unmarshal_geminiResponse env respBody = Ok apiResponse ∧
    (∀ feedback, geminiResponse.PromptFeedback apiResponse = Some feedback →
                 geminiPromptFeedback.BlockReason feedback = "") ∧
    geminiResponse.Candidates apiResponse = candidate :: candidates ∧
    geminiContent.Parts (geminiCandidate.Content candidate) = part :: parts ∧
    json_Unmarshal_output env (geminiPart.Text part) = Ok response.

(** An environment in which the API answers status 200 with one candidate
    whose text decodes to a response without actions. *)
Definition ex_gemini_env : GeminiEnv :=
  mkGeminiEnv "secret"
    (fun prompt => Ok prompt)
    (fun _ _ => None)
    (fun _ _ => Ok (httpResponse.mk 200 "200 OK" (Ok "body")))
    (fun _ => None)
    (fun _ =>
       Ok (geminiResponse.mk
             [geminiCandidate.mk
                (geminiContent.mk [geminiPart.mk "text"] "model") "STOP" 0 [] 0]
             None None))
    (fun _ => Ok (LLMResponse.mk "All is calm." ["Wait"] []))
    (fun _ => "[]").

Definition ex_prompt_data : PromptData.t :=
  PromptData.mk (PlayerContextData.mk "Ash" "Courier" "" 1)
    (LocationContextData.mk "gate (gate)" "A gate." ["village"; "tower"]
       ["village (village)"; "tower (tower)"] "")
    (SessionContextData.mk 0 ["Player: look"; "Player: wait"]) "go north".

(** A world system whose adjacency check fails for a reason other than a
    missing location. *)
Inductive OfflineWorld : Type := offline.

#[export] Instance OfflineWorld_WorldSystem : WorldSystem OfflineWorld := {
  WorldSystem_GetLocation w id := (w, Err "database offline");
  WorldSystem_IsAdjacent w cur tgt := (w, Err "database offline");
  WorldSystem_GetAdjacentLocations w id := (w, Err "database offline");
}.

(** * Properties *)

(** ** Strings *)

Lemma Contains_cons (c : ascii) (s substr : string) :
  Go.Contains (String c s) substr
  = if Go.HasPrefix (String c s) substr then true else Go.Contains s substr.
Proof. reflexivity. Qed.

Lemma append_assoc (a b c : string) : (a +:+ b) +:+ c = a +:+ b +:+ c.
Proof.
  induction a as [|x a IH]; [reflexivity|].
  change (String x ((a +:+ b) +:+ c) = String x (a +:+ b +:+ c)).
  by rewrite IH.
Qed.

Lemma Contains_app_r (s t substr : string) :
  Go.Contains t substr = true → Go.Contains (s +:+ t) substr = true.
Proof.
  intros Ht. induction s as [|c s IH]; [exact Ht|].
  change (String c s +:+ t) with (String c (s +:+ t)).
  rewrite Contains_cons.
  destruct (Go.HasPrefix (String c (s +:+ t)) substr); [reflexivity|exact IH].
Qed.

Example HasSuffix_json : Go.HasSuffix (Go.ToLower "Village.JSON") ".json" = true.
Proof. reflexivity. Qed.

Example id_of_filename_village : id_of_filename "Village.JSON" = "Village".
Proof. reflexivity. Qed.

Example Ext_last_dot : Go.Ext "archive.tar.gz" = ".gz".
Proof. reflexivity. Qed.

Example fmt_d_negative : Go.fmt_d (-42) = "-42".
Proof. reflexivity. Qed.

Example Contains_false : Go.Contains "no such place" "not found" = false.
Proof. reflexivity. Qed.

(** ** The recent-action log *)

Lemma keep_last_length {A} (n : nat) (l : list A) :
  length (keep_last n l) = Nat.min n (length l).
Proof. unfold keep_last. rewrite length_drop. lia. Qed.

Lemma keep_last_short {A} (n : nat) (l : list A) :
  length l ≤ n → keep_last n l = l.
Proof.
  intros H. unfold keep_last. replace (length l - n) with 0 by lia. done.
Qed.

Lemma keep_last_app {A} (n : nat) (l ys : list A) :
  keep_last n (keep_last n l ++ ys) = keep_last n (l ++ ys).
Proof.
  destruct (decide (length l ≤ n)) as [Hle|Hgt].
  - by rewrite (keep_last_short n l).
  - unfold keep_last. rewrite !length_app, length_drop.
    set (k := length l - n).
    replace (length l - k + length ys - n) with (length ys) by lia.
    replace (length l + length ys - n) with (k + length ys) by lia.
    rewrite <- drop_drop. f_equal.
    rewrite drop_app_le by lia. reflexivity.
Qed.

Lemma AddRecentAction_log (sess : GameSession.t) (summary : string) :
  GameSession.RecentActions (AddRecentAction sess summary)
  = keep_last maxRecentActions (GameSession.RecentActions sess ++ [summary]).
Proof.
  unfold AddRecentAction. case_decide as Hlen; simpl.
  - reflexivity.
  - symmetry. apply keep_last_short. lia.
Qed.

Lemma AddRecentAction_fold_log (summaries : list string) (sess : GameSession.t) :
  summaries ≠ [] ∨ length (GameSession.RecentActions sess) ≤ maxRecentActions →
  GameSession.RecentActions (fold_left AddRecentAction summaries sess)
  = keep_last maxRecentActions (GameSession.RecentActions sess ++ summaries).
Proof.
  revert sess. induction summaries as [|x xs IH]; intros sess Hcase.
  - destruct Hcase as [?|Hle]; [done|].
    simpl. rewrite app_nil_r. symmetry. by apply keep_last_short.
  - simpl. rewrite IH.
    + rewrite AddRecentAction_log, keep_last_app, <- app_assoc. reflexivity.
    + right. rewrite AddRecentAction_log, keep_last_length. lia.
Qed.

(** The fields other than the log are not touched by [AddRecentAction]. *)
Lemma AddRecentAction_frame (sess : GameSession.t) (summary : string) :
  AddRecentAction sess summary
  = GameSession.with_RecentActions
      (GameSession.RecentActions (AddRecentAction sess summary)) sess.
Proof. unfold AddRecentAction. by case_decide. Qed.

(** C9.  Whatever is appended to the recent-action log of a session, the log
    holds at most 5 entries afterwards (as soon as one entry was appended,
    or when it held at most 5 before); and once more than 5 entries were
    appended, the log is exactly the last 5 of them, oldest first. *)
Theorem C9_recent_actions_bounded (sess : GameSession.t) (summaries : list string) :
  let sess' := fold_left AddRecentAction summaries sess in
  (summaries ≠ [] ∨ length (GameSession.RecentActions sess) ≤ 5 →
   length (GameSession.RecentActions sess') ≤ 5 ∧
   GameSession.RecentActions sess'
   = drop (length (GameSession.RecentActions sess ++ summaries) - 5)
       (GameSession.RecentActions sess ++ summaries)) ∧
  (5 < length summaries →
   GameSession.RecentActions sess' = drop (length summaries - 5) summaries ∧
   length (GameSession.RecentActions sess') = 5).
Proof.
  intros sess'. split.
  - intros Hcase. unfold sess'. rewrite AddRecentAction_fold_log by exact Hcase.
    split; [rewrite keep_last_length; unfold maxRecentActions; lia|reflexivity].
  - intros Hlen. unfold sess'.
    rewrite AddRecentAction_fold_log by (left; intros ->; simpl in Hlen; lia).
    unfold keep_last, maxRecentActions. rewrite length_app.
    replace (length (GameSession.RecentActions sess) + length summaries - 5)
      with (length (GameSession.RecentActions sess) + (length summaries - 5)) by lia.
    rewrite drop_app_add. split; [reflexivity|rewrite length_drop; lia].
Qed.

Lemma C9_recent_actions_bounded_witness :
  GameSession.RecentActions
    (fold_left AddRecentAction ["a"; "b"; "c"; "d"; "e"; "f"; "g"]
       (ex_session_at "gate"))
  = ["c"; "d"; "e"; "f"; "g"].
Proof.
  pose proof (C9_recent_actions_bounded (ex_session_at "gate")
                ["a"; "b"; "c"; "d"; "e"; "f"; "g"]) as [_ H].
  destruct H as [H _]; [simpl; lia|]. exact H.
Defined.

(** ** Adjacency *)

Lemma IsAdjacent_scan_spec (adjacentIDs : list string) (target : string) :
  IsAdjacent_scan adjacentIDs target = bool_decide (target ∈ adjacentIDs).
Proof.
  induction adjacentIDs as [|adjID rest IH]; cbn [IsAdjacent_scan].
  - symmetry. apply bool_decide_eq_false_2. apply not_elem_of_nil.
  - destruct (decide (adjID = target)) as [Heq|Heq].
    + subst. symmetry. apply bool_decide_eq_true_2. apply elem_of_cons. by left.
    + rewrite IH. apply bool_decide_ext. rewrite elem_of_cons.
      split; [by right|]. intros [->|?]; [done|assumption].
Qed.

Lemma not_found_current (id : string) :
  Go.Contains ("current location with ID '" +:+ id +:+ "' not found") "not found"
  = true.
Proof. do 2 apply Contains_app_r. reflexivity. Qed.

Lemma not_found_target (id : string) :
  Go.Contains ("target location with ID '" +:+ id +:+ "' not found") "not found"
  = true.
Proof. do 2 apply Contains_app_r. reflexivity. Qed.

(** Every error of [IsAdjacent] says "not found", and there is one exactly
    when an endpoint is absent. *)
Lemma IsAdjacent_Err (ws : InMemoryWorldSystem) (cur target : string) (err : error) :
  IsAdjacent ws cur target = Err err →
  (locations ws !! cur = None ∨ locations ws !! target = None) ∧
  Go.Contains err "not found" = true.
Proof.
  unfold IsAdjacent.
  destruct (locations ws !! cur) as [loc|] eqn:Hcur.
  - destruct (locations ws !! target) eqn:Htgt; [discriminate|].
    intros [= <-]. split; [by right|apply not_found_target].
  - intros [= <-]. split; [by left|apply not_found_current].
Qed.

Lemma IsAdjacent_absent (ws : InMemoryWorldSystem) (cur target : string) :
  locations ws !! cur = None ∨ locations ws !! target = None →
  ∃ err, IsAdjacent ws cur target = Err err ∧ Go.Contains err "not found" = true.
Proof.
  intros Habs. unfold IsAdjacent.
  destruct (locations ws !! cur) as [loc|] eqn:Hcur.
  - destruct (locations ws !! target) eqn:Htgt.
    + destruct Habs; discriminate.
    + eexists. split; [reflexivity|apply not_found_target].
  - eexists. split; [reflexivity|apply not_found_current].
Qed.

Lemma IsAdjacent_present (ws : InMemoryWorldSystem) (cur target : string)
    (loc : LocationNode.t) :
  locations ws !! cur = Some loc → is_Some (locations ws !! target) →
  IsAdjacent ws cur target
  = Ok (bool_decide (target ∈ LocationNode.AdjacentIDs loc)).
Proof.
  intros Hcur [loc' Htgt]. unfold IsAdjacent.
  rewrite Hcur, Htgt, IsAdjacent_scan_spec. reflexivity.
Qed.

(** ** [handleUpdateLocation] over the in-memory world *)

Section HandlerInMemory.
Variables (ws : InMemoryWorldSystem) (action : LLMAction.t)
          (sess : GameSession.t) (target : string).
Hypothesis Hdata : LLMAction.Data action !! "locationId" = Some (AnyString target).
Hypothesis Hnonempty : target ≠ "".
Hypothesis Hmove : GameSession.CurrentLocationID sess ≠ target.

Lemma handleUpdateLocation_IsAdjacent :
  handleUpdateLocation ws action sess
  = match IsAdjacent ws (GameSession.CurrentLocationID sess) target with
    | Err err =>
        (ws, sess,
         Some ("validation failed - location does not exist: " +:+ err))
    | Ok false =>
        (ws, sess,
         Some ("validation failed - target location '" +:+ target +:+
               "' is not adjacent to current location '" +:+
               GameSession.CurrentLocationID sess +:+ "'"))
    | Ok true =>
        (ws, GameSession.with_CurrentLocationID target sess, None)
    end.
Proof.
  unfold handleUpdateLocation. rewrite Hdata.
  rewrite decide_False by exact Hnonempty.
  rewrite decide_False by exact Hmove. simpl.
  destruct (IsAdjacent ws (GameSession.CurrentLocationID sess) target)
    as [[|]|err] eqn:Hadj; simpl; try reflexivity.
  apply IsAdjacent_Err in Hadj as [_ ->]. reflexivity.
Qed.
End HandlerInMemory.

(** C5.  [IsAdjacent] fails with a "not found" error when either identifier
    is absent from the loaded graph, and otherwise answers whether the
    target is in the stored adjacency list of the source.  The relation is
    directed as stored: in the sample world the tower is adjacent to the
    gate and the gate is not adjacent to the tower.  The executor follows
    the stored direction: a move is decided by [IsAdjacent] from the current
    location to the target only. *)
Theorem C5_IsAdjacent_directed :
  (∀ (ws : InMemoryWorldSystem) (fromId toId : string),
     (locations ws !! fromId = None ∨ locations ws !! toId = None →
      ∃ err, IsAdjacent ws fromId toId = Err err ∧
             Go.Contains err "not found" = true) ∧
     (∀ loc, locations ws !! fromId = Some loc →
             is_Some (locations ws !! toId) →
             IsAdjacent ws fromId toId
             = Ok (bool_decide (toId ∈ LocationNode.AdjacentIDs loc)))) ∧
  (IsAdjacent ex_world "gate" "tower" = Ok true ∧
   IsAdjacent ex_world "tower" "gate" = Ok false) ∧
  (∀ (ws : InMemoryWorldSystem) (action : LLMAction.t) (sess : GameSession.t)
     (target : string),
     LLMAction.Data action !! "locationId" = Some (AnyString target) →
     target ≠ "" → GameSession.CurrentLocationID sess ≠ target →
     (IsAdjacent ws (GameSession.CurrentLocationID sess) target = Ok true →
      handleUpdateLocation ws action sess
      = (ws, GameSession.with_CurrentLocationID target sess, None)) ∧
     (IsAdjacent ws (GameSession.CurrentLocationID sess) target = Ok false →
      handleUpdateLocation ws action sess
      = (ws, sess,
         Some ("validation failed - target location '" +:+ target +:+
               "' is not adjacent to current location '" +:+
               GameSession.CurrentLocationID sess +:+ "'")))) ∧
  (handleUpdateLocation ex_world (ex_move "tower") (ex_session_at "gate")
   = (ex_world, ex_session_at "tower", None) ∧
   handleUpdateLocation ex_world (ex_move "gate") (ex_session_at "tower")
   = (ex_world, ex_session_at "tower",
      Some "validation failed - target location 'gate' is not adjacent to current location 'tower'")).
Proof.
  split; [|split; [|split]].
  - intros ws fromId toId. split.
    + apply IsAdjacent_absent.
    + intros loc. apply IsAdjacent_present.
  - split; vm_compute; reflexivity.
  - intros ws action sess target Hdata Hne Hmove.
    rewrite (handleUpdateLocation_IsAdjacent ws action sess target Hdata Hne Hmove).
    split; intros ->; reflexivity.
  - split; vm_compute; reflexivity.
Qed.

Lemma C5_IsAdjacent_directed_witness :
  ∃ err, IsAdjacent ex_world "gate" "nowhere" = Err err ∧
         Go.Contains err "not found" = true.
Proof.
  destruct C5_IsAdjacent_directed as [H _].
  destruct (H ex_world "gate" "nowhere") as [Habsent _].
  apply Habsent. right. vm_compute. reflexivity.
Defined.

(** ** Moving to where the session already is *)

(** C6.  An updateLocation action whose target is the session's current
    location (a non-empty string) succeeds without any effect of the
    handler: whatever the world system is, it is not called (its state,
    which may record calls, is returned as it was), no error is reported,
    and the current location stays.  The executor then only logs the
    success in the recent-action log. *)
Theorem C6_updateLocation_same_location {W : Type} `{!WorldSystem W}
    (w : W) (action : LLMAction.t) (sess : GameSession.t) :
  LLMAction.Type_ action = UpdateLocation →
  LLMAction.Data action !! "locationId"
  = Some (AnyString (GameSession.CurrentLocationID sess)) →
  GameSession.CurrentLocationID sess ≠ "" →
  handleUpdateLocation w action sess = (w, sess, None) ∧
  ExecuteActions w [action] (Some sess)
  = (w, Some (AddRecentAction sess "System executed: updateLocation"), []) ∧
  GameSession.CurrentLocationID
    (AddRecentAction sess "System executed: updateLocation")
  = GameSession.CurrentLocationID sess.
Proof.
  intros Hty Hdata Hne.
  assert (Hh : handleUpdateLocation w action sess = (w, sess, None)).
  { unfold handleUpdateLocation. rewrite Hdata.
    rewrite decide_False by exact Hne.
    rewrite decide_True by reflexivity. reflexivity. }
  split; [exact Hh|]. split.
  - unfold ExecuteActions. cbn [fold_left]. unfold execute_step, dispatch_action.
    rewrite Hty. rewrite decide_True by reflexivity. rewrite Hh. reflexivity.
  - rewrite AddRecentAction_frame. reflexivity.
Qed.

(** The same on a world system that counts its calls and knows no location
    at all: the count stays at zero and the move to "void" from "void"
    succeeds. *)
Lemma C6_updateLocation_same_location_witness :
  handleUpdateLocation (mkCounting 0 NewInMemoryWorldSystem) (ex_move "void")
    (ex_session_at "void")
  = (mkCounting 0 NewInMemoryWorldSystem, ex_session_at "void", None).
Proof.
  apply (C6_updateLocation_same_location (mkCounting 0 NewInMemoryWorldSystem)
           (ex_move "void") (ex_session_at "void")).
  - reflexivity.
  - vm_compute. reflexivity.
  - discriminate.
Defined.

(** ** The four outcomes of a move *)

Lemma does_not_exist_is_distinct (err target cur : string) :
  "validation failed - location does not exist: " +:+ err
  ≠ "validation failed - target location '" +:+ target +:+
    "' is not adjacent to current location '" +:+ cur +:+ "'".
Proof. simpl. discriminate. Qed.

(** C2.  [handleUpdateLocation] on the in-memory world.  A missing,
    non-string or empty [locationId] is rejected with the matching
    invalid-data error.  For a target other than the current location: when
    the current or the target location is absent from the graph the error
    is "validation failed - location does not exist" (wrapping the error of
    [IsAdjacent]), which differs from the error for a known but
    non-adjacent target, "validation failed - target location ... is not
    adjacent ..."; in all these cases the session is returned as it was.
    When the target is in the adjacency list of the current location, the
    session comes back with the current location set to the target and
    nothing else changed. *)
Theorem C2_handleUpdateLocation_outcomes (ws : InMemoryWorldSystem)
    (action : LLMAction.t) (sess : GameSession.t) :
  let cur := GameSession.CurrentLocationID sess in
  (LLMAction.Data action !! "locationId" = None →
   handleUpdateLocation ws action sess
   = (ws, sess, Some "action data missing required field 'locationId'")) ∧
  (∀ v, LLMAction.Data action !! "locationId" = Some v →
        (∀ s, v ≠ AnyString s) →
        handleUpdateLocation ws action sess
        = (ws, sess, Some "action data field 'locationId' must be a string")) ∧
  (LLMAction.Data action !! "locationId" = Some (AnyString "") →
   handleUpdateLocation ws action sess
   = (ws, sess, Some "action data field 'locationId' cannot be empty")) ∧
  (∀ target,
     LLMAction.Data action !! "locationId" = Some (AnyString target) →
     target ≠ "" → cur ≠ target →
     (locations ws !! cur = None ∨ locations ws !! target = None →
      ∃ err,
        IsAdjacent ws cur target = Err err ∧
        handleUpdateLocation ws action sess
        = (ws, sess,
           Some ("validation failed - location does not exist: " +:+ err)) ∧
        "validation failed - location does not exist: " +:+ err
        ≠ "validation failed - target location '" +:+ target +:+
          "' is not adjacent to current location '" +:+ cur +:+ "'") ∧
     (∀ loc, locations ws !! cur = Some loc →
             is_Some (locations ws !! target) →
             (target ∉ LocationNode.AdjacentIDs loc →
              handleUpdateLocation ws action sess
              = (ws, sess,
                 Some ("validation failed - target location '" +:+ target +:+
                       "' is not adjacent to current location '" +:+ cur +:+
                       "'"))) ∧
             (target ∈ LocationNode.AdjacentIDs loc →
              handleUpdateLocation ws action sess
              = (ws,
                 GameSession.mk (GameSession.ID sess) (GameSession.Player sess)
                   target (GameSession.CreatedAt sess)
                   (GameSession.LastActive sess)
                   (GameSession.RecentActions sess),
                 None)))).
Proof.
  intros cur. split; [|split; [|split]].
  - intros Hnone. unfold handleUpdateLocation. rewrite Hnone. reflexivity.
  - intros v Hv Hnot. unfold handleUpdateLocation. rewrite Hv.
    destruct v; try reflexivity. exfalso. by eapply Hnot.
  - intros Hempty. unfold handleUpdateLocation. rewrite Hempty. reflexivity.
  - intros target Hdata Hne Hmove.
    rewrite (handleUpdateLocation_IsAdjacent ws action sess target Hdata Hne Hmove).
    fold cur. split.
    + intros Habs. destruct (IsAdjacent_absent ws cur target Habs) as (err & Herr & _).
      exists err. rewrite Herr.
      split; [reflexivity|]. split; [reflexivity|].
      apply does_not_exist_is_distinct.
    + intros loc Hcur Htgt.
      rewrite (IsAdjacent_present ws cur target loc Hcur Htgt).
      split; intros Hadj.
      * rewrite bool_decide_eq_false_2 by exact Hadj. reflexivity.
      * rewrite bool_decide_eq_true_2 by exact Hadj. reflexivity.
Qed.

Lemma C2_handleUpdateLocation_outcomes_witness :
  handleUpdateLocation ex_world (ex_move "village") (ex_session_at "gate")
  = (ex_world, ex_session_at "village", None).
Proof.
  destruct (C2_handleUpdateLocation_outcomes ex_world (ex_move "village")
              (ex_session_at "gate")) as (_ & _ & _ & H).
  destruct (H "village") as [_ Hpresent].
  - vm_compute. reflexivity.
  - discriminate.
  - discriminate.
  - destruct (Hpresent (ex_location "gate" ["village"; "tower"] "")) as [_ Hadj].
    + vm_compute. reflexivity.
    + exists (ex_location "village" ["gate"] ""). vm_compute. reflexivity.
    + apply Hadj. apply elem_of_cons. by left.
Defined.

(** ** [ExecuteActions] *)

Section ExecuteActionsFacts.
Context {W : Type} `{!WorldSystem W}.

Lemma execute_step_acc (w : W) (sess : GameSession.t)
    (errs : list exec_error) (action : LLMAction.t) :
  execute_step (w, sess, errs) action
  = ((execute_step (w, sess, []) action).1,
     errs ++ (execute_step (w, sess, []) action).2).
Proof.
  unfold execute_step.
  destruct (dispatch_action w action sess) as [[w' sess'] [err|]]; simpl.
  - reflexivity.
  - by rewrite app_nil_r.
Qed.

Lemma execute_fold_acc (actions : list LLMAction.t) (w : W)
    (sess : GameSession.t) (errs : list exec_error) :
  fold_left execute_step actions (w, sess, errs)
  = ((fold_left execute_step actions (w, sess, [])).1,
     errs ++ (fold_left execute_step actions (w, sess, [])).2).
Proof.
  revert w sess errs.
  induction actions as [|action rest IH]; intros w sess errs.
  - simpl. by rewrite app_nil_r.
  - cbn [fold_left]. rewrite (execute_step_acc w sess errs).
    destruct (execute_step (w, sess, []) action) as [[w1 s1] e1] eqn:Hstep.
    cbn [fst snd]. rewrite (IH w1 s1 (errs ++ e1)), (IH w1 s1 e1).
    cbn [fst snd]. by rewrite app_assoc.
Qed.

Lemma execute_fold_slots (actions : list LLMAction.t) (w : W)
    (sess : GameSession.t) :
  (fold_left execute_step actions (w, sess, [])).2
  = omap id (outcome_slots w actions sess).
Proof.
  revert w sess. induction actions as [|action rest IH]; intros w sess.
  - reflexivity.
  - cbn [fold_left outcome_slots]. unfold execute_step at 2.
    destruct (dispatch_action w action sess) as [[w1 s1] [err|]].
    + rewrite execute_fold_acc. cbn [fst snd]. rewrite IH. reflexivity.
    + rewrite IH. reflexivity.
Qed.

Lemma outcome_slots_length (actions : list LLMAction.t) (w : W)
    (sess : GameSession.t) :
  length (outcome_slots w actions sess) = length actions.
Proof.
  revert w sess. induction actions as [|action rest IH]; intros w sess.
  - reflexivity.
  - cbn [outcome_slots].
    destruct (dispatch_action w action sess) as [[w1 s1] [err|]];
      simpl; by rewrite IH.
Qed.

Lemma ExecuteActions_errors (actions : list LLMAction.t) (w : W)
    (sess : GameSession.t) :
  (ExecuteActions w actions (Some sess)).2
  = omap id (outcome_slots w actions sess).
Proof.
  unfold ExecuteActions. rewrite <- execute_fold_slots.
  by destruct (fold_left execute_step actions (w, sess, [])) as [[w1 s1] e1].
Qed.

Lemma ExecuteActions_app (l1 l2 : list LLMAction.t) (w : W)
    (sess : GameSession.t) :
  ExecuteActions w (l1 ++ l2) (Some sess)
  = ((ExecuteActions (ExecuteActions w l1 (Some sess)).1.1 l2
        (ExecuteActions w l1 (Some sess)).1.2).1,
     (ExecuteActions w l1 (Some sess)).2 ++
     (ExecuteActions (ExecuteActions w l1 (Some sess)).1.1 l2
        (ExecuteActions w l1 (Some sess)).1.2).2).
Proof.
  unfold ExecuteActions. rewrite fold_left_app.
  destruct (fold_left execute_step l1 (w, sess, [])) as [[w1 s1] e1].
  cbn [fst snd]. rewrite execute_fold_acc.
  by destruct (fold_left execute_step l2 (w1, s1, [])) as [[w2 s2] e2].
Qed.
End ExecuteActionsFacts.

Lemma omap_id_length_le {A} (l : list (option A)) :
  length (omap id l) ≤ length l.
Proof. induction l as [|[a|] l IH]; cbn in *; lia. Qed.

(** C1, as the code has it.  [ExecuteActions] on a non-nil session runs the
    actions one after the other in input order, each on the session left by
    the actions before it, and returns the errors of the failing actions
    only, in input order: the list of outcome slots has one slot per action,
    and the result is that list with the error-free slots left out.  So the
    result is never longer than the input, and running a batch [l1 ++ l2]
    is running [l1] and then [l2] on the world and session [l1] left, the
    errors of [l1] coming first. *)
Theorem C1_ExecuteActions_failing_in_order {W : Type} `{!WorldSystem W}
    (w : W) (actions : list LLMAction.t) (sess : GameSession.t) :
  length (outcome_slots w actions sess) = length actions ∧
  (ExecuteActions w actions (Some sess)).2
  = omap id (outcome_slots w actions sess) ∧
  length (ExecuteActions w actions (Some sess)).2 ≤ length actions ∧
  (∀ l1 l2, actions = l1 ++ l2 →
     ExecuteActions w actions (Some sess)
     = ((ExecuteActions (ExecuteActions w l1 (Some sess)).1.1 l2
           (ExecuteActions w l1 (Some sess)).1.2).1,
        (ExecuteActions w l1 (Some sess)).2 ++
        (ExecuteActions (ExecuteActions w l1 (Some sess)).1.1 l2
           (ExecuteActions w l1 (Some sess)).1.2).2)).
Proof.
  split; [apply outcome_slots_length|].
  split; [apply ExecuteActions_errors|].
  split.
  - rewrite ExecuteActions_errors, <- (outcome_slots_length actions w sess).
    apply omap_id_length_le.
  - intros l1 l2 ->. apply ExecuteActions_app.
Qed.

(** On the sample batch from the gate: the first action fails, the second
    moves the session to the village, the third fails because the tower is
    not adjacent to the village; two errors come back. *)
Lemma C1_ExecuteActions_failing_in_order_witness :
  outcome_slots ex_world ex_batch (ex_session_at "gate")
  = [Some (ActionError AddItem ∅
             "action type 'addItem' requires InventorySystem (not implemented yet)");
     None;
     Some (ActionError UpdateLocation (LLMAction.Data (ex_move "tower"))
             "validation failed - target location 'tower' is not adjacent to current location 'village'")] ∧
  (ExecuteActions ex_world ex_batch (Some (ex_session_at "gate"))).2
  = omap id (outcome_slots ex_world ex_batch (ex_session_at "gate")).
Proof.
  split; [vm_compute; reflexivity|].
  apply (C1_ExecuteActions_failing_in_order ex_world ex_batch (ex_session_at "gate")).
Defined.

(** C1 as stated fails: for a batch [fails, succeeds, fails] the result has
    two elements, not three slots with the middle one free of error. *)
Lemma C1_one_slot_per_action_counterexample :
  (ExecuteActions ex_world ex_batch (Some (ex_session_at "gate"))).2
  = [ActionError AddItem ∅
       "action type 'addItem' requires InventorySystem (not implemented yet)";
     ActionError UpdateLocation (LLMAction.Data (ex_move "tower"))
       "validation failed - target location 'tower' is not adjacent to current location 'village'"] ∧
  length (ExecuteActions ex_world ex_batch (Some (ex_session_at "gate"))).2
  ≠ length ex_batch.
Proof. split; [vm_compute; reflexivity|vm_compute; discriminate]. Qed.

(** ** Creating sessions *)

(** C10, as the code has it.  For a character with a non-empty identifier
    and any start location string, [CreateNewSession] consults no world
    system (it has none to consult).  It builds the identifier from the
    character's identifier and the clock; when no session is stored under
    it, the call succeeds and stores a session whose current location is
    the given string verbatim; when one is, the call fails with the
    collision error and stores nothing. *)
Theorem C10_CreateNewSession_no_world_check (sm : InMemorySessionManager)
    (clock : Clock) (p : Character.t) (startLocationID : string) :
  Character.ID p ≠ "" →
  let newID :=
    "session_" +:+ Character.ID p +:+ "_" +:+
    Go.fmt_d (readings clock (ticks clock)) in
  (sessions sm !! newID = None →
   ∃ sess clock',
     CreateNewSession sm clock (Some p) startLocationID
     = (Ok sess, mkManager (<[newID := sess]> (sessions sm)), clock') ∧
     GameSession.ID sess = newID ∧
     GameSession.Player sess = p ∧
     GameSession.CurrentLocationID sess = startLocationID ∧
     GameSession.RecentActions sess = []) ∧
  (is_Some (sessions sm !! newID) →
   CreateNewSession sm clock (Some p) startLocationID
   = (Err "session ID collision detected (highly unlikely)", sm,
      mkClock (readings clock) (S (ticks clock)))).
Proof.
  intros Hid newID. unfold CreateNewSession.
  rewrite decide_False by exact Hid. cbn [time_Now]. fold newID. split.
  - intros Hfree. rewrite Hfree. cbn [readings ticks].
    eexists _, _. split; [reflexivity|]. by repeat split.
  - intros [old Hold]. rewrite Hold. reflexivity.
Qed.

(** A session is created at "nowhere", which the sample world does not
    know. *)
Lemma C10_CreateNewSession_no_world_check_witness :
  GetLocation ex_world "nowhere" = Err "location with ID 'nowhere' not found" ∧
  ∃ sess clock',
    CreateNewSession NewInMemorySessionManager ex_clock (Some ex_player) "nowhere"
    = (Ok sess, mkManager (<["session_hero_42" := sess]> ∅), clock') ∧
    GameSession.ID sess = "session_hero_42" ∧
    GameSession.Player sess = ex_player ∧
    GameSession.CurrentLocationID sess = "nowhere" ∧
    GameSession.RecentActions sess = [].
Proof.
  split; [vm_compute; reflexivity|].
  destruct (C10_CreateNewSession_no_world_check NewInMemorySessionManager
              ex_clock ex_player "nowhere") as [Hfree _].
  - discriminate.
  - apply Hfree. reflexivity.
Defined.

(** C10 as stated fails: with a session already stored under the
    identifier the clock leads to, the creation does not succeed. *)
Lemma C10_always_succeeds_counterexample :
  Character.ID ex_player ≠ "" ∧
  CreateNewSession (sys_manager ex_system) ex_clock (Some ex_player) "gate"
  = (Err "session ID collision detected (highly unlikely)",
     sys_manager ex_system, mkClock (readings ex_clock) 1).
Proof. split; [discriminate|vm_compute; reflexivity]. Qed.

(** ** One turn *)

Section TurnFacts.
Context {W : Type} `{!WorldSystem W}.
Variables (adapter : Adapter) (systemPrompt : string).

Lemma turn_before_execution_absent (st : System) (sessionID playerInput : string) :
  sessions (sys_manager st) !! sessionID = None →
  turn_before_execution adapter systemPrompt st sessionID playerInput
  = (Err ("failed to retrieve session '" +:+ sessionID +:+
          "': session not found: " +:+ sessionID), st).
Proof.
  intros Habs. unfold turn_before_execution, GetSession. rewrite Habs.
  by destruct st.
Qed.

Lemma turn_before_execution_present (st : System)
    (sessionID playerInput : string) (sess : GameSession.t) :
  sessions (sys_manager st) !! sessionID = Some sess →
  let now := readings (sys_clock st) (ticks (sys_clock st)) in
  let cs := logged_session now sess playerInput in
  let sm := mkManager (<[sessionID := cs]> (sessions (sys_manager st))) in
  let ctx :=
    buildPromptContext (sys_world st)
      (mkClock (readings (sys_clock st)) (S (ticks (sys_clock st)))) cs in
  turn_before_execution adapter systemPrompt st sessionID playerInput
  = match ctx.2 with
    | Err err =>
        (Err ("failed to build prompt context for session '" +:+
              sessionID +:+ "': " +:+ err),
         mkSystem ctx.1.1 sm ctx.1.2)
    | Ok promptData =>
        match adapter systemPrompt
                (PromptData.with_PlayerInput playerInput promptData) with
        | Err err =>
            (Err ("LLM adapter failed for session '" +:+ sessionID +:+
                  "': " +:+ err),
             mkSystem ctx.1.1 sm ctx.1.2)
        | Ok llmResponse =>
            (Ok (cs, llmResponse), mkSystem ctx.1.1 sm ctx.1.2)
        end
    end.
Proof.
  intros Hsess now cs sm ctx.
  unfold turn_before_execution, GetSession. rewrite Hsess.
  cbn [time_Now]. fold now. fold (logged_session now sess playerInput). fold cs.
  unfold store_session. cbn [sessions]. rewrite insert_insert_eq. fold sm.
  fold ctx. destruct ctx as [[w clock] [pd|err]]; cbn [fst snd].
  - destruct (adapter systemPrompt (PromptData.with_PlayerInput playerInput pd));
      reflexivity.
  - reflexivity.
Qed.
End TurnFacts.

Lemma logged_session_fields (now : Z) (sess : GameSession.t) (playerInput : string) :
  logged_session now sess playerInput
  = GameSession.mk (GameSession.ID sess) (GameSession.Player sess)
      (GameSession.CurrentLocationID sess) (GameSession.CreatedAt sess) now
      (keep_last 5 (GameSession.RecentActions sess ++ ["Player: " +:+ playerInput])).
Proof.
  unfold logged_session. rewrite AddRecentAction_frame, AddRecentAction_log.
  reflexivity.
Qed.

(** C4, as the code has it.  Up to and including the call of the text
    generator, a turn leaves the session's identifier, character, current
    location and creation timestamp as they were, and changes two fields:
    fetching the session refreshes its last-active timestamp, and the
    player's input is appended to the recent-action log (of which the last
    5 entries are kept).  This is the session that the action execution
    starts from, and the session a turn aborted at the context building or
    at the generator call leaves behind; a turn whose session is not found
    changes nothing. *)
Theorem C4_session_before_execution {W : Type} `{!WorldSystem W}
    (adapter : Adapter) (systemPrompt : string) (st : System)
    (sessionID playerInput : string) :
  let before :=
    turn_before_execution adapter systemPrompt st sessionID playerInput in
  let turn := ProcessPlayerInput adapter systemPrompt st sessionID playerInput in
  (sessions (sys_manager st) !! sessionID = None →
   (∃ err, turn = (Err err, st))) ∧
  (∀ sess, sessions (sys_manager st) !! sessionID = Some sess →
     let now := readings (sys_clock st) (ticks (sys_clock st)) in
     let cs :=
       GameSession.mk (GameSession.ID sess) (GameSession.Player sess)
         (GameSession.CurrentLocationID sess) (GameSession.CreatedAt sess) now
         (keep_last 5
            (GameSession.RecentActions sess ++ ["Player: " +:+ playerInput])) in
     sessions (sys_manager before.2)
     = <[sessionID := cs]> (sessions (sys_manager st)) ∧
     (∀ currentSession llmResponse,
        before.1 = Ok (currentSession, llmResponse) → currentSession = cs) ∧
     (∀ err, before.1 = Err err → turn = (Err err, before.2))).
Proof.
  intros before turn. split.
  - intros Habs. eexists. unfold turn, ProcessPlayerInput.
    rewrite turn_before_execution_absent by exact Habs. reflexivity.
  - intros sess Hsess now cs.
    assert (Hcs : cs = logged_session now sess playerInput)
      by (symmetry; apply logged_session_fields).
    unfold turn, ProcessPlayerInput. fold before. unfold before.
    rewrite (turn_before_execution_present adapter systemPrompt st sessionID
               playerInput sess Hsess).
    cbv zeta. fold now. rewrite <- Hcs.
    destruct (buildPromptContext _ _ cs) as [[w clock] [pd|err]]; cbn [fst snd].
    + destruct (adapter systemPrompt _) as [resp|err]; cbn [fst snd sys_manager sessions].
      * split; [reflexivity|]. split; [by intros ? ? [= <- _]|discriminate].
      * split; [reflexivity|]. split; [discriminate|by intros ? [= <-]].
    + cbn [sys_manager sessions].
      split; [reflexivity|]. split; [discriminate|by intros ? [= <-]].
Qed.

Lemma C4_session_before_execution_witness :
  sessions
    (sys_manager
       (turn_before_execution ex_failing_adapter "" ex_system
          "session_hero_42" "hi").2)
  = <["session_hero_42" :=
        GameSession.mk "session_hero_42" ex_player "gate" 0 42 ["Player: hi"]]>
      (sessions (sys_manager ex_system)).
Proof.
  destruct (C4_session_before_execution ex_failing_adapter "" ex_system
              "session_hero_42" "hi") as [_ H].
  destruct (H (ex_session_at "gate")) as [Hstore _].
  - vm_compute. reflexivity.
  - exact Hstore.
Defined.

(** C4 as stated fails: a turn aborted by a failing generator leaves a
    session whose recent-action log and last-active timestamp differ from
    those it had before the turn. *)
Lemma C4_no_mutation_before_execution_counterexample :
  let turn :=
    ProcessPlayerInput ex_failing_adapter "" ex_system "session_hero_42" "hi" in
  turn.1 = Err "LLM adapter failed for session 'session_hero_42': transport error" ∧
  sessions (sys_manager ex_system) !! "session_hero_42"
  = Some (GameSession.mk "session_hero_42" ex_player "gate" 0 0 []) ∧
  sessions (sys_manager turn.2) !! "session_hero_42"
  = Some (GameSession.mk "session_hero_42" ex_player "gate" 0 42 ["Player: hi"]) ∧
  sessions (sys_manager turn.2) !! "session_hero_42"
  ≠ sessions (sys_manager ex_system) !! "session_hero_42".
Proof.
  repeat split; try (vm_compute; reflexivity). vm_compute. discriminate.
Qed.

(** C8, as the code has it.  When the text generator fails, the turn returns
    the error of the adapter (wrapped) and no response; the session's
    current location is as before, and the session differs from the one
    before the turn in two fields: the last-active timestamp, refreshed
    when the session was fetched, and the recent-action log, to which the
    player's input was appended (the last 5 entries being kept).  No other
    session of the store is touched. *)
Theorem C8_generator_failure {W : Type} `{!WorldSystem W}
    (adapter : Adapter) (systemPrompt : string) (st : System)
    (sessionID playerInput : string) (sess : GameSession.t)
    (w : W) (clock : Clock) (promptData : PromptData.t) (err : error) :
  sessions (sys_manager st) !! sessionID = Some sess →
  let now := readings (sys_clock st) (ticks (sys_clock st)) in
  let cs :=
    GameSession.mk (GameSession.ID sess) (GameSession.Player sess)
      (GameSession.CurrentLocationID sess) (GameSession.CreatedAt sess) now
      (keep_last 5
         (GameSession.RecentActions sess ++ ["Player: " +:+ playerInput])) in
  buildPromptContext (sys_world st)
    (mkClock (readings (sys_clock st)) (S (ticks (sys_clock st)))) cs
  = (w, clock, Ok promptData) →
  adapter systemPrompt (PromptData.with_PlayerInput playerInput promptData)
  = Err err →
  ProcessPlayerInput adapter systemPrompt st sessionID playerInput
  = (Err ("LLM adapter failed for session '" +:+ sessionID +:+ "': " +:+ err),
     mkSystem w (mkManager (<[sessionID := cs]> (sessions (sys_manager st))))
       clock) ∧
  GameSession.CurrentLocationID cs = GameSession.CurrentLocationID sess.
Proof.
  intros Hsess now cs Hctx Hgen. split; [|reflexivity].
  unfold ProcessPlayerInput.
  rewrite (turn_before_execution_present adapter systemPrompt st sessionID
             playerInput sess Hsess).
  cbv zeta. fold now. rewrite logged_session_fields. fold cs.
  rewrite Hctx. cbn [fst snd]. rewrite Hgen. reflexivity.
Qed.

Lemma C8_generator_failure_witness :
  ProcessPlayerInput ex_failing_adapter "" ex_system "session_hero_42" "hi"
  = (Err "LLM adapter failed for session 'session_hero_42': transport error",
     mkSystem ex_world
       (mkManager
          (<["session_hero_42" :=
               GameSession.mk "session_hero_42" ex_player "gate" 0 42
                 ["Player: hi"]]> (sessions (sys_manager ex_system))))
       (mkClock (readings ex_clock) 2)).
Proof.
  refine (proj1 (C8_generator_failure ex_failing_adapter "" ex_system
                   "session_hero_42" "hi" (ex_session_at "gate") ex_world
                   (mkClock (readings ex_clock) 2)
                   (PromptData.mk
                      (PlayerContextData.mk "Ash" "" "" 1)
                      (LocationContextData.mk "gate (gate)" ""
                         ["village"; "tower"]
                         ["village (village)"; "tower (tower)"] "")
                      (SessionContextData.mk 0 ["Player: hi"]) "")
                   "transport error" _ _ _)).
  - vm_compute. reflexivity.
  - vm_compute. reflexivity.
  - reflexivity.
Defined.

(** C8 as stated fails: after a turn whose generator failed, the session is
    not the session before the turn with the player's input appended to its
    log; its last-active timestamp changed too. *)
Lemma C8_only_log_entry_counterexample :
  let turn :=
    ProcessPlayerInput ex_failing_adapter "" ex_system "session_hero_42" "hi" in
  turn.1 = Err "LLM adapter failed for session 'session_hero_42': transport error" ∧
  sessions (sys_manager turn.2) !! "session_hero_42"
  ≠ Some (AddRecentAction (ex_session_at "gate") "Player: hi") ∧
  (GameSession.LastActive <$> sessions (sys_manager turn.2) !! "session_hero_42")
  = Some 42%Z ∧
  GameSession.LastActive (ex_session_at "gate") = 0%Z.
Proof.
  repeat split; try (vm_compute; reflexivity). vm_compute. discriminate.
Qed.

(** ** Partial failure of the actions *)

Lemma UpdateSession_some (sm : InMemorySessionManager) (clock : Clock)
    (s : GameSession.t) :
  ∃ err s' clock', UpdateSession sm clock (Some s) = (err, Some s', clock').
Proof.
  unfold UpdateSession. destruct (sessions sm !! GameSession.ID s); eauto.
Qed.

(** C7.  When the generator's response carries at least one action and the
    executor returns at least one error, the turn still succeeds: the
    response returned is the generator's with one annotation put before the
    narrative, giving the number of errors, which is the number of failing
    actions; suggestions and actions, the failed ones included, are
    returned as the generator gave them. *)
Theorem C7_partial_failure_annotated {W : Type} `{!WorldSystem W}
    (adapter : Adapter) (systemPrompt : string) (st st1 : System)
    (sessionID playerInput : string) (currentSession : GameSession.t)
    (llmResponse : LLMResponse.t) :
  turn_before_execution adapter systemPrompt st sessionID playerInput
  = (Ok (currentSession, llmResponse), st1) →
  LLMResponse.Actions llmResponse ≠ [] →
  let executionErrors :=
    (ExecuteActions (sys_world st1) (LLMResponse.Actions llmResponse)
       (Some currentSession)).2 in
  executionErrors ≠ [] →
  (ProcessPlayerInput adapter systemPrompt st sessionID playerInput).1
  = Ok (LLMResponse.mk
          ("[System Error processing actions: " +:+
           Go.fmt_d (Z.of_nat (length executionErrors)) +:+
           " error(s) occurred. The story continues...]" +:+
           String "010" (String "010" (LLMResponse.Narrative llmResponse)))
          (LLMResponse.Suggestions llmResponse)
          (LLMResponse.Actions llmResponse)) ∧
  executionErrors
  = omap id
      (outcome_slots (sys_world st1) (LLMResponse.Actions llmResponse)
         currentSession).
Proof.
  intros Hbefore Hactions executionErrors Herrors.
  split; [|apply ExecuteActions_errors].
  unfold ProcessPlayerInput. rewrite Hbefore. unfold turn_execution.
  rewrite decide_True
    by (destruct (LLMResponse.Actions llmResponse); [done|simpl; lia]).
  fold executionErrors.
  destruct (ExecuteActions (sys_world st1) (LLMResponse.Actions llmResponse)
              (Some currentSession)) as [[w executed] errs] eqn:Hexec.
  cbn [snd] in executionErrors. subst executionErrors.
  rewrite decide_True by (destruct errs; [done|simpl; lia]).
  destruct (UpdateSession_some
              (store_session sessionID (default currentSession executed)
                 (sys_manager st1))
              (sys_clock st1) (default currentSession executed))
    as (uerr & s' & clock' & ->).
  cbn [fst]. f_equal. f_equal. unfold errorNarrative.
  rewrite !append_assoc. reflexivity.
Qed.

(** The sample batch: two of its three actions fail, the session moves to
    the village all the same, and the narrative is annotated with the
    count 2. *)
Lemma C7_partial_failure_annotated_witness :
  (ProcessPlayerInput ex_batch_adapter "" ex_system "session_hero_42" "go").1
  = Ok (LLMResponse.mk
          ("[System Error processing actions: 2 error(s) occurred. The story continues...]"
           +:+ String "010" (String "010" "You walk on."))
          ["Look around"] ex_batch).
Proof.
  refine (proj1 (C7_partial_failure_annotated ex_batch_adapter "" ex_system
                   (mkSystem ex_world
                      (mkManager
                         (<["session_hero_42" :=
                              GameSession.mk "session_hero_42" ex_player "gate"
                                0 42 ["Player: go"]]>
                            (sessions (sys_manager ex_system))))
                      (mkClock (readings ex_clock) 2))
                   "session_hero_42" "go"
                   (GameSession.mk "session_hero_42" ex_player "gate" 0 42
                      ["Player: go"])
                   (LLMResponse.mk "You walk on." ["Look around"] ex_batch)
                   _ _ _)).
  - vm_compute. reflexivity.
  - discriminate.
  - vm_compute. discriminate.
Defined.

(** ** Loading the world *)

(** Both walks of [LoadWorldData] fill a map in the same way: an entry with
    no record leaves the map alone and may add errors; an entry with a
    record adds an error when the record's key is taken or the record
    fails its check, and stores the record under its key otherwise. *)
Section KeyedLoad.
Context {A E : Type}.
Variables (key : A → string) (ok : A → bool) (record : E → option A).
Variable step : gmap string A * list error → E → gmap string A * list error.

Hypothesis step_spec : ∀ (m : gmap string A) (errs : list error) (d : E),
  match record d with
  | None => ∃ more, step (m, errs) d = (m, errs ++ more)
  | Some r =>
      match m !! key r with
      | Some _ => ∃ e, step (m, errs) d = (m, errs ++ [e])
      | None =>
          if ok r then step (m, errs) d = (<[key r := r]> m, errs)
          else ∃ e, step (m, errs) d = (m, errs ++ [e])
      end
  end.

Lemma keyed_step_grows (m : gmap string A) (errs : list error) (d : E) :
  (∃ more, (step (m, errs) d).2 = errs ++ more) ∧
  (∀ k v, m !! k = Some v → (step (m, errs) d).1 !! k = Some v).
Proof.
  pose proof (step_spec m errs d) as Hs.
  destruct (record d) as [r|].
  - destruct (m !! key r) as [old|] eqn:Hkey.
    + destruct Hs as [e ->]. split; [by eexists|done].
    + destruct (ok r).
      * rewrite Hs. split; [exists []; by rewrite app_nil_r|].
        intros k v Hk. cbn [fst]. rewrite lookup_insert_ne; [done|congruence].
      * destruct Hs as [e ->]. split; [by eexists|done].
  - destruct Hs as [more ->]. split; [by eexists|done].
Qed.

Lemma keyed_fold_grows (es : list E) (m : gmap string A) (errs : list error) :
  (∃ more, (fold_left step es (m, errs)).2 = errs ++ more) ∧
  (∀ k v, m !! k = Some v → (fold_left step es (m, errs)).1 !! k = Some v).
Proof.
  revert m errs. induction es as [|d es IH]; intros m errs.
  - split; [exists []; by rewrite app_nil_r|done].
  - cbn [fold_left].
    destruct (keyed_step_grows m errs d) as [[more1 He1] Hm1].
    destruct (step (m, errs) d) as [m1 errs1]. cbn [fst snd] in *. subst errs1.
    destruct (IH m1 (errs ++ more1)) as [[more2 He2] Hm2]. split.
    + exists (more1 ++ more2). by rewrite He2, app_assoc.
    + intros k v Hk. by apply Hm2, Hm1.
Qed.

Lemma keyed_fold_errors_stay (es : list E) (m : gmap string A) (errs : list error) :
  errs ≠ [] → (fold_left step es (m, errs)).2 ≠ [].
Proof.
  intros Hne. destruct (keyed_fold_grows es m errs) as [[more ->] _].
  by destruct errs.
Qed.

(** The keys stored: those already there, and those of the records that
    pass the check. *)
Lemma keyed_fold_domain (es : list E) (m : gmap string A) (errs : list error)
    (k : string) :
  is_Some ((fold_left step es (m, errs)).1 !! k) ↔
  is_Some (m !! k) ∨ ∃ r, r ∈ omap record es ∧ key r = k ∧ ok r = true.
Proof.
  revert m errs. induction es as [|d es IH]; intros m errs.
  - cbn. split; [by left|]. intros [?|(r & Hr & _)]; [done|].
    by apply elem_of_nil in Hr.
  - cbn [fold_left]. pose proof (step_spec m errs d) as Hs.
    assert (Hcons : omap record (d :: es)
                    = match record d with
                      | Some r => r :: omap record es
                      | None => omap record es
                      end) by reflexivity.
    rewrite Hcons. clear Hcons.
    destruct (record d) as [r|].
    + destruct (m !! key r) as [old|] eqn:Hkey.
      * destruct Hs as [e ->]. rewrite IH. split.
        -- intros [?|(r' & Hr' & ?)]; [by left|].
           right. exists r'. split; [by apply elem_of_cons; right|done].
        -- intros [?|(r' & Hr' & Hk & Hok)]; [by left|].
           apply elem_of_cons in Hr' as [->|Hr'].
           ++ left. rewrite <- Hk, Hkey. by eexists.
           ++ right. by exists r'.
      * destruct (ok r) eqn:Hokr.
        -- rewrite Hs, IH. split.
           ++ intros [Hin|(r' & Hr' & ?)].
              ** destruct (decide (key r = k)) as [<-|Hne].
                 --- right. exists r. split; [by apply elem_of_cons; left|done].
                 --- left. by rewrite lookup_insert_ne in Hin.
              ** right. exists r'. split; [by apply elem_of_cons; right|done].
           ++ intros [Hin|(r' & Hr' & Hk & Hok)].
              ** left. destruct (decide (key r = k)) as [<-|Hne].
                 --- rewrite lookup_insert_eq. by eexists.
                 --- by rewrite lookup_insert_ne.
              ** apply elem_of_cons in Hr' as [->|Hr'].
                 --- left. rewrite <- Hk, lookup_insert_eq. by eexists.
                 --- right. by exists r'.
        -- destruct Hs as [e ->]. rewrite IH. split.
           ++ intros [?|(r' & Hr' & ?)]; [by left|].
              right. exists r'. split; [by apply elem_of_cons; right|done].
           ++ intros [?|(r' & Hr' & Hk & Hok)]; [by left|].
              apply elem_of_cons in Hr' as [->|Hr']; [congruence|].
              right. by exists r'.
    + destruct Hs as [more ->]. apply IH.
Qed.
Lemma omap_record_cons (d : E) (es : list E) :
  omap record (d :: es)
  = match record d with
    | Some r => r :: omap record es
    | None => omap record es
    end.
Proof. reflexivity. Qed.

(** A record that fails its check leaves an error. *)
Lemma keyed_fold_bad_record (es : list E) (m : gmap string A)
    (errs : list error) (r : A) :
  r ∈ omap record es → ok r = false →
  (fold_left step es (m, errs)).2 ≠ [].
Proof.
  revert m errs. induction es as [|d es IH]; intros m errs Hr Hbad.
  - by apply elem_of_nil in Hr.
  - cbn [fold_left]. rewrite omap_record_cons in Hr.
    pose proof (step_spec m errs d) as Hs.
    destruct (record d) as [r0|].
    + apply elem_of_cons in Hr as [->|Hr].
      * assert (∃ e, step (m, errs) d = (m, errs ++ [e])) as [e ->].
        { destruct (m !! key r0); [exact Hs|]. by rewrite Hbad in Hs. }
        apply keyed_fold_errors_stay. by destruct errs.
      * destruct (step (m, errs) d) as [m1 errs1]. by apply IH.
    + destruct (step (m, errs) d) as [m1 errs1]. by apply IH.
Qed.

(** A record whose key is already stored leaves an error. *)
Lemma keyed_fold_taken (es : list E) (m : gmap string A)
    (errs : list error) (r : A) :
  r ∈ omap record es → is_Some (m !! key r) →
  (fold_left step es (m, errs)).2 ≠ [].
Proof.
  revert m errs. induction es as [|d es IH]; intros m errs Hr Htaken.
  - by apply elem_of_nil in Hr.
  - cbn [fold_left]. rewrite omap_record_cons in Hr.
    pose proof (step_spec m errs d) as Hs.
    destruct (keyed_step_grows m errs d) as [_ Hkeep].
    destruct (record d) as [r0|].
    + apply elem_of_cons in Hr as [->|Hr].
      * destruct Htaken as [old Hold]. rewrite Hold in Hs.
        destruct Hs as [e ->].
        apply keyed_fold_errors_stay. by destruct errs.
      * destruct (step (m, errs) d) as [m1 errs1]. apply IH; [done|].
        destruct Htaken as [old Hold]. exists old. by apply Hkeep.
    + destruct (step (m, errs) d) as [m1 errs1]. apply IH; [done|].
      destruct Htaken as [old Hold]. exists old. by apply Hkeep.
Qed.

(** Two records with one key leave an error. *)
Lemma keyed_fold_duplicate (es : list E) (m : gmap string A) (errs : list error) :
  ¬ NoDup (key <$> omap record es) →
  (fold_left step es (m, errs)).2 ≠ [].
Proof.
  revert m errs. induction es as [|d es IH]; intros m errs Hdup.
  - exfalso. apply Hdup. constructor.
  - cbn [fold_left]. rewrite omap_record_cons in Hdup.
    pose proof (step_spec m errs d) as Hs.
    destruct (record d) as [r0|].
    + rewrite fmap_cons, NoDup_cons in Hdup.
      destruct (decide (key r0 ∈ key <$> omap record es)) as [Hin|Hnotin].
      * apply list_elem_of_fmap in Hin as (r & Hkey & Hr).
        destruct (m !! key r0) as [old|] eqn:Hk0.
        -- destruct Hs as [e ->]. apply keyed_fold_errors_stay. by destruct errs.
        -- destruct (ok r0).
           ++ rewrite Hs. apply (keyed_fold_taken es _ errs r Hr).
              rewrite <- Hkey, lookup_insert_eq. by eexists.
           ++ destruct Hs as [e ->]. apply keyed_fold_errors_stay.
              by destruct errs.
      * destruct (step (m, errs) d) as [m1 errs1]. apply IH.
        intros Hnd. by apply Hdup.
    + destruct (step (m, errs) d) as [m1 errs1]. by apply IH.
Qed.

(** Without any error, every record is stored under its key. *)
Lemma keyed_fold_clean (es : list E) (m : gmap string A) (errs : list error) (r : A) :
  (fold_left step es (m, errs)).2 = [] → r ∈ omap record es →
  (fold_left step es (m, errs)).1 !! key r = Some r.
Proof.
  revert m errs. induction es as [|d es IH]; intros m errs Hclean Hr.
  - by apply elem_of_nil in Hr.
  - cbn [fold_left] in *. rewrite omap_record_cons in Hr.
    pose proof (step_spec m errs d) as Hs.
    assert (Hadded : ∀ e m1, step (m, errs) d = (m1, errs ++ [e]) → False).
    { intros e m1 Heq. rewrite Heq in Hclean.
      revert Hclean. apply keyed_fold_errors_stay. by destruct errs. }
    destruct (record d) as [r0|].
    + destruct (m !! key r0) as [old|] eqn:Hk0.
      { destruct Hs as [e Heq]. by destruct (Hadded e m). }
      destruct (ok r0).
      2:{ destruct Hs as [e Heq]. by destruct (Hadded e m). }
      rewrite Hs in *. apply elem_of_cons in Hr as [->|Hr].
      * apply keyed_fold_grows. apply lookup_insert_eq.
      * by apply IH.
    + destruct (step (m, errs) d) as [m1 errs1]. by apply IH.
Qed.
End KeyedLoad.

Lemma load_theme_entry_spec (m : gmap string ThemeDefinition.t)
    (errs : list error) (d : DirEntry ThemeDefinition.t) :
  match entry_record ThemeDefinition.ID ThemeDefinition.with_ID d with
  | None => ∃ more, load_theme_entry (m, errs) d = (m, errs ++ more)
  | Some r =>
      match m !! ThemeDefinition.ID r with
      | Some _ => ∃ e, load_theme_entry (m, errs) d = (m, errs ++ [e])
      | None =>
          if (λ _ : ThemeDefinition.t, true) r
          then load_theme_entry (m, errs) d = (<[ThemeDefinition.ID r := r]> m, errs)
          else ∃ e, load_theme_entry (m, errs) d = (m, errs ++ [e])
      end
  end.
Proof.
  unfold entry_record, load_theme_entry.
  destruct (is_json_file d); [|exists []; by rewrite app_nil_r].
  destruct (d_file d) as [err|err|theme0]; [by eexists|by eexists|].
  cbv zeta.
  destruct (m !! ThemeDefinition.ID _) eqn:Hk; [by eexists|reflexivity].
Qed.

Lemma load_location_entry_spec (ths : gmap string ThemeDefinition.t)
    (m : gmap string LocationNode.t) (errs : list error)
    (d : DirEntry LocationNode.t) :
  match entry_record LocationNode.ID LocationNode.with_ID d with
  | None => ∃ more, load_location_entry ths (m, errs) d = (m, errs ++ more)
  | Some r =>
      match m !! LocationNode.ID r with
      | Some _ => ∃ e, load_location_entry ths (m, errs) d = (m, errs ++ [e])
      | None =>
          if location_theme_ok ths r
          then load_location_entry ths (m, errs) d
               = (<[LocationNode.ID r := r]> m, errs)
          else ∃ e, load_location_entry ths (m, errs) d = (m, errs ++ [e])
      end
  end.
Proof.
  unfold entry_record, load_location_entry.
  destruct (is_json_file d); [|exists []; by rewrite app_nil_r].
  destruct (d_file d) as [err|err|loc0]; [by eexists|by eexists|].
  cbv zeta. set (loc := if decide (LocationNode.ID loc0 = "") then _ else _).
  destruct (m !! LocationNode.ID loc) eqn:Hk; [by eexists|].
  unfold location_theme_ok.
  destruct (decide (LocationNode.ThemeID loc ≠ "")) as [Hne|Hempty].
  - destruct (ths !! LocationNode.ThemeID loc) as [th|] eqn:Hth.
    + rewrite bool_decide_eq_true_2; [reflexivity|]. right. by eexists.
    + rewrite bool_decide_eq_false_2; [by eexists|].
      intros [?|[? ?]]; [done|congruence].
  - rewrite bool_decide_eq_true_2; [reflexivity|].
    left. by destruct (decide (LocationNode.ThemeID loc = "")).
Qed.

(** The post-load validation only adds errors, and adds one for a stored
    location with an adjacency id that is not stored. *)
Lemma adjacency_scan_grows (locs : gmap string LocationNode.t)
    (name id : string) (adj : list string) (acc : list error) :
  ∃ more,
    fold_left
      (fun errs adjID =>
         match locs !! adjID with
         | Some _ => errs
         | None =>
             errs ++
               ["location '" +:+ name +:+ "' (" +:+ id +:+
                ") references non-existent adjacent location ID '" +:+
                adjID +:+ "'"]
         end) adj acc
    = acc ++ more.
Proof.
  revert acc. induction adj as [|a adj IH]; intros acc; cbn [fold_left].
  - exists []. by rewrite app_nil_r.
  - destruct (locs !! a); [apply IH|].
    match goal with
    | |- ∃ more, fold_left _ _ ?x = _ => destruct (IH x) as [more ->]
    end.
    eexists. by rewrite <- app_assoc.
Qed.

Lemma check_adjacency_grows (locs : gmap string LocationNode.t)
    (errs : list error) (loc : LocationNode.t) :
  ∃ more, check_adjacency locs errs loc = errs ++ more.
Proof. apply adjacency_scan_grows. Qed.

Lemma check_adjacency_dangling (locs : gmap string LocationNode.t)
    (errs : list error) (loc : LocationNode.t) (adjID : string) :
  adjID ∈ LocationNode.AdjacentIDs loc → locs !! adjID = None →
  check_adjacency locs errs loc ≠ [].
Proof.
  unfold check_adjacency. generalize (LocationNode.Name loc) as name.
  generalize (LocationNode.ID loc) as id.
  generalize (LocationNode.AdjacentIDs loc) as adj.
  intros adj id name Hin Hnone. revert errs.
  induction adj as [|a adj IH]; intros errs.
  - by apply elem_of_nil in Hin.
  - cbn [fold_left]. apply elem_of_cons in Hin as [<-|Hin].
    + rewrite Hnone.
      match goal with
      | |- fold_left _ _ ?x ≠ [] =>
          destruct (adjacency_scan_grows locs name id adj x) as [more ->]
      end.
      by destruct errs.
    + by apply IH.
Qed.

Lemma check_adjacency_fold_grows (locs : gmap string LocationNode.t)
    (stored : list LocationNode.t) (errs : list error) :
  ∃ more, fold_left (check_adjacency locs) stored errs = errs ++ more.
Proof.
  revert errs. induction stored as [|loc stored IH]; intros errs.
  - exists []. by rewrite app_nil_r.
  - cbn [fold_left]. destruct (check_adjacency_grows locs errs loc) as [m1 ->].
    destruct (IH (errs ++ m1)) as [m2 ->]. eexists. by rewrite <- app_assoc.
Qed.

Lemma check_adjacency_fold_dangling (locs : gmap string LocationNode.t)
    (stored : list LocationNode.t) (errs : list error)
    (loc : LocationNode.t) (adjID : string) :
  loc ∈ stored → adjID ∈ LocationNode.AdjacentIDs loc → locs !! adjID = None →
  fold_left (check_adjacency locs) stored errs ≠ [].
Proof.
  intros Hloc Hadj Hnone. revert errs.
  induction stored as [|l stored IH]; intros errs.
  - by apply elem_of_nil in Hloc.
  - cbn [fold_left]. apply elem_of_cons in Hloc as [<-|Hloc].
    + destruct (check_adjacency_fold_grows locs stored
                  (check_adjacency locs errs loc)) as [more ->].
      pose proof (check_adjacency_dangling locs errs loc adjID Hadj Hnone).
      by destruct (check_adjacency locs errs loc).
    + by apply IH.
Qed.

(** A walk whose callback returns [nil] at every entry visits them all and
    returns [nil]. *)
Lemma walkDir_returns_nil {A S : Type} (step : S → DirEntry A → S)
    (fn : S → option (DirEntry A) → S * completion (option error))
    (entries : list (DirEntry A)) (st : S) :
  (∀ st d, fn st (Some d) = (step st d, Returns None)) →
  walkDir fn entries st = (fold_left step entries st, Returns None).
Proof.
  intros Hfn. revert st. induction entries as [|d rest IH]; intros st.
  - reflexivity.
  - cbn [walkDir fold_left]. rewrite Hfn. apply IH.
Qed.

(** The three ways through [LoadWorldData]: the theme root is refused, the
    location root is refused, or both walks run.  Neither walk returns an
    error, so no "error walking ... directory" message is ever added. *)
Lemma LoadWorldData_unfold (ws : InMemoryWorldSystem)
    (locationDir : Dir LocationNode.t) (themeDir : Dir ThemeDefinition.t) :
  let T := fold_left load_theme_entry (dir_entries themeDir) (∅, []) in
  let L :=
    fold_left (load_location_entry T.1) (dir_entries locationDir) (∅, T.2) in
  let e3 :=
    fold_left (check_adjacency L.1)
      (snd <$> (map_to_list L.1 : list (string * LocationNode.t))) L.2 in
  LoadWorldData ws locationDir themeDir
  = match dir_lstat_err themeDir, dir_lstat_err locationDir with
    | Some _, _ => (mkWorld ∅ ∅, Panics)
    | None, Some _ => (mkWorld ∅ T.1, Panics)
    | None, None =>
        (mkWorld L.1 T.1,
         Returns (if decide (0 < length e3)
                  then Some "errors during world data loading" else None))
    end.
Proof.
  unfold LoadWorldData. cbn [themes locations].
  destruct themeDir as [tpath tentries|tpath terr];
    cbn [WalkDir dir_lstat_err dir_entries dir_path theme_callback];
    [|reflexivity].
  rewrite (walkDir_returns_nil load_theme_entry) by reflexivity.
  destruct (fold_left load_theme_entry _ _) as [ths e1]. cbn [fst snd walk_error].
  rewrite app_nil_r.
  destruct locationDir as [lpath lentries|lpath lerr];
    cbn [WalkDir dir_lstat_err dir_entries dir_path location_callback];
    [|reflexivity].
  rewrite (walkDir_returns_nil (load_location_entry ths)) by reflexivity.
  destruct (fold_left (load_location_entry ths) _ _) as [locs e2].
  cbn [fst snd walk_error]. rewrite app_nil_r. reflexivity.
Qed.

(** The maps a load leaves, however it ends. *)
Lemma LoadWorldData_themes (ws : InMemoryWorldSystem)
    (locationDir : Dir LocationNode.t) (themeDir : Dir ThemeDefinition.t) :
  themes (LoadWorldData ws locationDir themeDir).1
  = (fold_left load_theme_entry (dir_entries themeDir) (∅, [])).1.
Proof.
  rewrite LoadWorldData_unfold. cbv zeta.
  destruct themeDir as [tpath tentries|tpath terr];
    destruct locationDir as [lpath lentries|lpath lerr]; reflexivity.
Qed.

Lemma LoadWorldData_locations (ws : InMemoryWorldSystem)
    (locationDir : Dir LocationNode.t) (themeDir : Dir ThemeDefinition.t) :
  let T := fold_left load_theme_entry (dir_entries themeDir) (∅, []) in
  dir_lstat_err themeDir = None →
  locations (LoadWorldData ws locationDir themeDir).1
  = (fold_left (load_location_entry T.1) (dir_entries locationDir) (∅, T.2)).1.
Proof.
  intros T Hroot. rewrite LoadWorldData_unfold. cbv zeta. rewrite Hroot.
  destruct locationDir as [lpath lentries|lpath lerr]; reflexivity.
Qed.

Lemma loaded_themes_domain (themeDir : Dir ThemeDefinition.t) (id : string) :
  is_Some ((fold_left load_theme_entry (dir_entries themeDir) (∅, [])).1 !! id) ↔
  id ∈ ThemeDefinition.ID <$> parsed_themes themeDir.
Proof.
  rewrite (keyed_fold_domain ThemeDefinition.ID (λ _, true)
             (entry_record ThemeDefinition.ID ThemeDefinition.with_ID)
             load_theme_entry load_theme_entry_spec).
  rewrite lookup_empty, list_elem_of_fmap. fold (parsed_themes themeDir). split.
  - intros [[? ?]|(r & Hr & Hk & _)]; [done|]. by exists r.
  - intros (r & Hk & Hr). right. by exists r.
Qed.

Lemma location_theme_ok_resolves (themeDir : Dir ThemeDefinition.t)
    (loc : LocationNode.t) :
  location_theme_ok
    (fold_left load_theme_entry (dir_entries themeDir) (∅, [])).1 loc = true ↔
  theme_resolves themeDir loc.
Proof.
  unfold location_theme_ok, theme_resolves.
  rewrite bool_decide_eq_true, loaded_themes_domain. reflexivity.
Qed.







(** A load without defect succeeds and stores every entry, here with the
    identifiers "moss" and "Village" taken from the file names. *)
Example load_without_defect :
  let after := LoadWorldData ex_world ex_good_location_dir ex_good_theme_dir in
  after.2 = Returns None ∧
  GetTheme after.1 "moss" = Ok (ThemeDefinition.mk "moss" "Moss") ∧
  IsAdjacent after.1 "Village" "gate" = Ok true ∧
  IsAdjacent after.1 "gate" "tower" = Ok true ∧
  IsAdjacent after.1 "tower" "gate" = Ok false ∧
  GetLocation after.1 "village" = Err "location with ID 'village' not found".
Proof. repeat split; vm_compute; reflexivity. Qed.

(** A load whose location directory does not exist panics after the theme
    walk, which leaves the themes it stored and no location. *)
Example load_with_missing_root :
  let after :=
    LoadWorldData ex_world ex_missing_location_dir ex_twin_theme_dir in
  after.2 = Panics ∧
  GetTheme after.1 "stone" = Ok (ThemeDefinition.mk "stone" "Stone") ∧
  GetAllLocationIDs after.1 = [].
Proof. repeat split; vm_compute; reflexivity. Qed.

(** * Further properties *)

(** ** Loading, continued *)

Section KeyedLoadMore.
Context {A E : Type}.
Variables (key : A → string) (ok : A → bool) (record : E → option A).
Variable step : gmap string A * list error → E → gmap string A * list error.

Hypothesis step_spec : ∀ (m : gmap string A) (errs : list error) (d : E),
  match record d with
  | None => ∃ more, step (m, errs) d = (m, errs ++ more)
  | Some r =>
      match m !! key r with
      | Some _ => ∃ e, step (m, errs) d = (m, errs ++ [e])
      | None =>
          if ok r then step (m, errs) d = (<[key r := r]> m, errs)
          else ∃ e, step (m, errs) d = (m, errs ++ [e])
      end
  end.

(** What is stored was there before or is a record that passed its check,
    under its key. *)
Lemma keyed_fold_values (es : list E) (m : gmap string A) (errs : list error)
    (k : string) (v : A) :
  (fold_left step es (m, errs)).1 !! k = Some v →
  m !! k = Some v ∨ (v ∈ omap record es ∧ key v = k ∧ ok v = true).
Proof.
  revert m errs. induction es as [|d es IH]; intros m errs Hv.
  - by left.
  - cbn [fold_left] in Hv. rewrite (omap_record_cons record).
    pose proof (step_spec m errs d) as Hs.
    destruct (record d) as [r|].
    + destruct (m !! key r) as [old|] eqn:Hkey.
      * destruct Hs as [e Hs]. rewrite Hs in Hv.
        destruct (IH _ _ Hv) as [?|(? & ? & ?)]; [by left|].
        right. split; [by apply elem_of_cons; right|done].
      * destruct (ok r) eqn:Hok.
        -- rewrite Hs in Hv. destruct (IH _ _ Hv) as [Hin|(? & ? & ?)].
           ++ destruct (decide (key r = k)) as [<-|Hne].
              ** rewrite lookup_insert_eq in Hin. injection Hin as <-.
                 right. split; [by apply elem_of_cons; left|done].
              ** rewrite lookup_insert_ne in Hin by done. by left.
           ++ right. split; [by apply elem_of_cons; right|done].
        -- destruct Hs as [e Hs]. rewrite Hs in Hv.
           destruct (IH _ _ Hv) as [?|(? & ? & ?)]; [by left|].
           right. split; [by apply elem_of_cons; right|done].
    + destruct Hs as [more Hs]. rewrite Hs in Hv. exact (IH _ _ Hv).
Qed.

(** An entry that always adds an error leaves one at the end. *)
Lemma keyed_fold_failing_entry (es : list E) (m : gmap string A)
    (errs : list error) (d : E) :
  d ∈ es → (∀ m errs, (step (m, errs) d).2 ≠ []) →
  (fold_left step es (m, errs)).2 ≠ [].
Proof.
  revert m errs. induction es as [|d0 es IH]; intros m errs Hd Hfails.
  - by apply elem_of_nil in Hd.
  - cbn [fold_left]. apply elem_of_cons in Hd as [<-|Hd].
    + pose proof (Hfails m errs) as Hne.
      destruct (step (m, errs) d) as [m1 errs1].
      by apply (keyed_fold_errors_stay key ok record step step_spec).
    + destruct (step (m, errs) d0) as [m1 errs1]. by apply IH.
Qed.

(** When the keys of the records are free and pairwise different, the
    records pass their checks and the other entries add nothing, no error
    is added. *)
Lemma keyed_fold_no_error (es : list E) (m : gmap string A) (errs : list error) :
  NoDup (key <$> omap record es) →
  (∀ r, r ∈ omap record es → ok r = true ∧ m !! key r = None) →
  (∀ d, d ∈ es → record d = None → ∀ m errs, step (m, errs) d = (m, errs)) →
  (fold_left step es (m, errs)).2 = errs.
Proof.
  revert m errs. induction es as [|d es IH]; intros m errs Hnd Hrec Hidle.
  - reflexivity.
  - cbn [fold_left]. rewrite (omap_record_cons record) in Hnd, Hrec.
    pose proof (step_spec m errs d) as Hs.
    destruct (record d) as [r|] eqn:Hr.
    + destruct (Hrec r) as [Hok Hfree]; [by apply elem_of_cons; left|].
      rewrite Hfree, Hok in Hs. rewrite Hs.
      rewrite fmap_cons in Hnd. apply NoDup_cons in Hnd as [Hnotin Hnd].
      apply IH; [done| |].
      * intros r' Hr'. destruct (Hrec r') as [Hok' Hfree'];
          [by apply elem_of_cons; right|].
        split; [done|]. rewrite lookup_insert_ne; [done|].
        intros Heq. apply Hnotin. rewrite Heq.
        apply list_elem_of_fmap. by exists r'.
      * intros d' Hd'. apply Hidle. by apply elem_of_cons; right.
    + assert (Hd : d ∈ d :: es) by (apply elem_of_cons; by left).
      rewrite (Hidle d Hd Hr m errs).
      apply IH; [done|done|].
      intros d' Hd'. apply Hidle. by apply elem_of_cons; right.
Qed.
End KeyedLoadMore.

Lemma load_theme_entry_fails (d : DirEntry ThemeDefinition.t)
    (m : gmap string ThemeDefinition.t) (errs : list error) :
  entry_fails d → (load_theme_entry (m, errs) d).2 ≠ [].
Proof.
  intros [Hjson [err [Hf|Hf]]]; unfold load_theme_entry;
    rewrite Hjson, Hf; cbn [snd]; by destruct errs.
Qed.

Lemma load_location_entry_fails (ths : gmap string ThemeDefinition.t)
    (d : DirEntry LocationNode.t) (m : gmap string LocationNode.t)
    (errs : list error) :
  entry_fails d → (load_location_entry ths (m, errs) d).2 ≠ [].
Proof.
  intros [Hjson [err [Hf|Hf]]]; unfold load_location_entry;
    rewrite Hjson, Hf; cbn [snd]; by destruct errs.
Qed.

Lemma load_theme_entry_idle (d : DirEntry ThemeDefinition.t) :
  ¬ entry_fails d →
  entry_record ThemeDefinition.ID ThemeDefinition.with_ID d = None →
  ∀ m errs, load_theme_entry (m, errs) d = (m, errs).
Proof.
  intros Hfine Hnone m errs. unfold entry_record in Hnone.
  unfold load_theme_entry.
  destruct (is_json_file d) eqn:Hjson; [|reflexivity].
  destruct (d_file d) as [err|err|th] eqn:Hf; [| |discriminate];
    exfalso; apply Hfine; (split; [done|exists err; auto]).
Qed.

Lemma load_location_entry_idle (ths : gmap string ThemeDefinition.t)
    (d : DirEntry LocationNode.t) :
  ¬ entry_fails d →
  entry_record LocationNode.ID LocationNode.with_ID d = None →
  ∀ m errs, load_location_entry ths (m, errs) d = (m, errs).
Proof.
  intros Hfine Hnone m errs. unfold entry_record in Hnone.
  unfold load_location_entry.
  destruct (is_json_file d) eqn:Hjson; [|reflexivity].
  destruct (d_file d) as [err|err|th] eqn:Hf; [| |discriminate];
    exfalso; apply Hfine; (split; [done|exists err; auto]).
Qed.

Lemma check_adjacency_resolved (locs : gmap string LocationNode.t)
    (errs : list error) (loc : LocationNode.t) :
  (∀ adjID, adjID ∈ LocationNode.AdjacentIDs loc → is_Some (locs !! adjID)) →
  check_adjacency locs errs loc = errs.
Proof.
  unfold check_adjacency. generalize (LocationNode.AdjacentIDs loc) as adj.
  intros adj Hall. induction adj as [|a adj IH]; [reflexivity|].
  cbn [fold_left]. destruct (Hall a) as [l ->]; [by apply elem_of_cons; left|].
  apply IH. intros adjID Hin. apply Hall. by apply elem_of_cons; right.
Qed.

Lemma check_adjacency_fold_resolved (locs : gmap string LocationNode.t)
    (stored : list LocationNode.t) (errs : list error) :
  (∀ loc adjID, loc ∈ stored → adjID ∈ LocationNode.AdjacentIDs loc →
                is_Some (locs !! adjID)) →
  fold_left (check_adjacency locs) stored errs = errs.
Proof.
  intros Hall. induction stored as [|loc stored IH]; [reflexivity|].
  cbn [fold_left]. rewrite check_adjacency_resolved.
  - apply IH. intros l a Hl. apply Hall. by apply elem_of_cons; right.
  - intros a. apply Hall. by apply elem_of_cons; left.
Qed.

Lemma app_nil_inv {A} (l k : list A) : l ++ k = [] → l = [] ∧ k = [].
Proof. destruct l; [by intros Hk; simpl in Hk|discriminate]. Qed.

(** When [LoadWorldData] returns no error: both roots were accepted and
    the error list it ends with is empty. *)
Lemma LoadWorldData_nil_iff (ws : InMemoryWorldSystem)
    (locationDir : Dir LocationNode.t) (themeDir : Dir ThemeDefinition.t) :
  let T := fold_left load_theme_entry (dir_entries themeDir) (∅, []) in
  let L :=
    fold_left (load_location_entry T.1) (dir_entries locationDir) (∅, T.2) in
  let e3 :=
    fold_left (check_adjacency L.1)
      (snd <$> (map_to_list L.1 : list (string * LocationNode.t))) L.2 in
  (LoadWorldData ws locationDir themeDir).2 = Returns None ↔
  dir_lstat_err themeDir = None ∧ dir_lstat_err locationDir = None ∧ e3 = [].
Proof.
  intros T L e3. rewrite LoadWorldData_unfold. cbv zeta.
  fold T. fold L. fold e3.
  destruct (dir_lstat_err themeDir) as [terr|].
  { split; [discriminate|]. intros (? & _). discriminate. }
  destruct (dir_lstat_err locationDir) as [lerr|].
  { split; [discriminate|]. intros (_ & ? & _). discriminate. }
  cbn [snd]. destruct e3 as [|e es].
  - rewrite decide_False by (simpl; lia). done.
  - rewrite decide_True by (simpl; lia).
    split; [discriminate|]. intros (_ & _ & ?). discriminate.
Qed.

(** How a load ends is decided by the two roots alone: it panics exactly
    when [os.Lstat] refuses one of them. *)
Lemma LoadWorldData_panics_iff (ws : InMemoryWorldSystem)
    (locationDir : Dir LocationNode.t) (themeDir : Dir ThemeDefinition.t) :
  (LoadWorldData ws locationDir themeDir).2 = Panics ↔
  is_Some (dir_lstat_err themeDir) ∨ is_Some (dir_lstat_err locationDir).
Proof.
  rewrite LoadWorldData_unfold. cbv zeta.
  destruct (dir_lstat_err themeDir) as [terr|].
  { split; [|done]. intros _. left. by eexists. }
  destruct (dir_lstat_err locationDir) as [lerr|].
  { split; [|done]. intros _. right. by eexists. }
  cbn [snd]. split; [discriminate|].
  intros [[? ?]|[? ?]]; discriminate.
Qed.

Lemma LoadWorldData_returns (ws : InMemoryWorldSystem)
    (locationDir : Dir LocationNode.t) (themeDir : Dir ThemeDefinition.t) :
  (LoadWorldData ws locationDir themeDir).2 = Panics ∨
  (LoadWorldData ws locationDir themeDir).2 = Returns None ∨
  (LoadWorldData ws locationDir themeDir).2
  = Returns (Some "errors during world data loading").
Proof.
  rewrite LoadWorldData_unfold. cbv zeta.
  destruct (dir_lstat_err themeDir) as [terr|]; [by left|].
  destruct (dir_lstat_err locationDir) as [lerr|]; [by left|].
  cbn [snd]. right. destruct (decide _); [by right|by left].
Qed.

Local Abbreviation loaded_themes td :=
  (fold_left load_theme_entry (dir_entries td) (∅, [])).
Local Abbreviation loaded_locations ld td e :=
  (fold_left (load_location_entry (loaded_themes td).1) (dir_entries ld) (∅, e)).

Lemma loaded_themes_values (themeDir : Dir ThemeDefinition.t) (k : string)
    (theme : ThemeDefinition.t) :
  (loaded_themes themeDir).1 !! k = Some theme →
  theme ∈ parsed_themes themeDir ∧ ThemeDefinition.ID theme = k.
Proof.
  intros Hk.
  apply (keyed_fold_values ThemeDefinition.ID (λ _, true)
           (entry_record ThemeDefinition.ID ThemeDefinition.with_ID)
           load_theme_entry load_theme_entry_spec) in Hk
    as [Hk|(Hin & Hid & _)]; [by rewrite lookup_empty in Hk|done].
Qed.

Lemma loaded_themes_clean (themeDir : Dir ThemeDefinition.t)
    (theme : ThemeDefinition.t) :
  (loaded_themes themeDir).2 = [] → theme ∈ parsed_themes themeDir →
  (loaded_themes themeDir).1 !! ThemeDefinition.ID theme = Some theme.
Proof.
  apply (keyed_fold_clean ThemeDefinition.ID (λ _, true)
           (entry_record ThemeDefinition.ID ThemeDefinition.with_ID)
           load_theme_entry load_theme_entry_spec).
Qed.

Lemma loaded_locations_values (locationDir : Dir LocationNode.t)
    (themeDir : Dir ThemeDefinition.t) (errs : list error) (k : string)
    (loc : LocationNode.t) :
  (loaded_locations locationDir themeDir errs).1 !! k = Some loc →
  loc ∈ parsed_locations locationDir ∧ LocationNode.ID loc = k ∧
  theme_resolves themeDir loc.
Proof.
  intros Hk.
  apply (keyed_fold_values LocationNode.ID
           (location_theme_ok (loaded_themes themeDir).1)
           (entry_record LocationNode.ID LocationNode.with_ID)
           (load_location_entry (loaded_themes themeDir).1)
           (load_location_entry_spec (loaded_themes themeDir).1)) in Hk
    as [Hk|(Hin & Hid & Hok)]; [by rewrite lookup_empty in Hk|].
  split; [done|]. split; [done|]. by apply location_theme_ok_resolves.
Qed.

Lemma loaded_locations_clean (locationDir : Dir LocationNode.t)
    (themeDir : Dir ThemeDefinition.t) (errs : list error)
    (loc : LocationNode.t) :
  (loaded_locations locationDir themeDir errs).2 = [] →
  loc ∈ parsed_locations locationDir →
  (loaded_locations locationDir themeDir errs).1 !! LocationNode.ID loc
  = Some loc.
Proof.
  apply (keyed_fold_clean LocationNode.ID
           (location_theme_ok (loaded_themes themeDir).1)
           (entry_record LocationNode.ID LocationNode.with_ID)
           (load_location_entry (loaded_themes themeDir).1)
           (load_location_entry_spec (loaded_themes themeDir).1)).
Qed.

Lemma loaded_locations_errors (locationDir : Dir LocationNode.t)
    (themeDir : Dir ThemeDefinition.t) (errs : list error) :
  ∃ more, (loaded_locations locationDir themeDir errs).2 = errs ++ more.
Proof.
  apply (keyed_fold_grows LocationNode.ID
           (location_theme_ok (loaded_themes themeDir).1)
           (entry_record LocationNode.ID LocationNode.with_ID)
           (load_location_entry (loaded_themes themeDir).1)
           (load_location_entry_spec (loaded_themes themeDir).1)).
Qed.

(** What a load that returns no error went through: both roots were
    accepted and every error list on the way was empty. *)
Lemma LoadWorldData_nil_stages (ws : InMemoryWorldSystem)
    (locationDir : Dir LocationNode.t) (themeDir : Dir ThemeDefinition.t) :
  (LoadWorldData ws locationDir themeDir).2 = Returns None →
  (loaded_themes themeDir).2 = [] ∧ dir_lstat_err themeDir = None ∧
  (loaded_locations locationDir themeDir []).2 = [] ∧
  dir_lstat_err locationDir = None ∧
  fold_left (check_adjacency (loaded_locations locationDir themeDir []).1)
    (snd <$> (map_to_list (loaded_locations locationDir themeDir []).1
              : list (string * LocationNode.t))) [] = [] ∧
  (LoadWorldData ws locationDir themeDir).1
  = mkWorld (loaded_locations locationDir themeDir []).1
      (loaded_themes themeDir).1.
Proof.
  intros Hnil.
  apply LoadWorldData_nil_iff in Hnil as (Hroot1 & Hroot2 & Hnil).
  cbv zeta in Hnil.
  pose proof (LoadWorldData_unfold ws locationDir themeDir) as Hworld.
  cbv zeta in Hworld. rewrite Hroot1, Hroot2 in Hworld.
  apply (f_equal fst) in Hworld. cbn [fst] in Hworld.
  set (e1 := (loaded_themes themeDir).2) in *.
  pose proof Hnil as Hall.
  destruct (check_adjacency_fold_grows
              (loaded_locations locationDir themeDir e1).1
              (snd <$> (map_to_list (loaded_locations locationDir themeDir e1).1
                        : list (string * LocationNode.t)))
              (loaded_locations locationDir themeDir e1).2) as [more3 Hmore3].
  rewrite Hmore3 in Hnil. clear Hmore3.
  apply app_nil_inv in Hnil as [HL _].
  destruct (loaded_locations_errors locationDir themeDir e1) as [more2 Hmore2].
  rewrite HL in Hmore2. symmetry in Hmore2.
  apply app_nil_inv in Hmore2 as [He1 _].
  pose proof He1 as HT. unfold e1 in HT.
  clearbody e1. subst e1.
  rewrite HL in Hall.
  done.
Qed.

Lemma LoadWorldData_clean_nil (ws : InMemoryWorldSystem)
    (locationDir : Dir LocationNode.t) (themeDir : Dir ThemeDefinition.t) :
  load_is_clean locationDir themeDir →
  (LoadWorldData ws locationDir themeDir).2 = Returns None.
Proof.
  intros (Hw1 & Hw2 & Hft & Hfl & Hnth & Hnadj & Hndup).
  assert (Hnd1 : NoDup (ThemeDefinition.ID <$> parsed_themes themeDir)).
  { destruct (decide (NoDup (ThemeDefinition.ID <$> parsed_themes themeDir)));
      [done|]. exfalso. apply Hndup. by left. }
  assert (Hnd2 : NoDup (LocationNode.ID <$> parsed_locations locationDir)).
  { destruct (decide (NoDup (LocationNode.ID <$> parsed_locations locationDir)));
      [done|]. exfalso. apply Hndup. by right. }
  assert (HT : (loaded_themes themeDir).2 = []).
  { apply (keyed_fold_no_error ThemeDefinition.ID (λ _, true)
             (entry_record ThemeDefinition.ID ThemeDefinition.with_ID)
             load_theme_entry load_theme_entry_spec); [done| |].
    - intros r _. split; [done|apply lookup_empty].
    - intros d Hd Hnone. by apply load_theme_entry_idle; [apply Hft|]. }
  assert (HL : (loaded_locations locationDir themeDir []).2 = []).
  { apply (keyed_fold_no_error LocationNode.ID
             (location_theme_ok (loaded_themes themeDir).1)
             (entry_record LocationNode.ID LocationNode.with_ID)
             (load_location_entry (loaded_themes themeDir).1)
             (load_location_entry_spec (loaded_themes themeDir).1)); [done| |].
    - intros r Hr. split; [|apply lookup_empty].
      destruct (location_theme_ok (loaded_themes themeDir).1 r) eqn:Hok; [done|].
      exfalso. apply Hnth. exists r. split; [done|].
      intros Hres. apply location_theme_ok_resolves in Hres. congruence.
    - intros d Hd Hnone. by apply load_location_entry_idle; [apply Hfl|]. }
  apply LoadWorldData_nil_iff. split; [done|]. split; [done|].
  rewrite HT, HL.
  apply check_adjacency_fold_resolved. intros loc adjID Hloc Hadj.
  apply list_elem_of_fmap in Hloc as ([k l] & -> & Hkl). cbn [snd] in Hadj.
  apply elem_of_map_to_list in Hkl.
  apply loaded_locations_values in Hkl as (Hparsed & _ & _).
  destruct (decide (adjID ∈ LocationNode.ID <$> parsed_locations locationDir))
    as [Hin|Hout].
  - apply list_elem_of_fmap in Hin as (r & -> & Hr).
    rewrite (loaded_locations_clean locationDir themeDir [] r HL Hr). by eexists.
  - exfalso. apply Hnadj. by exists l, adjID.
Qed.

(** X1.  How [LoadWorldData] ends.  It returns no error exactly for a
    clean load: [os.Lstat] accepts both directory roots, every JSON file
    visited is read and parsed, no identifier occurs twice among the themes
    or among the locations, and every theme and adjacency reference
    resolves within the load.  It panics exactly when [os.Lstat] refuses a
    root.  In every other case it returns the one error
    "errors during world data loading". *)
Theorem LoadWorldData_succeeds_iff_clean (ws : InMemoryWorldSystem)
    (locationDir : Dir LocationNode.t) (themeDir : Dir ThemeDefinition.t) :
  ((LoadWorldData ws locationDir themeDir).2 = Returns None ↔
   load_is_clean locationDir themeDir) ∧
  ((LoadWorldData ws locationDir themeDir).2 = Panics ↔
   is_Some (dir_lstat_err themeDir) ∨ is_Some (dir_lstat_err locationDir)) ∧
  ((LoadWorldData ws locationDir themeDir).2 ≠ Returns None →
   (LoadWorldData ws locationDir themeDir).2 ≠ Panics →
   (LoadWorldData ws locationDir themeDir).2
   = Returns (Some "errors during world data loading")).
Proof.
  split; [|split; [apply LoadWorldData_panics_iff|]].
  2:{ intros Hnot1 Hnot2.
      by destruct (LoadWorldData_returns ws locationDir themeDir)
        as [?|[?|?]]. }
  split; [|apply LoadWorldData_clean_nil].
  intros Hnil.
  destruct (LoadWorldData_nil_stages ws locationDir themeDir Hnil)
    as (HT & Hw1 & HL & Hw2 & Hadj & _).
  split; [done|]. split; [done|]. split; [|split; [|split; [|split]]].
  - intros d Hd Hfails.
    apply (keyed_fold_failing_entry ThemeDefinition.ID (λ _, true)
             (entry_record ThemeDefinition.ID ThemeDefinition.with_ID)
             load_theme_entry load_theme_entry_spec
             (dir_entries themeDir) ∅ [] d Hd); [|exact HT].
    intros m errs. by apply load_theme_entry_fails.
  - intros d Hd Hfails.
    apply (keyed_fold_failing_entry LocationNode.ID
             (location_theme_ok (loaded_themes themeDir).1)
             (entry_record LocationNode.ID LocationNode.with_ID)
             (load_location_entry (loaded_themes themeDir).1)
             (load_location_entry_spec (loaded_themes themeDir).1)
             (dir_entries locationDir) ∅ [] d Hd); [|exact HL].
    intros m errs. by apply load_location_entry_fails.
  - intros (loc & Hloc & Hbad).
    apply (keyed_fold_bad_record LocationNode.ID
             (location_theme_ok (loaded_themes themeDir).1)
             (entry_record LocationNode.ID LocationNode.with_ID)
             (load_location_entry (loaded_themes themeDir).1)
             (load_location_entry_spec (loaded_themes themeDir).1)
             (dir_entries locationDir) ∅ [] loc Hloc); [|exact HL].
    apply not_true_is_false. intros Hok. apply Hbad.
    by apply location_theme_ok_resolves.
  - intros (loc & adjID & Hloc & Hin & Hout).
    pose proof (loaded_locations_clean locationDir themeDir [] loc HL Hloc)
      as Hstored.
    revert Hadj.
    apply (check_adjacency_fold_dangling _ _ [] loc adjID); [|done|].
    + apply list_elem_of_fmap. exists (LocationNode.ID loc, loc).
      split; [done|]. by apply elem_of_map_to_list.
    + apply eq_None_not_Some. intros [l Hl]. apply Hout.
      apply loaded_locations_values in Hl as (Hl & Hid & _).
      apply list_elem_of_fmap. by exists l.
  - intros [Hdup|Hdup].
    + revert HT.
      by apply (keyed_fold_duplicate ThemeDefinition.ID (λ _, true)
                  (entry_record ThemeDefinition.ID ThemeDefinition.with_ID)
                  load_theme_entry load_theme_entry_spec).
    + revert HL.
      by apply (keyed_fold_duplicate LocationNode.ID
                  (location_theme_ok (loaded_themes themeDir).1)
                  (entry_record LocationNode.ID LocationNode.with_ID)
                  (load_location_entry (loaded_themes themeDir).1)
                  (load_location_entry_spec (loaded_themes themeDir).1)).
Qed.

Lemma LoadWorldData_succeeds_iff_clean_witness :
  load_is_clean ex_good_location_dir ex_good_theme_dir ∧
  (LoadWorldData ex_world ex_missing_location_dir ex_good_theme_dir).2 = Panics.
Proof.
  destruct (LoadWorldData_succeeds_iff_clean ex_world ex_good_location_dir
              ex_good_theme_dir) as [Hclean _].
  destruct (LoadWorldData_succeeds_iff_clean ex_world ex_missing_location_dir
              ex_good_theme_dir) as (_ & Hpanics & _).
  split.
  - apply Hclean. vm_compute. reflexivity.
  - apply Hpanics. right. by eexists.
Defined.

(** The graph a load leaves, however it ends: the themes of the theme
    walk, and the locations of the location walk or, after a panic, none. *)
Lemma LoadWorldData_world (ws : InMemoryWorldSystem)
    (locationDir : Dir LocationNode.t) (themeDir : Dir ThemeDefinition.t) :
  themes (LoadWorldData ws locationDir themeDir).1 = (loaded_themes themeDir).1 ∧
  ∃ errs,
    locations (LoadWorldData ws locationDir themeDir).1
    = (loaded_locations locationDir themeDir errs).1 ∨
    locations (LoadWorldData ws locationDir themeDir).1 = ∅.
Proof.
  split; [apply LoadWorldData_themes|].
  exists (loaded_themes themeDir).2.
  destruct (dir_lstat_err themeDir) as [terr|] eqn:Hroot.
  - right. rewrite LoadWorldData_unfold. cbv zeta. by rewrite Hroot.
  - left. by apply LoadWorldData_locations.
Qed.

(** X2.  After a load that returned no error, every record of the load is
    returned by [GetLocation] or [GetTheme] under its identifier, as
    parsed, and every adjacency identifier of a stored location is itself
    stored. *)
Theorem LoadWorldData_success_round_trip (ws : InMemoryWorldSystem)
    (locationDir : Dir LocationNode.t) (themeDir : Dir ThemeDefinition.t) :
  (LoadWorldData ws locationDir themeDir).2 = Returns None →
  (∀ loc, loc ∈ parsed_locations locationDir →
     GetLocation (LoadWorldData ws locationDir themeDir).1 (LocationNode.ID loc)
     = Ok loc) ∧
  (∀ theme, theme ∈ parsed_themes themeDir →
     GetTheme (LoadWorldData ws locationDir themeDir).1 (ThemeDefinition.ID theme)
     = Ok theme) ∧
  adjacency_closed (LoadWorldData ws locationDir themeDir).1.
Proof.
  intros Hnil.
  destruct (LoadWorldData_nil_stages ws locationDir themeDir Hnil)
    as (HT & _ & HL & _ & Hadj & ->).
  split; [|split].
  - intros loc Hloc. unfold GetLocation. cbn [locations].
    by rewrite (loaded_locations_clean locationDir themeDir [] loc HL Hloc).
  - intros theme Hth. unfold GetTheme. cbn [themes].
    by rewrite (loaded_themes_clean themeDir theme HT Hth).
  - intros k loc adjID Hk Hin. cbn [locations] in *.
    apply not_eq_None_Some. intros Hnone. revert Hadj.
    apply (check_adjacency_fold_dangling _ _ [] loc adjID); [|done|done].
    apply list_elem_of_fmap. exists (k, loc).
    split; [done|]. by apply elem_of_map_to_list.
Qed.

Lemma LoadWorldData_success_round_trip_witness :
  GetLocation (LoadWorldData ex_world ex_good_location_dir ex_good_theme_dir).1
    "tower"
  = Ok (ex_location "tower" [] "").
Proof.
  destruct (LoadWorldData_success_round_trip ex_world ex_good_location_dir
              ex_good_theme_dir) as [Hloc _].
  - vm_compute. reflexivity.
  - apply (Hloc (ex_location "tower" [] "")).
    assert (parsed_locations ex_good_location_dir
            = [ex_location "gate" ["Village"; "tower"] "stone";
               LocationNode.mk "Village" "Village" "" ["gate"] [] "" "moss" ∅;
               ex_location "tower" [] ""]) as -> by (vm_compute; reflexivity).
    do 2 (apply elem_of_cons; right). apply elem_of_cons. by left.
Defined.

(** X3.  After any load, failed or not, the graph holds only records of
    that load, each stored under its own identifier, and no stored location
    names a theme that is not stored. *)
Theorem LoadWorldData_invariants (ws : InMemoryWorldSystem)
    (locationDir : Dir LocationNode.t) (themeDir : Dir ThemeDefinition.t) :
  keys_are_ids (LoadWorldData ws locationDir themeDir).1 ∧
  themes_resolve (LoadWorldData ws locationDir themeDir).1 ∧
  (∀ k loc,
     locations (LoadWorldData ws locationDir themeDir).1 !! k = Some loc →
     loc ∈ parsed_locations locationDir) ∧
  (∀ k theme,
     themes (LoadWorldData ws locationDir themeDir).1 !! k = Some theme →
     theme ∈ parsed_themes themeDir).
Proof.
  destruct (LoadWorldData_world ws locationDir themeDir)
    as [Hthemes [errs Hlocations]].
  assert (Hstored : ∀ k loc,
    locations (LoadWorldData ws locationDir themeDir).1 !! k = Some loc →
    (loaded_locations locationDir themeDir errs).1 !! k = Some loc).
  { intros k loc Hk. destruct Hlocations as [Heq|Heq]; rewrite Heq in Hk;
      [done|by rewrite lookup_empty in Hk]. }
  rewrite Hthemes. split; [split|split; [|split]].
  - intros k loc Hk.
    by apply Hstored, loaded_locations_values in Hk as (_ & ? & _).
  - intros k th Hk. rewrite Hthemes in Hk.
    by apply loaded_themes_values in Hk as [_ ?].
  - intros k loc Hk. rewrite Hthemes.
    apply Hstored, loaded_locations_values in Hk as (_ & _ & [Hempty|Hin]);
      [by left|].
    right. by apply loaded_themes_domain.
  - intros k loc Hk.
    by apply Hstored, loaded_locations_values in Hk as (? & _ & _).
  - intros k th Hk. by apply loaded_themes_values in Hk as [? _].
Qed.

(** ** Queries *)

Lemma GetAdjacentLocations_scan_omap (ws : InMemoryWorldSystem)
    (adjacentIDs : list string) :
  GetAdjacentLocations_scan ws adjacentIDs
  = omap (λ adjID, locations ws !! adjID) adjacentIDs.
Proof.
  induction adjacentIDs as [|a rest IH]; [reflexivity|].
  cbn. destruct (locations ws !! a); by rewrite IH.
Qed.

Lemma GetAdjacentLocations_scan_ids (ws : InMemoryWorldSystem)
    (adjacentIDs : list string) :
  keys_are_ids ws →
  LocationNode.ID <$> GetAdjacentLocations_scan ws adjacentIDs
  = filter (λ adjID, is_Some (locations ws !! adjID)) adjacentIDs.
Proof.
  intros [Hkeys _]. induction adjacentIDs as [|a rest IH]; [reflexivity|].
  cbn [GetAdjacentLocations_scan]. rewrite filter_cons.
  destruct (locations ws !! a) as [loc|] eqn:Ha.
  - rewrite decide_True by by eexists.
    rewrite fmap_cons, IH. f_equal. by apply Hkeys.
  - rewrite decide_False by (intros [? ?]; discriminate). exact IH.
Qed.

(** When every identifier resolves, the scan answers each identifier with
    the location stored under it. *)
Lemma GetAdjacentLocations_scan_all (ws : InMemoryWorldSystem)
    (adjacentIDs : list string) :
  (∀ adjID, adjID ∈ adjacentIDs → is_Some (locations ws !! adjID)) →
  Forall2 (λ adjID node, locations ws !! adjID = Some node)
    adjacentIDs (GetAdjacentLocations_scan ws adjacentIDs).
Proof.
  induction adjacentIDs as [|a rest IH]; intros Hall; [constructor|].
  cbn [GetAdjacentLocations_scan].
  destruct (Hall a) as [loc Ha]; [by apply elem_of_cons; left|].
  rewrite Ha. constructor; [done|].
  apply IH. intros adjID Hin. apply Hall, elem_of_cons. by right.
Qed.

(** X4.  [GetAdjacentLocations] fails, with the not-found error of
    [GetLocation], when the location is absent.  Otherwise it returns the
    locations stored under the adjacency identifiers of the location, the
    stored records themselves, in the order of the adjacency list and
    skipping the identifiers that are not stored; in a graph closed under
    adjacency nothing is skipped, and the node at each position is the one
    stored under the identifier at that position.  In a graph whose
    locations are stored under their identifiers, the identifiers of the
    returned nodes are the stored ones among the adjacency identifiers, and
    the whole adjacency list when the graph is closed. *)
Theorem GetAdjacentLocations_ids (ws : InMemoryWorldSystem) (locationID : string) :
  (locations ws !! locationID = None →
   GetAdjacentLocations ws locationID
   = Err ("location with ID '" +:+ locationID +:+ "' not found")) ∧
  (∀ loc, locations ws !! locationID = Some loc →
     ∃ nodes,
       GetAdjacentLocations ws locationID = Ok nodes ∧
       nodes = omap (λ adjID, locations ws !! adjID)
                 (LocationNode.AdjacentIDs loc) ∧
       (adjacency_closed ws →
        Forall2 (λ adjID node, locations ws !! adjID = Some node)
          (LocationNode.AdjacentIDs loc) nodes) ∧
       (keys_are_ids ws →
        LocationNode.ID <$> nodes
        = filter (λ adjID, is_Some (locations ws !! adjID))
            (LocationNode.AdjacentIDs loc) ∧
        (adjacency_closed ws →
         LocationNode.ID <$> nodes = LocationNode.AdjacentIDs loc))).
Proof.
  split.
  - intros Habs. unfold GetAdjacentLocations, GetLocation. by rewrite Habs.
  - intros loc Hloc. eexists. split; [|split; [|split]].
    + unfold GetAdjacentLocations, GetLocation. rewrite Hloc. reflexivity.
    + apply GetAdjacentLocations_scan_omap.
    + intros Hclosed. apply GetAdjacentLocations_scan_all.
      intros adjID. apply (Hclosed locationID loc adjID Hloc).
    + intros Hkeys. split; [by apply GetAdjacentLocations_scan_ids|].
      intros Hclosed. rewrite GetAdjacentLocations_scan_ids by done.
      assert (Hall : ∀ adjID, adjID ∈ LocationNode.AdjacentIDs loc →
                              is_Some (locations ws !! adjID))
        by (intros adjID; apply (Hclosed locationID loc adjID Hloc)).
      revert Hall. generalize (LocationNode.AdjacentIDs loc) as adj.
      induction adj as [|a adj IH]; intros Hall; [reflexivity|].
      rewrite filter_cons, decide_True by (apply Hall, elem_of_cons; by left).
      f_equal. apply IH. intros adjID Hin. apply Hall, elem_of_cons. by right.
Qed.

Lemma GetAdjacentLocations_ids_witness :
  GetAdjacentLocations ex_world "gate"
  = Ok [ex_location "village" ["gate"] ""; ex_location "tower" [] ""] ∧
  ∃ nodes,
    GetAdjacentLocations ex_world "gate" = Ok nodes ∧
    LocationNode.ID <$> nodes
    = filter (λ adjID, is_Some (locations ex_world !! adjID))
        ["village"; "tower"].
Proof.
  destruct (GetAdjacentLocations_ids ex_world "gate") as [_ H].
  destruct (H (ex_location "gate" ["village"; "tower"] ""))
    as (nodes & Hget & Hnodes & _ & Hids).
  { vm_compute. reflexivity. }
  split.
  - rewrite Hget, Hnodes. vm_compute. reflexivity.
  - exists nodes. split; [done|].
    destruct Hids as [Hfilter _]; [|exact Hfilter]. split.
    + intros k loc Hk. unfold ex_world in Hk. cbn [locations] in Hk.
      repeat (apply lookup_insert_Some in Hk as [[<- <-]|[_ Hk]]; [reflexivity|]).
      by rewrite lookup_empty in Hk.
    + intros k th Hk. cbn in Hk. by rewrite lookup_empty in Hk.
Defined.

(** X5.  In a graph whose locations are stored under their identifiers,
    [GetAdjacentLocations] and [IsAdjacent] agree: a location is among
    those returned for [a] exactly when [IsAdjacent] holds from [a] to
    it. *)
Theorem GetAdjacentLocations_agrees_with_IsAdjacent (ws : InMemoryWorldSystem)
    (a b : string) (nodes : list LocationNode.t) :
  keys_are_ids ws →
  GetAdjacentLocations ws a = Ok nodes →
  (b ∈ LocationNode.ID <$> nodes ↔ IsAdjacent ws a b = Ok true).
Proof.
  intros Hkeys Hget. unfold GetAdjacentLocations, GetLocation in Hget.
  destruct (locations ws !! a) as [loc|] eqn:Ha; [|discriminate].
  injection Hget as <-. rewrite GetAdjacentLocations_scan_ids by done.
  rewrite list_elem_of_filter. unfold IsAdjacent. rewrite Ha.
  destruct (locations ws !! b) as [locb|] eqn:Hb.
  - rewrite IsAdjacent_scan_spec. split.
    + intros [_ Hin]. by rewrite bool_decide_eq_true_2.
    + intros [= Hin]. apply bool_decide_eq_true in Hin. split; [by eexists|done].
  - split; [intros [[? ?] _]; discriminate|discriminate].
Qed.

Lemma GetAdjacentLocations_agrees_with_IsAdjacent_witness :
  "tower" ∈ LocationNode.ID <$>
    [ex_location "village" ["gate"] ""; ex_location "tower" [] ""] ↔
  IsAdjacent ex_world "gate" "tower" = Ok true.
Proof.
  apply (GetAdjacentLocations_agrees_with_IsAdjacent ex_world "gate" "tower").
  - split.
    + intros k loc Hk. unfold ex_world in Hk. cbn [locations] in Hk.
      repeat (apply lookup_insert_Some in Hk as [[<- <-]|[_ Hk]]; [reflexivity|]).
      by rewrite lookup_empty in Hk.
    + intros k th Hk. cbn in Hk. by rewrite lookup_empty in Hk.
  - vm_compute. reflexivity.
Defined.

(** X6.  The listings have no repetition and list exactly what the lookups
    find: an identifier is in [GetAllLocationIDs] exactly when
    [GetLocation] succeeds for it, in [GetAllThemeIDs] exactly when
    [GetTheme] succeeds, and [ValidateThemeExists] answers whether
    [GetTheme] succeeds. *)
Theorem world_listings_match_lookups (ws : InMemoryWorldSystem) :
  NoDup (GetAllLocationIDs ws) ∧
  NoDup (GetAllThemeIDs ws) ∧
  (∀ id, id ∈ GetAllLocationIDs ws ↔ ∃ loc, GetLocation ws id = Ok loc) ∧
  (∀ id, id ∈ GetAllThemeIDs ws ↔ ∃ theme, GetTheme ws id = Ok theme) ∧
  (∀ id, ValidateThemeExists ws id = true ↔ ∃ theme, GetTheme ws id = Ok theme).
Proof.
  split; [apply NoDup_fst_map_to_list|].
  split; [apply NoDup_fst_map_to_list|].
  split; [|split].
  - intros id. unfold GetAllLocationIDs, GetLocation.
    rewrite list_elem_of_fmap. split.
    + intros ([k loc] & -> & Hin). apply elem_of_map_to_list in Hin.
      cbn [fst]. rewrite Hin. by eexists.
    + intros [loc Hloc].
      destruct (locations ws !! id) as [l|] eqn:Hl; [|discriminate].
      exists (id, l). split; [done|]. by apply elem_of_map_to_list.
  - intros id. unfold GetAllThemeIDs, GetTheme.
    rewrite list_elem_of_fmap. split.
    + intros ([k th] & -> & Hin). apply elem_of_map_to_list in Hin.
      cbn [fst]. rewrite Hin. by eexists.
    + intros [th Hth].
      destruct (themes ws !! id) as [t|] eqn:Ht; [|discriminate].
      exists (id, t). split; [done|]. by apply elem_of_map_to_list.
  - intros id. unfold ValidateThemeExists, GetTheme.
    rewrite bool_decide_eq_true.
    destruct (themes ws !! id) as [t|]; split.
    + intros _. by eexists.
    + intros _. by eexists.
    + intros [? ?]. discriminate.
    + intros [? ?]. discriminate.
Qed.

(** ** The session manager *)

(** X7.  [CreateNewSession] never touches a session that is already stored.
    When it fails the store is as before, and for a nil player or an empty
    player identifier the clock is not even read.  When it succeeds, the
    new session is stored under its identifier, which was free, so the
    store grows by exactly that entry; sessions stay keyed by their
    identifiers. *)
Theorem CreateNewSession_store (sm : InMemorySessionManager) (clock : Clock)
    (player : option Character.t) (startLocationID : string) :
  let out := CreateNewSession sm clock player startLocationID in
  (∀ k sess, sessions sm !! k = Some sess →
             sessions out.1.2 !! k = Some sess) ∧
  (∀ err, out.1.1 = Err err → out.1.2 = sm) ∧
  (player = None ∨ (∃ p, player = Some p ∧ Character.ID p = "") →
   (∃ err, out.1.1 = Err err) ∧ out.2 = clock) ∧
  (∀ sess, out.1.1 = Ok sess →
     sessions sm !! GameSession.ID sess = None ∧
     sessions out.1.2 = <[GameSession.ID sess := sess]> (sessions sm) ∧
     GetAllSessionIDs out.1.2 ≡ₚ GameSession.ID sess :: GetAllSessionIDs sm) ∧
  (sessions_keyed_by_id sm → sessions_keyed_by_id out.1.2).
Proof.
  intros out. unfold out, CreateNewSession.
  destruct player as [p|]; cbn [fst snd].
  2:{ split; [done|]. split; [done|]. split; [|split; [discriminate|done]].
      intros _. split; [by eexists|done]. }
  destruct (decide (Character.ID p = "")) as [Hid|Hid]; cbn [fst snd].
  { split; [done|]. split; [done|]. split; [|split; [discriminate|done]].
    intros _. split; [by eexists|done]. }
  cbn [time_Now].
  set (newID := "session_" +:+ Character.ID p +:+ "_" +:+
                Go.fmt_d (readings clock (ticks clock))).
  destruct (sessions sm !! newID) as [old|] eqn:Hnew; cbn [fst snd].
  { split; [done|]. split; [done|]. split; [|split; [discriminate|done]].
    intros [[=]|(p' & [= <-] & Hp')]. done. }
  unfold store_session. cbn [sessions].
  split; [|split; [|split; [|split]]].
  - intros k sess Hk. rewrite lookup_insert_ne; [done|]. congruence.
  - discriminate.
  - intros [[=]|(p' & [= <-] & Hp')]. done.
  - intros sess [= <-]. cbn [GameSession.ID]. split; [done|]. split; [done|].
    unfold GetAllSessionIDs. cbn [sessions].
    rewrite map_to_list_insert by done. reflexivity.
  - intros Hkeyed k sess Hk. cbn [sessions] in Hk.
    apply lookup_insert_Some in Hk as [[<- <-]|[_ Hk]]; [reflexivity|].
    by apply Hkeyed.
Qed.

Lemma CreateNewSession_store_witness :
  ∃ err,
    (CreateNewSession (sys_manager ex_system) ex_clock None "gate").1.1 = Err err.
Proof.
  destruct (CreateNewSession_store (sys_manager ex_system) ex_clock None "gate")
    as (_ & _ & Hbad & _).
  destruct Hbad as [Herr _]; [by left|]. exact Herr.
Defined.

(** X8.  [GetSession] fails for an identifier that is not stored, leaving
    store and clock as they were.  For a stored session it returns that
    session with its last-active timestamp set to the clock reading and
    nothing else changed, stores it so, and leaves every other session
    alone; sessions stay keyed by their identifiers. *)
Theorem GetSession_effect (sm : InMemorySessionManager) (clock : Clock)
    (sessionID : string) :
  (sessions sm !! sessionID = None →
   GetSession sm clock sessionID
   = (Err ("session not found: " +:+ sessionID), sm, clock)) ∧
  (∀ sess, sessions sm !! sessionID = Some sess →
     let fetched :=
       GameSession.mk (GameSession.ID sess) (GameSession.Player sess)
         (GameSession.CurrentLocationID sess) (GameSession.CreatedAt sess)
         (readings clock (ticks clock)) (GameSession.RecentActions sess) in
     GetSession sm clock sessionID
     = (Ok fetched, mkManager (<[sessionID := fetched]> (sessions sm)),
        mkClock (readings clock) (S (ticks clock))) ∧
     (∀ k, k ≠ sessionID →
        sessions (GetSession sm clock sessionID).1.2 !! k = sessions sm !! k) ∧
     (sessions_keyed_by_id sm →
      sessions_keyed_by_id (GetSession sm clock sessionID).1.2)).
Proof.
  split.
  - intros Habs. unfold GetSession. by rewrite Habs.
  - intros sess Hsess fetched. unfold GetSession. rewrite Hsess.
    unfold store_session. cbn [time_Now fst snd sessions].
    split; [reflexivity|]. split.
    + intros k Hk. by rewrite lookup_insert_ne.
    + intros Hkeyed k s Hk. cbn [sessions] in Hk.
      apply lookup_insert_Some in Hk as [[<- <-]|[_ Hk]]; [|by apply Hkeyed].
      cbn. by apply Hkeyed.
Qed.

Lemma GetSession_effect_witness :
  GetSession (sys_manager ex_system) ex_clock "nobody"
  = (Err "session not found: nobody", sys_manager ex_system, ex_clock).
Proof.
  destruct (GetSession_effect (sys_manager ex_system) ex_clock "nobody")
    as [Habs _].
  apply Habs. vm_compute. reflexivity.
Defined.

(** X9.  A session that [CreateNewSession] returned is found by
    [GetSession] under its identifier in the store the creation left, at
    any later clock reading, with the character and the start location it
    was created with, an empty log, and every field as created except the
    last-active timestamp. *)
Theorem CreateNewSession_then_GetSession (sm sm' : InMemorySessionManager)
    (clock clock' clock2 : Clock) (p : Character.t) (startLocationID : string)
    (sess : GameSession.t) :
  CreateNewSession sm clock (Some p) startLocationID = (Ok sess, sm', clock') →
  (GetSession sm' clock2 (GameSession.ID sess)).1.1
  = Ok (GameSession.mk (GameSession.ID sess) p startLocationID
          (GameSession.CreatedAt sess) (readings clock2 (ticks clock2)) []).
Proof.
  intros Hcreate. unfold CreateNewSession in Hcreate.
  destruct (decide (Character.ID p = "")); [discriminate|].
  cbn [time_Now] in Hcreate.
  destruct (sessions sm !! _) eqn:Hfree; [discriminate|].
  injection Hcreate as <- <- <-.
  unfold GetSession, store_session. cbn [sessions GameSession.ID].
  rewrite lookup_insert_eq. reflexivity.
Qed.

Lemma CreateNewSession_then_GetSession_witness :
  (GetSession
     (CreateNewSession NewInMemorySessionManager ex_clock (Some ex_player)
        "gate").1.2
     ex_clock "session_hero_42").1.1
  = Ok (GameSession.mk "session_hero_42" ex_player "gate" 42 42 []).
Proof.
  refine (CreateNewSession_then_GetSession NewInMemorySessionManager _
            ex_clock _ ex_clock ex_player "gate"
            (GameSession.mk "session_hero_42" ex_player "gate" 42 42 []) _).
  vm_compute. reflexivity.
Defined.

(** X10.  [UpdateSession] succeeds exactly for a non-nil session whose
    identifier is stored.  It never changes the store; on success the
    session passed in gets the clock reading as last-active timestamp and
    is otherwise untouched, on failure it is untouched and the clock is not
    read. *)
Theorem UpdateSession_effect (sm : InMemorySessionManager) (clock : Clock)
    (session : option GameSession.t) :
  let out := UpdateSession sm clock session in
  (out.1.1 = None ↔
   ∃ s, session = Some s ∧ is_Some (sessions sm !! GameSession.ID s)) ∧
  (out.1.1 = None →
   out.1.2 = GameSession.with_LastActive (readings clock (ticks clock))
               <$> session ∧
   out.2 = mkClock (readings clock) (S (ticks clock))) ∧
  (out.1.1 ≠ None → out.1.2 = session ∧ out.2 = clock).
Proof.
  intros out. unfold out, UpdateSession.
  destruct session as [s|]; cbn [fst snd].
  - destruct (sessions sm !! GameSession.ID s) as [old|] eqn:Hs; cbn [fst snd].
    + split; [|split]; [|done|done].
      split; [|done]. intros _. exists s. split; [done|by eexists].
    + split; [|split]; [|done|done].
      split; [done|]. intros (s' & [= <-] & [? ?]). congruence.
  - split; [|split]; [|done|done].
    split; [done|]. intros (s' & [=] & _).
Qed.

Lemma UpdateSession_effect_witness :
  (UpdateSession (sys_manager ex_system) ex_clock
     (Some (ex_session_at "village"))).1.2
  = Some (GameSession.mk "session_hero_42" ex_player "village" 0 42 []).
Proof.
  destruct (UpdateSession_effect (sys_manager ex_system) ex_clock
              (Some (ex_session_at "village"))) as (Hiff & Hok & _).
  destruct Hok as [Hsess _]; [|exact Hsess].
  apply Hiff. exists (ex_session_at "village").
  split; [reflexivity|]. vm_compute. by eexists.
Defined.

(** X11.  [GetAllSessionIDs] lists, without repetition, exactly the
    identifiers for which [GetSession] succeeds. *)
Theorem GetAllSessionIDs_match_GetSession (sm : InMemorySessionManager)
    (clock : Clock) :
  NoDup (GetAllSessionIDs sm) ∧
  ∀ sessionID,
    sessionID ∈ GetAllSessionIDs sm ↔
    ∃ sess, (GetSession sm clock sessionID).1.1 = Ok sess.
Proof.
  split; [apply NoDup_fst_map_to_list|].
  intros sessionID. unfold GetAllSessionIDs, GetSession.
  rewrite list_elem_of_fmap. split.
  - intros ([k s] & -> & Hin). apply elem_of_map_to_list in Hin.
    cbn [fst]. rewrite Hin. by eexists.
  - intros [sess Hsess].
    destruct (sessions sm !! sessionID) as [s|] eqn:Hs; [|discriminate].
    exists (sessionID, s). split; [done|]. by apply elem_of_map_to_list.
Qed.

(** X12.  After [AddRecentAction] the summary just added is the last entry
    of the log, the log has one entry more than before but never more than
    5, and no other field of the session has changed. *)
Theorem AddRecentAction_newest_last (sess : GameSession.t) (summary : string) :
  last (GameSession.RecentActions (AddRecentAction sess summary)) = Some summary ∧
  length (GameSession.RecentActions (AddRecentAction sess summary))
  = Nat.min 5 (S (length (GameSession.RecentActions sess))) ∧
  GameSession.with_RecentActions (GameSession.RecentActions sess)
    (AddRecentAction sess summary) = sess.
Proof.
  split; [|split].
  - rewrite AddRecentAction_log. unfold keep_last, maxRecentActions.
    rewrite length_app. cbn [length].
    destruct (decide (length (GameSession.RecentActions sess) + 1 ≤ 5)).
    + replace (length (GameSession.RecentActions sess) + 1 - 5) with 0 by lia.
      cbn [drop]. apply last_snoc.
    + rewrite drop_app_le by lia. apply last_snoc.
  - rewrite AddRecentAction_log, keep_last_length, length_app.
    unfold maxRecentActions. cbn [length]. lia.
  - rewrite AddRecentAction_frame. by destruct sess.
Qed.

(** ** The executor, continued *)

Lemma with_CurrentLocationID_same (sess : GameSession.t) :
  GameSession.with_CurrentLocationID (GameSession.CurrentLocationID sess) sess
  = sess.
Proof. by destruct sess. Qed.

Lemma AddRecentAction_with_CurrentLocationID (loc : string)
    (sess : GameSession.t) (summary : string) :
  AddRecentAction (GameSession.with_CurrentLocationID loc sess) summary
  = GameSession.with_CurrentLocationID loc (AddRecentAction sess summary).
Proof. unfold AddRecentAction. cbn. by case_decide. Qed.

Lemma AddRecentAction_fold_with_CurrentLocationID (loc : string)
    (summaries : list string) (sess : GameSession.t) :
  fold_left AddRecentAction summaries
    (GameSession.with_CurrentLocationID loc sess)
  = GameSession.with_CurrentLocationID loc
      (fold_left AddRecentAction summaries sess).
Proof.
  revert sess. induction summaries as [|x xs IH]; intros sess; [reflexivity|].
  cbn [fold_left]. by rewrite AddRecentAction_with_CurrentLocationID, IH.
Qed.

Section ExecutorFrame.
Context {W : Type} `{!WorldSystem W}.

(** What the handler can do to the session: nothing when it reports an
    error, and at most a change of the current location, to the
    [locationId] of the action, when it does not. *)
Lemma handleUpdateLocation_session (w : W) (action : LLMAction.t)
    (sess : GameSession.t) :
  match (handleUpdateLocation w action sess).2 with
  | Some _ => (handleUpdateLocation w action sess).1.2 = sess
  | None =>
      ∃ target,
        LLMAction.Data action !! "locationId" = Some (AnyString target) ∧
        (handleUpdateLocation w action sess).1.2
        = GameSession.with_CurrentLocationID target sess
  end.
Proof.
  unfold handleUpdateLocation.
  destruct (LLMAction.Data action !! "locationId") as [[| | |target| |]|];
    try reflexivity.
  destruct (decide (target = "")); [reflexivity|].
  destruct (decide (GameSession.CurrentLocationID sess = target)) as [Heq|Hne].
  - cbn [fst snd]. exists target. split; [done|].
    rewrite <- Heq. symmetry. apply with_CurrentLocationID_same.
  - destruct (WorldSystem_IsAdjacent w _ target) as [w' [[|]|err]]; cbn [negb].
    + cbn [fst snd]. by exists target.
    + reflexivity.
    + by destruct (Go.Contains err "not found").
Qed.

Lemma dispatch_action_session (w : W) (action : LLMAction.t)
    (sess : GameSession.t) :
  match (dispatch_action w action sess).2 with
  | Some _ =>
      (dispatch_action w action sess).1.2 = sess ∧
      (LLMAction.Type_ action ≠ UpdateLocation →
       (dispatch_action w action sess).1.1 = w)
  | None =>
      LLMAction.Type_ action = UpdateLocation ∧
      ∃ target,
        LLMAction.Data action !! "locationId" = Some (AnyString target) ∧
        (dispatch_action w action sess).1.2
        = GameSession.with_CurrentLocationID target sess
  end.
Proof.
  unfold dispatch_action.
  destruct (decide (LLMAction.Type_ action = UpdateLocation)) as [Hty|Hty].
  - pose proof (handleUpdateLocation_session w action sess) as Hh.
    destruct ((handleUpdateLocation w action sess).2); [by split|by split].
  - repeat case_decide; by split.
Qed.

(** X13.  A batch without any updateLocation action changes nothing: the
    world system is not called, the session comes back as it was, and the
    result holds one error per action, in input order, each for its own
    action. *)
Theorem ExecuteActions_without_updateLocation (w : W)
    (actions : list LLMAction.t) (sess : GameSession.t) :
  (∀ action, action ∈ actions → LLMAction.Type_ action ≠ UpdateLocation) →
  ∃ errs,
    ExecuteActions w actions (Some sess) = (w, Some sess, errs) ∧
    Forall2
      (λ action err,
         ∃ cause,
           err = ActionError (LLMAction.Type_ action) (LLMAction.Data action)
                   cause)
      actions errs.
Proof.
  intros Hnone. unfold ExecuteActions.
  assert (Hfold : ∃ errs,
            fold_left execute_step actions (w, sess, []) = (w, sess, errs) ∧
            Forall2
              (λ action err,
                 ∃ cause,
                   err = ActionError (LLMAction.Type_ action)
                           (LLMAction.Data action) cause)
              actions errs).
  { induction actions as [|action rest IH].
    - exists []. split; [reflexivity|constructor].
    - destruct IH as (errs & Hrest & Hall).
      { intros a Ha. apply Hnone. by apply elem_of_cons; right. }
      cbn [fold_left].
      assert (Hty : LLMAction.Type_ action ≠ UpdateLocation)
        by (apply Hnone; apply elem_of_cons; by left).
      pose proof (dispatch_action_session w action sess) as Hd.
      unfold execute_step at 2.
      destruct (dispatch_action w action sess) as [[w1 s1] [cause|]];
        cbn [fst snd] in Hd.
      + destruct Hd as [-> Hw]. rewrite (Hw Hty).
        rewrite execute_fold_acc, Hrest. cbn [fst snd app].
        eexists. split; [reflexivity|]. constructor; [by eexists|done].
      + by destruct Hd as [? _]. }
  destruct Hfold as (errs & -> & Hall). by exists errs.
Qed.

Lemma execute_fold_frame (w : W) (actions : list LLMAction.t)
    (sess : GameSession.t) :
  ∃ loc,
    (fold_left execute_step actions (w, sess, [])).1.2
    = GameSession.with_CurrentLocationID loc
        (fold_left AddRecentAction
           (replicate
              (length actions -
               length (fold_left execute_step actions (w, sess, [])).2)
              "System executed: updateLocation") sess) ∧
    length (fold_left execute_step actions (w, sess, [])).2 ≤ length actions ∧
    (loc = GameSession.CurrentLocationID sess ∨
     ∃ action, action ∈ actions ∧
               LLMAction.Type_ action = UpdateLocation ∧
               LLMAction.Data action !! "locationId" = Some (AnyString loc)).
Proof.
  revert w sess. induction actions as [|action rest IH]; intros w sess.
  - exists (GameSession.CurrentLocationID sess). cbn.
    split; [symmetry; apply with_CurrentLocationID_same|]. split; [lia|by left].
  - cbn [fold_left]. unfold execute_step at 2 4 6.
    pose proof (dispatch_action_session w action sess) as Hd.
    destruct (dispatch_action w action sess) as [[w1 s1] [cause|]];
      cbn [fst snd] in Hd.
    + destruct Hd as [-> _].
      rewrite execute_fold_acc. cbn [fst snd app].
      destruct (IH w1 sess) as (loc & Hs & Hlen & Hloc).
      exists loc. rewrite Hs. cbn [length].
      split; [|split].
      * do 3 f_equal; try lia.
      * lia.
      * destruct Hloc as [?|(a & Ha & ?)]; [by left|].
        right. exists a. split; [by apply elem_of_cons; right|done].
    + destruct Hd as (Hty & target & Hdata & ->).
      destruct (IH w1
                  (AddRecentAction
                     (GameSession.with_CurrentLocationID target sess)
                     ("System executed: " +:+ LLMAction.Type_ action)))
        as (loc & Hs & Hlen & Hloc).
      exists loc. rewrite Hs. split; [|split].
      * rewrite Hty.
        change ("System executed: " +:+ UpdateLocation)
          with "System executed: updateLocation".
        rewrite AddRecentAction_with_CurrentLocationID.
        rewrite AddRecentAction_fold_with_CurrentLocationID.
        cbn [length].
        replace (S (length rest) -
                 length (fold_left execute_step rest
                           (w1,
                            GameSession.with_CurrentLocationID target
                              (AddRecentAction sess
                                 "System executed: updateLocation"), [])).2)
          with (S (length rest -
                   length (fold_left execute_step rest
                             (w1,
                              GameSession.with_CurrentLocationID target
                                (AddRecentAction sess
                                   "System executed: updateLocation"), [])).2))
          by (rewrite Hty in Hlen;
              change ("System executed: " +:+ UpdateLocation)
                with "System executed: updateLocation" in Hlen;
              rewrite AddRecentAction_with_CurrentLocationID in Hlen; lia).
        cbn [replicate fold_left]. by destruct sess.
      * cbn [length]. lia.
      * destruct Hloc as [Hl|(a & Ha & ?)].
        -- right. exists action. split; [by apply elem_of_cons; left|].
           split; [done|]. rewrite Hl.
           rewrite AddRecentAction_frame. cbn. done.
        -- right. exists a. split; [by apply elem_of_cons; right|done].
Qed.

(** X14.  Whatever the batch and the world system, [ExecuteActions] changes
    two fields of the session at most.  The current location ends as it was
    or as the [locationId] of an updateLocation action of the batch.  The
    recent-action log gets one entry "System executed: updateLocation" per
    action that did not fail, appended as [AddRecentAction] does.
    Identifier, character and timestamps stay. *)
Theorem ExecuteActions_frame (w : W) (actions : list LLMAction.t)
    (sess : GameSession.t) :
  let out := ExecuteActions w actions (Some sess) in
  ∃ loc,
    out.1.2
    = Some (GameSession.with_CurrentLocationID loc
              (fold_left AddRecentAction
                 (replicate (length actions - length out.2)
                    "System executed: updateLocation") sess)) ∧
    (loc = GameSession.CurrentLocationID sess ∨
     ∃ action, action ∈ actions ∧
               LLMAction.Type_ action = UpdateLocation ∧
               LLMAction.Data action !! "locationId" = Some (AnyString loc)).
Proof.
  intros out. unfold out, ExecuteActions. clear out.
  destruct (execute_fold_frame w actions sess) as (loc & Hs & _ & Hloc).
  destruct (fold_left execute_step actions (w, sess, [])) as [[w' s'] errs].
  cbn [fst snd] in *. exists loc. by rewrite Hs.
Qed.
End ExecutorFrame.

Lemma ExecuteActions_without_updateLocation_witness :
  ∃ errs,
    ExecuteActions ex_world
      [LLMAction.mk AddItem ∅; LLMAction.mk "castSpell" ∅]
      (Some (ex_session_at "gate"))
    = (ex_world, Some (ex_session_at "gate"), errs) ∧
    Forall2
      (λ action err,
         ∃ cause,
           err = ActionError (LLMAction.Type_ action) (LLMAction.Data action)
                   cause)
      [LLMAction.mk AddItem ∅; LLMAction.mk "castSpell" ∅] errs.
Proof.
  apply (ExecuteActions_without_updateLocation ex_world
           [LLMAction.mk AddItem ∅; LLMAction.mk "castSpell" ∅]
           (ex_session_at "gate")).
  intros action Hin.
  apply elem_of_cons in Hin as [->|Hin]; [discriminate|].
  apply elem_of_cons in Hin as [->|Hin]; [discriminate|].
  by apply elem_of_nil in Hin.
Defined.


(** *** Over the in-memory world *)

Lemma IsAdjacent_true_exists (ws : InMemoryWorldSystem) (a b : string) :
  IsAdjacent ws a b = Ok true →
  is_Some (locations ws !! a) ∧ is_Some (locations ws !! b).
Proof.
  unfold IsAdjacent.
  destruct (locations ws !! a); [|discriminate].
  destruct (locations ws !! b); [|discriminate]. by split; eexists.
Qed.

Lemma dispatch_action_in_memory (ws : InMemoryWorldSystem)
    (action : LLMAction.t) (sess : GameSession.t) :
  (dispatch_action ws action sess).1.1 = ws ∧
  ((dispatch_action ws action sess).1.2 = sess ∨
   ((dispatch_action ws action sess).2 = None ∧
    IsAdjacent ws (GameSession.CurrentLocationID sess)
      (GameSession.CurrentLocationID (dispatch_action ws action sess).1.2)
    = Ok true)).
Proof.
  unfold dispatch_action.
  destruct (decide (LLMAction.Type_ action = UpdateLocation));
    [|repeat case_decide; by split; [|left]].
  unfold handleUpdateLocation.
  destruct (LLMAction.Data action !! "locationId") as [[| | |target| |]|];
    try (by split; [|left]).
  destruct (decide (target = "")); [by split; [|left]|].
  destruct (decide (GameSession.CurrentLocationID sess = target));
    [by split; [|left]|].
  cbn [WorldSystem_IsAdjacent InMemoryWorldSystem_WorldSystem].
  destruct (IsAdjacent ws (GameSession.CurrentLocationID sess) target)
    as [[|]|err] eqn:Hadj; cbn [negb fst snd].
  - split; [done|]. right. by split.
  - by split; [|left].
  - destruct (Go.Contains err "not found"); by split; [|left].
Qed.

Lemma execute_fold_in_memory (ws : InMemoryWorldSystem)
    (actions : list LLMAction.t) (sess : GameSession.t) :
  (fold_left execute_step actions (ws, sess, [])).1.1 = ws ∧
  rtc (λ a b, IsAdjacent ws a b = Ok true)
    (GameSession.CurrentLocationID sess)
    (GameSession.CurrentLocationID
       (fold_left execute_step actions (ws, sess, [])).1.2).
Proof.
  revert sess. induction actions as [|action rest IH]; intros sess.
  - by split.
  - cbn [fold_left]. unfold execute_step at 2 4.
    destruct (dispatch_action_in_memory ws action sess) as [Hw Hs].
    destruct (dispatch_action ws action sess) as [[w1 s1] [cause|]];
      cbn [fst snd] in Hw, Hs; subst w1.
    + destruct Hs as [->|[[=] _]].
      rewrite execute_fold_acc. cbn [fst snd]. apply IH.
    + destruct (IH (AddRecentAction s1
                      ("System executed: " +:+ LLMAction.Type_ action)))
        as [Hw Hrtc].
      split; [done|].
      assert (Hcur : GameSession.CurrentLocationID
                       (AddRecentAction s1
                          ("System executed: " +:+ LLMAction.Type_ action))
                     = GameSession.CurrentLocationID s1)
        by (rewrite AddRecentAction_frame; reflexivity).
      rewrite Hcur in Hrtc.
      destruct Hs as [->|[_ Hadj]]; [done|].
      by eapply rtc_l.
Qed.

(** X15.  Over the in-memory world, [ExecuteActions] never teleports: the
    world is left as it is, and the current location after the batch is
    reached from the one before by a chain of moves, each along a stored
    adjacency.  So a session whose location is stored before the batch has
    a stored location after it. *)
Theorem ExecuteActions_never_teleports (ws : InMemoryWorldSystem)
    (actions : list LLMAction.t) (sess : GameSession.t) :
  let out := ExecuteActions ws actions (Some sess) in
  out.1.1 = ws ∧
  ∃ sess',
    out.1.2 = Some sess' ∧
    rtc (λ a b, IsAdjacent ws a b = Ok true)
      (GameSession.CurrentLocationID sess)
      (GameSession.CurrentLocationID sess') ∧
    (is_Some (locations ws !! GameSession.CurrentLocationID sess) →
     is_Some (locations ws !! GameSession.CurrentLocationID sess')).
Proof.
  intros out. unfold out, ExecuteActions. clear out.
  destruct (execute_fold_in_memory ws actions sess) as [Hw Hrtc].
  destruct (fold_left execute_step actions (ws, sess, [])) as [[w' s'] errs].
  cbn [fst snd] in *. split; [done|]. exists s'. split; [done|].
  split; [done|]. intros Hstored.
  induction Hrtc as [|a b c Hab _ IH]; [done|].
  apply IH. by apply IsAdjacent_true_exists in Hab as [_ ?].
Qed.

(** X24.  For any world system and a move to a non-empty target other than
    the current location, the handler calls [IsAdjacent] once, from the
    current location to the target, and decides by its answer alone: the
    session moves exactly when the answer is true; an error that mentions
    "not found" is reported as a location that does not exist, any other
    error as a failed adjacency check, and the session is left alone in
    both cases. *)
Theorem handleUpdateLocation_decides_by_IsAdjacent {W : Type} `{!WorldSystem W}
    (w : W) (action : LLMAction.t) (sess : GameSession.t) (target : string) :
  LLMAction.Data action !! "locationId" = Some (AnyString target) →
  target ≠ "" →
  GameSession.CurrentLocationID sess ≠ target →
  let answer :=
    WorldSystem_IsAdjacent w (GameSession.CurrentLocationID sess) target in
  (handleUpdateLocation w action sess).1.1 = answer.1 ∧
  ((handleUpdateLocation w action sess).1.2
   = GameSession.with_CurrentLocationID target sess ↔ answer.2 = Ok true) ∧
  (answer.2 ≠ Ok true → (handleUpdateLocation w action sess).1.2 = sess) ∧
  (∀ err, answer.2 = Err err →
     (handleUpdateLocation w action sess).2
     = Some ((if Go.Contains err "not found"
              then "validation failed - location does not exist: "
              else "error checking adjacency via WorldSystem: ") +:+ err)).
Proof.
  intros Hdata Hne Hmove answer. unfold answer, handleUpdateLocation.
  rewrite Hdata. rewrite decide_False by exact Hne.
  rewrite decide_False by exact Hmove.
  destruct (WorldSystem_IsAdjacent w (GameSession.CurrentLocationID sess) target)
    as [w' [[|]|err]]; cbn [negb fst snd].
  - split; [done|]. split; [done|]. split; [done|discriminate].
  - split; [done|]. split; [|split; [done|discriminate]].
    split; [|discriminate]. intros Heq. exfalso. apply Hmove.
    exact (f_equal GameSession.CurrentLocationID Heq).
  - destruct (Go.Contains err "not found") eqn:Hnf; cbn [fst snd].
    + split; [done|]. split; [|split; [done|]].
      * split; [|discriminate]. intros Heq. exfalso. apply Hmove.
        exact (f_equal GameSession.CurrentLocationID Heq).
      * intros e [= <-]. by rewrite Hnf.
    + split; [done|]. split; [|split; [done|]].
      * split; [|discriminate]. intros Heq. exfalso. apply Hmove.
        exact (f_equal GameSession.CurrentLocationID Heq).
      * intros e [= <-]. by rewrite Hnf.
Qed.

Lemma handleUpdateLocation_decides_by_IsAdjacent_witness :
  (handleUpdateLocation offline (ex_move "village") (ex_session_at "gate")).2
  = Some "error checking adjacency via WorldSystem: database offline".
Proof.
  destruct (handleUpdateLocation_decides_by_IsAdjacent offline
              (ex_move "village") (ex_session_at "gate") "village")
    as (_ & _ & _ & Herr).
  - vm_compute. reflexivity.
  - discriminate.
  - discriminate.
  - apply (Herr "database offline"). reflexivity.
Defined.

(** ** The engine, continued *)

Lemma adjacent_ids_Some (nodes : list LocationNode.t) :
  adjacent_ids (Some <$> nodes) = LocationNode.ID <$> nodes.
Proof. induction nodes as [|n nodes IH]; [reflexivity|]. cbn. by rewrite IH. Qed.

Lemma adjacent_ids_names_length (nodes : list (option LocationNode.t)) :
  length (adjacent_ids nodes) = length (adjacent_names nodes).
Proof.
  induction nodes as [|[n|] nodes IH]; [reflexivity| |exact IH].
  cbn. by rewrite IH.
Qed.

(** [buildPromptContext] over the in-memory world. *)
Lemma buildPromptContext_in_memory (ws : InMemoryWorldSystem) (clock : Clock)
    (sess : GameSession.t) :
  match locations ws !! GameSession.CurrentLocationID sess with
  | None =>
      buildPromptContext ws clock sess
      = (ws, clock,
         Err ("could not get current location details for ID '" +:+
              GameSession.CurrentLocationID sess +:+ "': location with ID '" +:+
              GameSession.CurrentLocationID sess +:+ "' not found"))
  | Some loc =>
      ∃ promptData,
        buildPromptContext ws clock sess
        = (ws, mkClock (readings clock) (S (ticks clock)), Ok promptData) ∧
        LocationContextData.AdjacentLocationIDs
          (PromptData.LocationContext promptData)
        = LocationNode.ID <$>
            GetAdjacentLocations_scan ws (LocationNode.AdjacentIDs loc) ∧
        length (LocationContextData.AdjacentLocationIDs
                  (PromptData.LocationContext promptData))
        = length (LocationContextData.AdjacentLocationNames
                    (PromptData.LocationContext promptData)) ∧
        SessionContextData.RecentActions (PromptData.SessionContext promptData)
        = GameSession.RecentActions sess
  end.
Proof.
  unfold buildPromptContext.
  cbn [WorldSystem_GetLocation WorldSystem_GetAdjacentLocations
       InMemoryWorldSystem_WorldSystem].
  unfold GetAdjacentLocations, GetLocation.
  destruct (locations ws !! GameSession.CurrentLocationID sess) as [loc|] eqn:Hloc.
  - eexists. split; [reflexivity|]. cbn. split; [|split; [|reflexivity]].
    + apply adjacent_ids_Some.
    + apply adjacent_ids_names_length.
  - reflexivity.
Qed.

(** X16.  Over an in-memory world whose locations are stored under their
    identifiers, every non-empty adjacent-location identifier that
    [buildPromptContext] puts into the prompt is a move the executor
    accepts from that session: the handler reports no error for it and
    leaves the session at that location.  The identifiers and the names
    offered are equally many. *)
Theorem prompt_offers_only_legal_moves (ws ws' : InMemoryWorldSystem)
    (clock clock' : Clock) (sess : GameSession.t) (promptData : PromptData.t)
    (action : LLMAction.t) (target : string) :
  keys_are_ids ws →
  buildPromptContext ws clock sess = (ws', clock', Ok promptData) →
  target ∈ LocationContextData.AdjacentLocationIDs
             (PromptData.LocationContext promptData) →
  target ≠ "" →
  LLMAction.Data action !! "locationId" = Some (AnyString target) →
  handleUpdateLocation ws action sess
  = (ws, GameSession.with_CurrentLocationID target sess, None) ∧
  length (LocationContextData.AdjacentLocationIDs
            (PromptData.LocationContext promptData))
  = length (LocationContextData.AdjacentLocationNames
              (PromptData.LocationContext promptData)).
Proof.
  intros Hkeys Hctx Hin Hne Hdata.
  pose proof (buildPromptContext_in_memory ws clock sess) as Hb.
  destruct (locations ws !! GameSession.CurrentLocationID sess) as [loc|] eqn:Hloc.
  2:{ rewrite Hb in Hctx. discriminate. }
  destruct Hb as (pd & Hpd & Hids & Hlen & _).
  rewrite Hpd in Hctx. injection Hctx as <- <- <-.
  split; [|exact Hlen].
  destruct (decide (GameSession.CurrentLocationID sess = target)) as [Heq|Hmove].
  - unfold handleUpdateLocation. rewrite Hdata.
    rewrite decide_False by done. rewrite decide_True by done.
    rewrite <- Heq. by rewrite with_CurrentLocationID_same.
  - rewrite (handleUpdateLocation_IsAdjacent ws action sess target Hdata Hne Hmove).
    rewrite Hids, GetAdjacentLocations_scan_ids in Hin by done.
    apply list_elem_of_filter in Hin as [Hstored Hadj].
    rewrite (IsAdjacent_present ws _ target loc Hloc Hstored).
    by rewrite bool_decide_eq_true_2.
Qed.

Lemma ex_world_keys_are_ids : keys_are_ids ex_world.
Proof.
  split.
  - intros k loc Hk. unfold ex_world in Hk. cbn [locations] in Hk.
    repeat (apply lookup_insert_Some in Hk as [[<- <-]|[_ Hk]]; [reflexivity|]).
    by rewrite lookup_empty in Hk.
  - intros k th Hk. cbn in Hk. by rewrite lookup_empty in Hk.
Defined.

Lemma prompt_offers_only_legal_moves_witness :
  handleUpdateLocation ex_world (ex_move "village") (ex_session_at "gate")
  = (ex_world, GameSession.with_CurrentLocationID "village" (ex_session_at "gate"),
     None).
Proof.
  refine (proj1 (prompt_offers_only_legal_moves ex_world ex_world ex_clock
                   (mkClock (readings ex_clock) 1) (ex_session_at "gate")
                   (PromptData.mk
                      (PlayerContextData.mk "Ash" "" "" 1)
                      (LocationContextData.mk "gate (gate)" ""
                         ["village"; "tower"]
                         ["village (village)"; "tower (tower)"] "")
                      (SessionContextData.mk 0 []) "")
                   (ex_move "village") "village"
                   ex_world_keys_are_ids _ _ _ _)).
  - vm_compute. reflexivity.
  - apply elem_of_cons. by left.
  - discriminate.
  - vm_compute. reflexivity.
Defined.

Section TurnMore.
Context {W : Type} `{!WorldSystem W}.

(** The second half of a turn, spelled out. *)
Lemma turn_execution_unfold (st : System) (sessionID : string)
    (cs : GameSession.t) (resp : LLMResponse.t) :
  let exec :=
    if decide (0 < length (LLMResponse.Actions resp))
    then ExecuteActions (sys_world st) (LLMResponse.Actions resp) (Some cs)
    else (sys_world st, Some cs, []) in
  let executed := default cs exec.1.2 in
  let upd :=
    UpdateSession (store_session sessionID executed (sys_manager st))
      (sys_clock st) (Some executed) in
  turn_execution st sessionID cs resp
  = (if decide (0 < length exec.2)
     then LLMResponse.mk
            (errorNarrative (length exec.2) +:+ LLMResponse.Narrative resp)
            (LLMResponse.Suggestions resp) (LLMResponse.Actions resp)
     else resp,
     mkSystem exec.1.1
       (mkManager (<[sessionID := default executed upd.1.2]>
                     (sessions (sys_manager st))))
       upd.2).
Proof.
  intros exec executed upd. unfold turn_execution.
  unfold upd, executed, exec. clear upd executed exec.
  destruct (decide (0 < length (LLMResponse.Actions resp))) as [Hpos|Hzero].
  - destruct (ExecuteActions (sys_world st) (LLMResponse.Actions resp) (Some cs))
      as [[w executed] errs]. cbn [fst snd].
    destruct (UpdateSession _ (sys_clock st) (Some (default cs executed)))
      as [[uerr updated] clock]. cbn [fst snd].
    unfold store_session. cbn [sessions]. by rewrite insert_insert_eq.
  - cbn [fst snd length]. change (default cs (Some cs)) with cs.
    destruct (UpdateSession _ (sys_clock st) (Some cs))
      as [[uerr updated] clock]. cbn [fst snd].
    rewrite decide_False by lia.
    unfold store_session. cbn [sessions]. by rewrite insert_insert_eq.
Qed.

(** X17.  A turn touches no session but its own: whatever the turn does,
    and however it ends, every session stored under another identifier is
    afterwards as it was before. *)
Theorem ProcessPlayerInput_other_sessions (adapter : Adapter)
    (systemPrompt : string) (st : System) (sessionID playerInput : string)
    (other : string) :
  other ≠ sessionID →
  sessions (sys_manager
              (ProcessPlayerInput adapter systemPrompt st sessionID
                 playerInput).2) !! other
  = sessions (sys_manager st) !! other.
Proof.
  intros Hother. unfold ProcessPlayerInput.
  destruct (sessions (sys_manager st) !! sessionID) as [sess|] eqn:Hsess.
  - rewrite (turn_before_execution_present adapter systemPrompt st sessionID
               playerInput sess Hsess). cbv zeta.
    destruct (buildPromptContext _ _ _) as [[w clock] [pd|err]]; cbn [fst snd].
    + destruct (adapter systemPrompt _) as [resp|err].
      * rewrite turn_execution_unfold. cbv zeta. cbn [snd sys_manager sessions].
        by rewrite !lookup_insert_ne.
      * cbn [snd sys_manager sessions]. by rewrite lookup_insert_ne.
    + cbn [snd sys_manager sessions]. by rewrite lookup_insert_ne.
  - by rewrite (turn_before_execution_absent adapter systemPrompt st sessionID
                  playerInput Hsess).
Qed.

(** X18.  When the generator's response carries no action, or none of its
    actions fails, the turn returns the response exactly as the generator
    gave it, without annotation. *)
Theorem turn_without_failure_returns_response (adapter : Adapter)
    (systemPrompt : string) (st st1 : System) (sessionID playerInput : string)
    (currentSession : GameSession.t) (llmResponse : LLMResponse.t) :
  turn_before_execution adapter systemPrompt st sessionID playerInput
  = (Ok (currentSession, llmResponse), st1) →
  LLMResponse.Actions llmResponse = [] ∨
  (ExecuteActions (sys_world st1) (LLMResponse.Actions llmResponse)
     (Some currentSession)).2 = [] →
  (ProcessPlayerInput adapter systemPrompt st sessionID playerInput).1
  = Ok llmResponse.
Proof.
  intros Hbefore Hfine. unfold ProcessPlayerInput. rewrite Hbefore.
  rewrite turn_execution_unfold. cbv zeta. cbn [fst].
  destruct (decide (0 < length (LLMResponse.Actions llmResponse))) as [Hpos|Hzero].
  - destruct Hfine as [Hnil|Hnil].
    + rewrite Hnil in Hpos. simpl in Hpos. lia.
    + rewrite Hnil. by rewrite decide_False by (simpl; lia).
  - cbn [snd]. by rewrite decide_False by (simpl; lia).
Qed.
End TurnMore.

Lemma ProcessPlayerInput_other_sessions_witness :
  sessions (sys_manager
              (ProcessPlayerInput ex_batch_adapter "" ex_system_two
                 "session_hero_42" "go").2) !! "session_other_7"
  = Some ex_other_session ∧
  sessions (sys_manager
              (ProcessPlayerInput ex_batch_adapter "" ex_system_two
                 "session_hero_42" "go").2) !! "session_hero_42"
  ≠ sessions (sys_manager ex_system_two) !! "session_hero_42".
Proof.
  split.
  - rewrite (ProcessPlayerInput_other_sessions ex_batch_adapter "" ex_system_two
               "session_hero_42" "go" "session_other_7"); [|discriminate].
    vm_compute. reflexivity.
  - vm_compute. discriminate.
Defined.

Lemma AddRecentAction_fold_frame (summaries : list string) (sess : GameSession.t) :
  fold_left AddRecentAction summaries sess
  = GameSession.with_RecentActions
      (GameSession.RecentActions (fold_left AddRecentAction summaries sess))
      sess.
Proof.
  revert sess. induction summaries as [|x xs IH]; intros sess.
  - by destruct sess.
  - cbn [fold_left]. rewrite IH. rewrite (AddRecentAction_frame sess x) at 2.
    reflexivity.
Qed.

(** What a batch over the in-memory world leaves: the world, and a session
    with the same identifier, character and creation time at a location
    reached along stored adjacencies. *)
Lemma ExecuteActions_in_memory_facts (ws : InMemoryWorldSystem)
    (actions : list LLMAction.t) (cs : GameSession.t) :
  (ExecuteActions ws actions (Some cs)).1.1 = ws ∧
  ∃ s1,
    (ExecuteActions ws actions (Some cs)).1.2 = Some s1 ∧
    GameSession.ID s1 = GameSession.ID cs ∧
    GameSession.Player s1 = GameSession.Player cs ∧
    GameSession.CreatedAt s1 = GameSession.CreatedAt cs ∧
    rtc (λ a b, IsAdjacent ws a b = Ok true)
      (GameSession.CurrentLocationID cs) (GameSession.CurrentLocationID s1).
Proof.
  unfold ExecuteActions.
  destruct (execute_fold_in_memory ws actions cs) as [Hw Hrtc].
  destruct (execute_fold_frame ws actions cs) as (loc & Hs & _ & _).
  destruct (fold_left execute_step actions (ws, cs, [])) as [[w' s'] errs].
  cbn [fst snd] in *. split; [done|]. exists s'. split; [done|].
  rewrite AddRecentAction_fold_frame in Hs. rewrite Hs. cbn.
  repeat split; try done. rewrite Hs in Hrtc. exact Hrtc.
Qed.

Lemma rtc_IsAdjacent_stored (ws : InMemoryWorldSystem) (a b : string) :
  rtc (λ a b, IsAdjacent ws a b = Ok true) a b →
  is_Some (locations ws !! a) → is_Some (locations ws !! b).
Proof.
  intros Hrtc Hstored. induction Hrtc as [|x y z Hxy _ IH]; [done|].
  apply IH. by apply IsAdjacent_true_exists in Hxy as [_ ?].
Qed.

Lemma UpdateSession_fields (sm : InMemorySessionManager) (clock : Clock)
    (s1 : GameSession.t) :
  ∃ s2,
    default s1 (UpdateSession sm clock (Some s1)).1.2 = s2 ∧
    GameSession.ID s2 = GameSession.ID s1 ∧
    GameSession.Player s2 = GameSession.Player s1 ∧
    GameSession.CreatedAt s2 = GameSession.CreatedAt s1 ∧
    GameSession.CurrentLocationID s2 = GameSession.CurrentLocationID s1 ∧
    GameSession.RecentActions s2 = GameSession.RecentActions s1.
Proof.
  unfold UpdateSession.
  destruct (sessions sm !! GameSession.ID s1); eexists; by repeat split.
Qed.

(** The second half of a turn over the in-memory world. *)
Lemma turn_execution_in_memory (st : System) (sessionID : string)
    (cs : GameSession.t) (resp : LLMResponse.t) :
  ∃ s2,
    (turn_execution st sessionID cs resp).2
    = mkSystem (sys_world st)
        (mkManager (<[sessionID := s2]> (sessions (sys_manager st))))
        (turn_execution st sessionID cs resp).2.(sys_clock) ∧
    GameSession.ID s2 = GameSession.ID cs ∧
    GameSession.Player s2 = GameSession.Player cs ∧
    GameSession.CreatedAt s2 = GameSession.CreatedAt cs ∧
    rtc (λ a b, IsAdjacent (sys_world st) a b = Ok true)
      (GameSession.CurrentLocationID cs) (GameSession.CurrentLocationID s2).
Proof.
  rewrite turn_execution_unfold. cbv zeta. cbn [snd sys_clock].
  destruct (decide (0 < length (LLMResponse.Actions resp))) as [Hpos|Hzero].
  - destruct (ExecuteActions_in_memory_facts (sys_world st)
                (LLMResponse.Actions resp) cs)
      as (Hw & s1 & Hs1 & Hid & Hplayer & Hcreated & Hrtc).
    rewrite Hw, Hs1. change (default cs (Some s1)) with s1.
    destruct (UpdateSession_fields
                (store_session sessionID s1 (sys_manager st)) (sys_clock st) s1)
      as (s2 & Hs2 & Hid2 & Hplayer2 & Hcreated2 & Hloc2 & _).
    exists s2. rewrite Hs2. split; [reflexivity|].
    rewrite Hloc2. repeat split; congruence.
  - cbn [fst snd]. change (default cs (Some cs)) with cs.
    destruct (UpdateSession_fields
                (store_session sessionID cs (sys_manager st)) (sys_clock st) cs)
      as (s2 & Hs2 & Hid2 & Hplayer2 & Hcreated2 & Hloc2 & _).
    exists s2. rewrite Hs2. split; [reflexivity|].
    rewrite Hloc2. by repeat split.
Qed.

(** X19.  A turn over the in-memory world that completes leaves the world
    as it was and the session stored under the turn's identifier with the
    same identifier, character and creation time, at a location that is
    stored in the world and reached from the previous one along stored
    adjacencies.  Sessions stay keyed by their identifiers. *)
Theorem completed_turn_invariants (adapter : Adapter) (systemPrompt : string)
    (st st' : System) (sessionID playerInput : string)
    (sess : GameSession.t) (response : LLMResponse.t) :
  sessions (sys_manager st) !! sessionID = Some sess →
  ProcessPlayerInput adapter systemPrompt st sessionID playerInput
  = (Ok response, st') →
  sys_world st' = sys_world st ∧
  ∃ sess',
    sessions (sys_manager st') !! sessionID = Some sess' ∧
    GameSession.ID sess' = GameSession.ID sess ∧
    GameSession.Player sess' = GameSession.Player sess ∧
    GameSession.CreatedAt sess' = GameSession.CreatedAt sess ∧
    rtc (λ a b, IsAdjacent (sys_world st) a b = Ok true)
      (GameSession.CurrentLocationID sess)
      (GameSession.CurrentLocationID sess') ∧
    is_Some (locations (sys_world st) !! GameSession.CurrentLocationID sess') ∧
    (sessions_keyed_by_id (sys_manager st) →
     sessions_keyed_by_id (sys_manager st')).
Proof.
  intros Hsess Hturn. unfold ProcessPlayerInput in Hturn.
  rewrite (turn_before_execution_present adapter systemPrompt st sessionID
             playerInput sess Hsess) in Hturn.
  cbv zeta in Hturn. rewrite logged_session_fields in Hturn.
  set (cs := GameSession.mk _ _ _ _ _ _) in Hturn.
  pose proof (buildPromptContext_in_memory (sys_world st)
                (mkClock (readings (sys_clock st)) (S (ticks (sys_clock st))))
                cs) as Hctx.
  change (GameSession.CurrentLocationID cs)
    with (GameSession.CurrentLocationID sess) in Hctx.
  destruct (locations (sys_world st) !! GameSession.CurrentLocationID sess)
    as [loc|] eqn:Hloc.
  2:{ rewrite Hctx in Hturn. cbn [fst snd] in Hturn. discriminate. }
  destruct Hctx as (pd & Hpd & _). rewrite Hpd in Hturn. cbn [fst snd] in Hturn.
  destruct (adapter systemPrompt _) as [resp|err]; [|discriminate].
  destruct (turn_execution_in_memory
              (mkSystem (sys_world st)
                 (mkManager (<[sessionID := cs]> (sessions (sys_manager st))))
                 (mkClock (readings (sys_clock st))
                    (S (S (ticks (sys_clock st))))))
              sessionID cs resp)
    as (s2 & Hst & Hid & Hplayer & Hcreated & Hrtc).
  destruct (turn_execution _ sessionID cs resp) as [final st2].
  cbn [snd sys_world sys_manager sessions] in Hst, Hrtc.
  assert (st' = st2) as -> by congruence. rewrite Hst.
  cbn [sys_world sys_manager sessions]. rewrite insert_insert_eq.
  split; [reflexivity|]. exists s2.
  split; [apply lookup_insert_eq|].
  split; [done|]. split; [done|]. split; [done|]. split; [done|]. split.
  - apply (rtc_IsAdjacent_stored _ _ _ Hrtc). by eexists.
  - intros Hkeyed k s Hk. cbn [sessions] in Hk.
    apply lookup_insert_Some in Hk as [[<- <-]|[_ Hk]]; [|by apply Hkeyed].
    rewrite Hid. by apply (Hkeyed sessionID sess).
Qed.

Lemma turn_without_failure_returns_response_witness :
  (ProcessPlayerInput ex_quiet_adapter "" ex_system "session_hero_42" "look").1
  = Ok (LLMResponse.mk "All is calm." ["Wait"] []).
Proof.
  refine (turn_without_failure_returns_response ex_quiet_adapter "" ex_system
            (mkSystem ex_world
               (mkManager
                  (<["session_hero_42" :=
                       GameSession.mk "session_hero_42" ex_player "gate" 0 42
                         ["Player: look"]]>
                     (sessions (sys_manager ex_system))))
               (mkClock (readings ex_clock) 2))
            "session_hero_42" "look"
            (GameSession.mk "session_hero_42" ex_player "gate" 0 42
               ["Player: look"])
            (LLMResponse.mk "All is calm." ["Wait"] []) _ _).
  - vm_compute. reflexivity.
  - by left.
Defined.

Lemma completed_turn_invariants_witness :
  sys_world
    (ProcessPlayerInput ex_move_adapter "" ex_system "session_hero_42" "go").2
  = ex_world.
Proof.
  refine (proj1 (completed_turn_invariants ex_move_adapter "" ex_system
                   (ProcessPlayerInput ex_move_adapter "" ex_system
                      "session_hero_42" "go").2
                   "session_hero_42" "go" (ex_session_at "gate")
                   (LLMResponse.mk "You reach the village." []
                      [ex_move "village"]) _ _)).
  - vm_compute. reflexivity.
  - vm_compute. reflexivity.
Defined.

(** X20.  One legal move, end to end.  When the session is stored under its
    identifier, its location and the target are stored in the in-memory
    world, the target is a non-empty identifier in the adjacency list of
    the current location, and the generator answers with a single
    updateLocation action to that target, then the turn returns the
    generator's response unchanged and leaves the world as it was and the
    session at the target, with the player's input and then the executed
    move at the end of its recent-action log (the last 5 entries kept) and
    the third clock reading of the turn as last-active timestamp. *)
Theorem turn_with_one_legal_move (adapter : Adapter) (systemPrompt : string)
    (st : System) (sessionID playerInput : string) (sess : GameSession.t)
    (loc : LocationNode.t) (target : string) (action : LLMAction.t)
    (response : LLMResponse.t) :
  sessions (sys_manager st) !! sessionID = Some sess →
  GameSession.ID sess = sessionID →
  locations (sys_world st) !! GameSession.CurrentLocationID sess = Some loc →
  is_Some (locations (sys_world st) !! target) →
  target ∈ LocationNode.AdjacentIDs loc →
  target ≠ "" →
  LLMAction.Type_ action = UpdateLocation →
  LLMAction.Data action !! "locationId" = Some (AnyString target) →
  LLMResponse.Actions response = [action] →
  (∀ promptData, adapter systemPrompt promptData = Ok response) →
  ProcessPlayerInput adapter systemPrompt st sessionID playerInput
  = (Ok response,
     mkSystem (sys_world st)
       (mkManager
          (<[sessionID :=
               GameSession.mk (GameSession.ID sess) (GameSession.Player sess)
                 target (GameSession.CreatedAt sess)
                 (readings (sys_clock st) (S (S (ticks (sys_clock st)))))
                 (keep_last 5
                    (GameSession.RecentActions sess ++
                     ["Player: " +:+ playerInput;
                      "System executed: updateLocation"]))]>
             (sessions (sys_manager st))))
       (mkClock (readings (sys_clock st)) (S (S (S (ticks (sys_clock st))))))).
Proof.
  intros Hsess Hid Hloc Htarget Hadj Hne Hty Hdata Hactions Hadapter.
  unfold ProcessPlayerInput.
  rewrite (turn_before_execution_present adapter systemPrompt st sessionID
             playerInput sess Hsess).
  cbv zeta. rewrite logged_session_fields.
  set (cs := GameSession.mk _ _ _ _ _ _).
  pose proof (buildPromptContext_in_memory (sys_world st)
                (mkClock (readings (sys_clock st)) (S (ticks (sys_clock st))))
                cs) as Hctx.
  change (GameSession.CurrentLocationID cs)
    with (GameSession.CurrentLocationID sess) in Hctx.
  rewrite Hloc in Hctx. destruct Hctx as (pd & -> & _). cbn [fst snd].
  rewrite Hadapter. rewrite turn_execution_unfold. cbv zeta.
  cbn [sys_world sys_manager sys_clock sessions]. rewrite Hactions.
  destruct (decide (0 < length [action])) as [_|Hbad]; [|simpl in Hbad; lia].
  assert (Hexec :
    ExecuteActions (sys_world st) [action] (Some cs)
    = (sys_world st,
       Some (AddRecentAction (GameSession.with_CurrentLocationID target cs)
               "System executed: updateLocation"), [])).
  { unfold ExecuteActions. cbn [fold_left]. unfold execute_step, dispatch_action.
    rewrite Hty. rewrite decide_True by reflexivity.
    destruct (decide (GameSession.CurrentLocationID cs = target)) as [Heq|Hmove].
    - unfold handleUpdateLocation. rewrite Hdata.
      rewrite decide_False by done. rewrite decide_True by done.
      rewrite <- Heq. by rewrite with_CurrentLocationID_same.
    - rewrite (handleUpdateLocation_IsAdjacent _ action cs target Hdata Hne Hmove).
      change (GameSession.CurrentLocationID cs)
        with (GameSession.CurrentLocationID sess).
      rewrite (IsAdjacent_present _ _ target loc Hloc Htarget).
      by rewrite bool_decide_eq_true_2. }
  rewrite Hexec. cbn [fst snd length].
  change (default cs (Some ?x)) with x.
  destruct (decide (0 < 0)) as [Hbad|_]; [lia|].
  set (s1 := AddRecentAction _ _).
  assert (Hs1 : GameSession.ID s1 = sessionID).
  { unfold s1. rewrite AddRecentAction_frame. exact Hid. }
  unfold UpdateSession, store_session. cbn [sessions].
  rewrite Hs1, lookup_insert_eq. cbn [time_Now fst snd default readings ticks].
  rewrite insert_insert_eq. do 4 f_equal.
  unfold s1. rewrite AddRecentAction_frame, AddRecentAction_log. cbn.
  unfold GameSession.with_LastActive. cbn. f_equal.
  change maxRecentActions with 5.
  change (GameSession.RecentActions sess ++
          ["Player: " +:+ playerInput; "System executed: updateLocation"])
    with (GameSession.RecentActions sess ++
          (["Player: " +:+ playerInput] ++ ["System executed: updateLocation"])).
  rewrite app_assoc.
  rewrite <- (keep_last_app 5
                (GameSession.RecentActions sess ++ ["Player: " +:+ playerInput])
                ["System executed: updateLocation"]).
  reflexivity.
Qed.

Lemma turn_with_one_legal_move_witness :
  ProcessPlayerInput ex_move_adapter "" ex_system "session_hero_42" "go"
  = (Ok (LLMResponse.mk "You reach the village." [] [ex_move "village"]),
     mkSystem ex_world
       (mkManager
          (<["session_hero_42" :=
               GameSession.mk "session_hero_42" ex_player "village" 0 42
                 ["Player: go"; "System executed: updateLocation"]]>
             (sessions (sys_manager ex_system))))
       (mkClock (readings ex_clock) 3)).
Proof.
  refine (turn_with_one_legal_move ex_move_adapter "" ex_system
            "session_hero_42" "go" (ex_session_at "gate")
            (ex_location "gate" ["village"; "tower"] "") "village"
            (ex_move "village")
            (LLMResponse.mk "You reach the village." [] [ex_move "village"])
            _ _ _ _ _ _ _ _ _ _).
  - vm_compute. reflexivity.
  - reflexivity.
  - vm_compute. reflexivity.
  - exists (ex_location "village" ["gate"] ""). vm_compute. reflexivity.
  - apply elem_of_cons. by left.
  - discriminate.
  - reflexivity.
  - vm_compute. reflexivity.
  - reflexivity.
  - reflexivity.
Defined.

(** ** The default session *)

Lemma GetAllSessionIDs_nil (sm : InMemorySessionManager) :
  ¬ 0 < length (GetAllSessionIDs sm) ↔ sessions sm = ∅.
Proof.
  unfold GetAllSessionIDs. rewrite length_fmap. split.
  - intros Hlen. apply map_to_list_empty_iff.
    destruct (map_to_list (sessions sm)); [done|simpl in Hlen; lia].
  - intros ->. rewrite map_to_list_empty. simpl. lia.
Qed.

(** X21.  [createDefaultSession] does nothing when the store holds a
    session or the world holds no location.  On an empty store and a
    non-empty world it stores exactly one session, for the character
    "player_default" with an empty log, whose current location is stored
    in the world: "oakhaven_gate" when that is stored, another stored
    location otherwise. *)
Theorem createDefaultSession_effect (ws : InMemoryWorldSystem)
    (sm : InMemorySessionManager) (clock : Clock) :
  (sessions sm ≠ ∅ ∨ locations ws = ∅ →
   createDefaultSession ws sm clock = (sm, clock)) ∧
  (sessions sm = ∅ → locations ws ≠ ∅ →
   ∃ sess,
     sessions (createDefaultSession ws sm clock).1
     = {[GameSession.ID sess := sess]} ∧
     Character.ID (GameSession.Player sess) = "player_default" ∧
     GameSession.RecentActions sess = [] ∧
     is_Some (locations ws !! GameSession.CurrentLocationID sess) ∧
     (is_Some (locations ws !! "oakhaven_gate") →
      GameSession.CurrentLocationID sess = "oakhaven_gate")).
Proof.
  unfold createDefaultSession. split.
  - intros [Hsome|Hnone].
    + rewrite decide_True; [done|].
      destruct (decide (0 < length (GetAllSessionIDs sm))) as [|Hn]; [done|].
      by apply GetAllSessionIDs_nil in Hn.
    + case_decide; [done|]. rewrite decide_False; [done|].
      unfold GetAllLocationIDs. rewrite Hnone, map_to_list_empty. simpl. lia.
  - intros Hempty Hworld.
    rewrite decide_False by by apply GetAllSessionIDs_nil.
    assert (Hids : GetAllLocationIDs ws ≠ []).
    { unfold GetAllLocationIDs. intros Hnil. apply fmap_nil_inv in Hnil.
      by apply map_to_list_empty_iff in Hnil. }
    rewrite decide_True by (destruct (GetAllLocationIDs ws); [done|simpl; lia]).
    set (start := match GetLocation ws "oakhaven_gate" with
                  | Err _ => default "" (head (GetAllLocationIDs ws))
                  | Ok _ => "oakhaven_gate"
                  end).
    assert (Hstart : is_Some (locations ws !! start) ∧
                     (is_Some (locations ws !! "oakhaven_gate") →
                      start = "oakhaven_gate")).
    { unfold start, GetLocation.
      destruct (locations ws !! "oakhaven_gate") as [l|] eqn:Hgate.
      - split; [by eexists|done].
      - split; [|by intros [? ?]].
        destruct (GetAllLocationIDs ws) as [|k ks] eqn:Hks; [done|].
        cbn [head default].
        assert (Hk : k ∈ GetAllLocationIDs ws)
          by (rewrite Hks; apply elem_of_cons; by left).
        unfold GetAllLocationIDs in Hk.
        apply list_elem_of_fmap in Hk as ([k' l] & -> & Hin).
        apply elem_of_map_to_list in Hin. by eexists. }
    clearbody start. destruct Hstart as [Hstored Hgate].
    unfold CreateNewSession. rewrite decide_False by discriminate.
    cbn [time_Now]. rewrite Hempty, lookup_empty.
    unfold store_session. cbn [fst snd sessions]. rewrite Hempty.
    eexists. split; [apply insert_empty|]. by repeat split.
Qed.

Lemma createDefaultSession_effect_witness :
  createDefaultSession ex_world (sys_manager ex_system) ex_clock
  = (sys_manager ex_system, ex_clock).
Proof.
  apply (createDefaultSession_effect ex_world (sys_manager ex_system) ex_clock).
  left. intros Hempty.
  assert (Hlookup : sessions (sys_manager ex_system) !! "session_hero_42"
                    = Some (ex_session_at "gate")) by (vm_compute; reflexivity).
  rewrite Hempty in Hlookup. by rewrite lookup_empty in Hlookup.
Defined.

(** ** The Gemini adapter *)

Lemma HasPrefix_app (a b p : string) :
  Go.HasPrefix a p = true → Go.HasPrefix (a +:+ b) p = true.
Proof.
  revert a. induction p as [|c p IH]; intros a Ha; [by destruct (a +:+ b)|].
  destruct a as [|d a]; [discriminate|].
  change (String d a +:+ b) with (String d (a +:+ b)).
  cbn [Go.HasPrefix] in *. case_decide; [by apply IH|discriminate].
Qed.

Lemma HasPrefix_self (x b : string) : Go.HasPrefix (x +:+ b) x = true.
Proof.
  induction x as [|c x IH]; [by destruct ("" +:+ b)|].
  change (String c x +:+ b) with (String c (x +:+ b)).
  cbn [Go.HasPrefix]. by rewrite decide_True.
Qed.

Lemma Contains_prefix (s x : string) :
  Go.HasPrefix s x = true → Go.Contains s x = true.
Proof. intros H. destruct s; cbn [Go.Contains]; by rewrite H. Qed.

Lemma Contains_app_l (a b x : string) :
  Go.Contains a x = true → Go.Contains (a +:+ b) x = true.
Proof.
  induction a as [|c a IH]; intros Ha.
  - apply Contains_prefix. apply (HasPrefix_app "" b x).
    cbn [Go.Contains] in Ha. by destruct (Go.HasPrefix "" x).
  - change (String c a +:+ b) with (String c (a +:+ b)).
    rewrite Contains_cons in *.
    destruct (Go.HasPrefix (String c a) x) eqn:Hp.
    + change (String c (a +:+ b)) with (String c a +:+ b).
      by rewrite (HasPrefix_app _ b x Hp).
    + destruct (Go.HasPrefix (String c (a +:+ b)) x); [done|by apply IH].
Qed.

Lemma Contains_self (x b : string) : Go.Contains (x +:+ b) x = true.
Proof. apply Contains_prefix, HasPrefix_self. Qed.

Lemma Contains_refl (x : string) : Go.Contains x x = true.
Proof.
  apply Contains_prefix. induction x as [|c x IH]; [reflexivity|].
  cbn [Go.HasPrefix]. by rewrite decide_True.
Qed.

Lemma Contains_Join (elems : list string) (sep x : string) :
  x ∈ elems → Go.Contains (GoStrings.Join elems sep) x = true.
Proof.
  induction elems as [|y rest IH]; intros Hin; [by apply elem_of_nil in Hin|].
  apply elem_of_cons in Hin as [->|Hin].
  - destruct rest as [|z rest]; [apply Contains_refl|apply Contains_self].
  - destruct rest as [|z rest]; [by apply elem_of_nil in Hin|].
    change (GoStrings.Join (y :: z :: rest) sep)
      with (y +:+ sep +:+ GoStrings.Join (z :: rest) sep).
    do 2 apply Contains_app_r. by apply IH.
Qed.

(** X22.  The prompt sent to the API carries the context: it contains the
    system prompt, the name of the current location, every adjacent
    location name, every recent action, and it ends with the player's
    input. *)
Theorem finalPrompt_carries_context (systemPrompt : string)
    (promptData : PromptData.t) :
  let prompt := finalPrompt systemPrompt promptData in
  Go.Contains prompt systemPrompt = true ∧
  Go.Contains prompt
    (LocationContextData.CurrentLocationName
       (PromptData.LocationContext promptData)) = true ∧
  (∀ name,
     name ∈ LocationContextData.AdjacentLocationNames
              (PromptData.LocationContext promptData) →
     Go.Contains prompt name = true) ∧
  (∀ summary,
     summary ∈ SessionContextData.RecentActions
                 (PromptData.SessionContext promptData) →
     Go.Contains prompt summary = true) ∧
  ∃ before, prompt = before +:+ PromptData.PlayerInput promptData.
Proof.
  intros prompt. unfold prompt, finalPrompt. cbv zeta.
  set (header := if decide (systemPrompt ≠ "") then _ else "").
  set (names := LocationContextData.AdjacentLocationNames _).
  set (recent := SessionContextData.RecentActions _).
  split; [|split; [|split; [|split]]].
  - apply Contains_app_l. unfold header. case_decide as Hsp.
    + apply Contains_self.
    + destruct (decide (systemPrompt = "")) as [->|?]; [reflexivity|done].
  - apply Contains_app_r, Contains_app_l, Contains_app_r, Contains_self.
  - intros name Hin. do 2 apply Contains_app_r. apply Contains_app_l.
    rewrite decide_True by (destruct names; [by apply elem_of_nil in Hin|simpl; lia]).
    apply Contains_app_r, Contains_app_l. by apply Contains_Join.
  - intros summary Hin. do 3 apply Contains_app_r. apply Contains_app_l.
    rewrite decide_True by (destruct recent; [by apply elem_of_nil in Hin|simpl; lia]).
    apply Contains_app_r, Contains_app_l. by apply Contains_Join.
  - eexists. rewrite <- !append_assoc. reflexivity.
Qed.

Lemma finalPrompt_carries_context_witness :
  Go.Contains (finalPrompt "You narrate." ex_prompt_data) "Player: wait" = true.
Proof.
  destruct (finalPrompt_carries_context "You narrate." ex_prompt_data)
    as (_ & _ & _ & Hrecent & _).
  apply Hrecent. apply elem_of_cons. right. apply elem_of_cons. by left.
Defined.

Lemma read_geminiResponse_Ok (env : GeminiEnv) (apiResponse : geminiResponse.t)
    (response : LLMResponse.t) :
  read_geminiResponse env apiResponse = Ok response ↔
  (∀ feedback, geminiResponse.PromptFeedback apiResponse = Some feedback →
               geminiPromptFeedback.BlockReason feedback = "") ∧
  ∃ candidate candidates part parts,
    geminiResponse.Candidates apiResponse = candidate :: candidates ∧
    geminiContent.Parts (geminiCandidate.Content candidate) = part :: parts ∧
    json_Unmarshal_output env (geminiPart.Text part) = Ok response.
Proof.
  unfold read_geminiResponse. split.
  - intros Hok.
    assert (Hfree : ∀ feedback,
              geminiResponse.PromptFeedback apiResponse = Some feedback →
              geminiPromptFeedback.BlockReason feedback = "").
    { intros fb Hfb. rewrite Hfb in Hok.
      destruct (decide (geminiPromptFeedback.BlockReason fb ≠ ""));
        [discriminate|].
      by destruct (decide (geminiPromptFeedback.BlockReason fb = "")). }
    split; [exact Hfree|].
    destruct (geminiResponse.PromptFeedback apiResponse) as [fb|].
    + rewrite decide_False in Hok by (rewrite (Hfree fb eq_refl); by intros ?).
      destruct (geminiResponse.Candidates apiResponse) as [|c cs];
        [discriminate|].
      destruct (geminiContent.Parts (geminiCandidate.Content c)) as [|p ps] eqn:Hp.
      { by case_decide. }
      destruct (json_Unmarshal_output env (geminiPart.Text p)) as [out|err] eqn:Ho;
        [|discriminate].
      injection Hok as <-. exists c, cs, p, ps. by destruct out.
    + destruct (geminiResponse.Candidates apiResponse) as [|c cs];
        [discriminate|].
      destruct (geminiContent.Parts (geminiCandidate.Content c)) as [|p ps] eqn:Hp.
      { by case_decide. }
      destruct (json_Unmarshal_output env (geminiPart.Text p)) as [out|err] eqn:Ho;
        [|discriminate].
      injection Hok as <-. exists c, cs, p, ps. by destruct out.
  - intros (Hfree & c & cs & p & ps & -> & Hp & Ho).
    assert (Hnot :
      match geminiResponse.PromptFeedback apiResponse with
      | Some feedback =>
          if decide (geminiPromptFeedback.BlockReason feedback ≠ "")
          then Some feedback else None
      | None => None
      end = None).
    { destruct (geminiResponse.PromptFeedback apiResponse) as [fb|]; [|done].
      rewrite decide_False; [done|]. rewrite (Hfree fb eq_refl). by intros ?. }
    rewrite Hnot, Hp, Ho. by destruct response.
Qed.

(** X23.  [GenerateResponse] succeeds in one way only: the API key is set,
    the request is encoded, created and executed, the body is read, the
    status is 200, the body decodes to a response that is not blocked and
    whose first candidate has a first part, and the text of that part
    decodes; the response returned is then that decoding.  Later candidates
    and parts play no role, and every other course of the exchange ends in
    an error. *)
Theorem GenerateResponse_succeeds_iff (g : GeminiAdapter.t) (env : GeminiEnv)
    (systemPrompt : string) (promptData : PromptData.t)
    (response : LLMResponse.t) :
  GenerateResponse g env systemPrompt promptData = Ok response ↔
  exchange_succeeds g env systemPrompt promptData response.
Proof.
  unfold GenerateResponse, exchange_succeeds. cbv zeta.
  set (url := GeminiAdapter.apiEndpoint g +:+ "/" +:+ GeminiAdapter.modelName g +:+
              ":generateContent?key=" +:+ Getenv_GEMINI_API_KEY env).
  split.
  - intros Hok.
    destruct (decide (Getenv_GEMINI_API_KEY env = "")) as [|Hkey]; [discriminate|].
    split; [exact Hkey|].
    destruct (json_Marshal_request env _) as [reqBody|] eqn:Hm; [|discriminate].
    destruct (http_NewRequest env url reqBody) eqn:Hn; [discriminate|].
    destruct (httpClient_Do env url reqBody) as [httpResp|] eqn:Hd; [|discriminate].
    destruct (httpResponse.Body httpResp) as [respBody|] eqn:Hb; [|discriminate].
    destruct (decide (httpResponse.StatusCode httpResp ≠ 200%Z)) as [Hs|Hs].
    { destruct (json_Unmarshal_apiError env respBody) as [e|];
        [by case_decide|discriminate]. }
    destruct (json_Unmarshal_geminiResponse env respBody) as [apiResponse|] eqn:Hu;
      [|discriminate].
    apply read_geminiResponse_Ok in Hok
      as (Hfree & c & cs & p & ps & Hc & Hp & Ho).
    exists reqBody, httpResp, respBody, apiResponse, c, cs, p, ps.
    repeat split; try done.
    by destruct (decide (httpResponse.StatusCode httpResp = 200%Z)).
  - intros (Hkey & reqBody & httpResp & respBody & apiResponse & c & cs & p & ps
            & Hm & Hn & Hd & Hb & Hs & Hu & Hfree & Hc & Hp & Ho).
    rewrite decide_False by exact Hkey.
    rewrite Hm, Hn, Hd, Hb. rewrite decide_False by (by intros ?).
    rewrite Hu. apply read_geminiResponse_Ok.
    split; [exact Hfree|]. by exists c, cs, p, ps.
Qed.

Lemma GenerateResponse_succeeds_iff_witness :
  GenerateResponse (NewGeminiAdapter "") ex_gemini_env "You narrate."
    ex_prompt_data
  = Ok (LLMResponse.mk "All is calm." ["Wait"] []).
Proof.
  apply (GenerateResponse_succeeds_iff (NewGeminiAdapter "") ex_gemini_env
           "You narrate." ex_prompt_data).
  split; [discriminate|].
  eexists _, _, _, _, _, _, _, _. cbv zeta.
  split; [reflexivity|]. split; [reflexivity|]. split; [reflexivity|].
  split; [reflexivity|]. split; [reflexivity|]. split; [reflexivity|].
  split; [|split; [reflexivity|split; reflexivity]].
  intros feedback Hfb. discriminate.
Defined.
